(** * claude-code-go: plugin lifecycle manager, permission rules, budget tracker

    A shallow embedding of the three core subsystems of the Go package
    [claude] and the proofs of the properties its specification states:

    - [permissions.go]: [ParseToolPermission], the [ToolPermission]
      matching methods and [ChainCallbacks];
    - the budget tracker: [AddSpend], [RemainingBudget], [ResetSession];
    - the plugin manager: [Register], [Initialize], the hook fan-outs,
      [Shutdown], [List], [SetEnabled].

    Go strings are byte strings and are modelled by [string]; Go's [int]
    priorities are only compared, never computed with, and are modelled by
    [Z]; [float64] is modelled by the primitive binary64 floats.  The
    mutexes are not modelled: every operation runs under its lock in the
    source, so operations are atomic state transformers here. *)

From Stdlib Require Import ZArith Floats Ascii.
From stdpp Require Import base option list sorting strings gmap pretty.

(** ** Go's [strings] package, at the level of bytes *)

Module strings.

(** [s[i:j]] *)
Definition slice (s : string) (i j : nat) : string :=
  String.substring i (j - i) s.

(** [len(s) >= len(prefix) && s[:len(prefix)] == prefix] *)
Definition HasPrefix (s prefix : string) : bool :=
  bool_decide (String.length prefix ≤ String.length s)
  && bool_decide (slice s 0 (String.length prefix) = prefix).

(** [len(s) >= len(suffix) && s[len(s)-len(suffix):] == suffix] *)
Definition HasSuffix (s suffix : string) : bool :=
  bool_decide (String.length suffix ≤ String.length s)
  && bool_decide
       (slice s (String.length s - String.length suffix) (String.length s)
        = suffix).

Definition TrimPrefix (s prefix : string) : string :=
  if HasPrefix s prefix then slice s (String.length prefix) (String.length s)
  else s.

Definition TrimSuffix (s suffix : string) : string :=
  if HasSuffix s suffix then slice s 0 (String.length s - String.length suffix)
  else s.

(** [Contains(s, substr)]: [substr] occurs at some offset of [s]. *)
Fixpoint Contains (s substr : string) : bool :=
  HasPrefix s substr
  || match s with
     | String _ s' => Contains s' substr
     | EmptyString => false
     end.

Definition byte (n : nat) : ascii := ascii_of_nat n.

(** The six ASCII white space bytes: tab, line feed, vertical tab, form
    feed, carriage return, space. *)
Definition asciiSpace (c : ascii) : bool :=
  bool_decide (c ∈ [byte 9; byte 10; byte 11; byte 12; byte 13; byte 32]).

(** UTF-8 encodings of the other runes with the White_Space property:
    U+0085 and U+00A0 take two bytes; U+1680, U+2000..U+200A, U+2028,
    U+2029, U+202F, U+205F and U+3000 take three. *)
Definition space2 (b1 b2 : ascii) : bool :=
  bool_decide (b1 = byte 194) && bool_decide (b2 ∈ [byte 133; byte 160]).

Definition space3 (b1 b2 b3 : ascii) : bool :=
  bool_decide ((b1, b2, b3) = (byte 225, byte 154, byte 128))
  || bool_decide (b1 = byte 226) && bool_decide (b2 = byte 128)
     && (bool_decide (128 ≤ nat_of_ascii b3 ≤ 138)
         || bool_decide (b3 ∈ [byte 168; byte 169; byte 175]))
  || bool_decide ((b1, b2, b3) = (byte 226, byte 129, byte 159))
  || bool_decide ((b1, b2, b3) = (byte 227, byte 128, byte 128)).

(** Drops white space runes from the front.  [sp2] and [sp3] recognise the
    two- and three-byte encodings in the order the bytes are met. *)
Fixpoint trimLeading (sp2 : ascii → ascii → bool)
    (sp3 : ascii → ascii → ascii → bool) (s : string) : string :=
  match s with
  | String b1 t1 =>
      if asciiSpace b1 then trimLeading sp2 sp3 t1 else
      match t1 with
      | String b2 t2 =>
          if sp2 b1 b2 then trimLeading sp2 sp3 t2 else
          match t2 with
          | String b3 t3 =>
              if sp3 b1 b2 b3 then trimLeading sp2 sp3 t3 else s
          | EmptyString => s
          end
      | EmptyString => s
      end
  | EmptyString => s
  end.

Definition TrimLeftSpace (s : string) : string := trimLeading space2 space3 s.

(** From the back the bytes of an encoding are met last byte first. *)
Definition TrimRightSpace (s : string) : string :=
  String.rev
    (trimLeading (λ b2 b1, space2 b1 b2) (λ b3 b2 b1, space3 b1 b2 b3)
       (String.rev s)).

Definition TrimSpace (s : string) : string := TrimRightSpace (TrimLeftSpace s).

End strings.

(** ** Go errors *)

(** [errors.New(msg)] and [fmt.Errorf] without [%w] give [New msg];
    [fmt.Errorf(prefix ++ "%w", cause)] gives [Wrap prefix cause]. *)
Inductive error : Type :=
  | New (msg : string)
  | Wrap (prefix : string) (cause : error).

Fixpoint Error (e : error) : string :=
  match e with
  | New msg => msg
  | Wrap prefix cause => prefix +:+ Error cause
  end.

(** [errors.Unwrap] *)
Definition Unwrap (e : error) : option error :=
  match e with
  | New _ => None
  | Wrap _ cause => Some cause
  end.

(** A Go result pair [(value, error)] of which exactly one side is set. *)
Inductive result (A : Type) : Type :=
  | Ok (a : A)
  | Err (e : error).
Arguments Ok {A} a.
Arguments Err {A} e.

(** ** Go's [regexp], for the one expression of [ParseToolPermission] *)

Module regexp.

(** The longest prefix of bytes satisfying [f], and the rest. *)
Fixpoint span (f : ascii → bool) (s : string) : string * string :=
  match s with
  | String c s' =>
      if f c then let '(a, b) := span f s' in (String c a, b)
      else (EmptyString, s)
  | EmptyString => (EmptyString, EmptyString)
  end.

Definition notParen (c : ascii) : bool := bool_decide (c ≠ "("%char).
Definition notColonParen (c : ascii) : bool :=
  bool_decide (c ≠ ":"%char ∧ c ≠ ")"%char).

(** A literal byte [c] at the front of [s]: what follows it. *)
Definition expect (c : ascii) (s : string) : option string :=
  match s with
  | String c' r => if bool_decide (c' = c) then Some r else None
  | EmptyString => None
  end.

(** The three capture groups of
    [^([^(]+)\(([^:)]+)(?::([^:)]+))?\)$]
    on [s], if [s] matches.  The expression is anchored at both ends and
    each class excludes the delimiter that follows it, so a match is
    unique and is found left to right.  The delimiters are ASCII, which
    never occurs inside a multi-byte UTF-8 sequence, so matching bytes and
    matching runes agree.  An absent third group is the empty string, as
    in Go. *)
Definition groups (s : string) : option (string * string * string) :=
  let '(g1, r) := span notParen s in
  if bool_decide (g1 = "") then None else
  r ← expect "(" r;
  let '(g2, r) := span notColonParen r in
  if bool_decide (g2 = "") then None else
  match expect ":" r with
  | Some r =>
      let '(g3, r) := span notColonParen r in
      if bool_decide (g3 = "") then None else
      if bool_decide (r = ")") then Some (g1, g2, g3) else None
  | None =>
      if bool_decide (r = ")") then Some (g1, g2, "") else None
  end.

(** [re.FindStringSubmatch(s)]: [nil] without a match, else the whole
    match followed by the three groups. *)
Definition FindStringSubmatch (s : string) : list string :=
  match groups s with
  | Some (g1, g2, g3) => [s; g1; g2; g3]
  | None => []
  end.

(** What the expression means, read off its syntax. *)
Definition matches (s g1 g2 g3 : string) : Prop :=
  g1 ≠ "" ∧ g2 ≠ ""
  ∧ (∀ c, c ∈ String.list_ascii_of_string g1 → c ≠ "("%char)
  ∧ (∀ c, c ∈ String.list_ascii_of_string g2 → c ≠ ":"%char ∧ c ≠ ")"%char)
  ∧ (∀ c, c ∈ String.list_ascii_of_string g3 → c ≠ ":"%char ∧ c ≠ ")"%char)
  ∧ s = g1 +:+ "(" +:+ g2 +:+ (if bool_decide (g3 = "") then "" else ":" +:+ g3)
          +:+ ")".

End regexp.

(** ** What the core does not interpret *)

(** The types the core only passes on, and the state its collaborators can
    touch.  [World] is everything a plugin hook or a permission callback can
    read and change (its own counters, logs, ...).  It does not include the
    manager or the config cells of its entries: a hook runs while the
    manager's lock is held, and by the documented contract it does not
    re-enter the manager. *)
Class Payloads : Type := {
  World : Type;
  GoContext : Type;       (* context.Context *)
  GoMessage : Type;       (* Message *)
  GoClaudeResult : Type;  (* *ClaudeResult *)
  RawMap : Type           (* map[string]interface{} *)
}.

(** A call into collaborator code: it returns a value and leaves a new
    world. *)
Definition Eff `{Payloads} (A : Type) : Type := World → A * World.

(** ** permissions.go *)

Module permissions.
Import strings.

Definition PermissionBehavior : Type := string.
Definition PermissionAllow : PermissionBehavior := "allow".
Definition PermissionDeny : PermissionBehavior := "deny".
Definition PermissionAsk : PermissionBehavior := "ask".

Record PermissionResult : Type := {
  Behavior : PermissionBehavior;
  Message : string
}.

Module ToolInput.
Record t `{Payloads} : Type := {
  Command : string;
  FilePath : string;
  Pattern : string;
  Content : string;
  OldString : string;
  NewString : string;
  Raw : RawMap
}.
End ToolInput.

Definition Allow : PermissionResult :=
  {| Behavior := PermissionAllow; Message := "" |}.
Definition Deny (message : string) : PermissionResult :=
  {| Behavior := PermissionDeny; Message := message |}.
Definition Ask (message : string) : PermissionResult :=
  {| Behavior := PermissionAsk; Message := message |}.

Section callbacks.
Context `{Payloads}.

(** [func(ctx, toolName, input) (PermissionResult, error)] *)
Definition PermissionCallback : Type :=
  GoContext → string → ToolInput.t → Eff (PermissionResult * option error).

(** The body of the closure [ChainCallbacks] returns: the [range] loop
    over [callbacks], a [nil] callback being [None]. *)
Fixpoint chain (callbacks : list (option PermissionCallback))
    (ctx : GoContext) (toolName : string) (input : ToolInput.t)
    : Eff (PermissionResult * option error) :=
  match callbacks with
  | [] => λ w, ((Allow, None), w)
  | None :: rest => chain rest ctx toolName input
  | Some cb :: rest => λ w,
      let '((result, err), w') := cb ctx toolName input w in
      match err with
      | Some err => (({| Behavior := ""; Message := "" |}, Some err), w')
      | None =>
          if negb (bool_decide (Behavior result = PermissionAllow))
          then ((result, None), w')
          else chain rest ctx toolName input w'
      end
  end.

Definition ChainCallbacks (callbacks : list (option PermissionCallback))
    : PermissionCallback :=
  λ ctx toolName input, chain callbacks ctx toolName input.

(** The world after the non-nil callbacks of [callbacks] have run in
    order from [w], when each of them returned [allow] and no error. *)
Fixpoint allAllow (callbacks : list (option PermissionCallback))
    (ctx : GoContext) (toolName : string) (input : ToolInput.t)
    (w : World) : option World :=
  match callbacks with
  | [] => Some w
  | None :: rest => allAllow rest ctx toolName input w
  | Some cb :: rest =>
      match cb ctx toolName input w with
      | ((result, None), w') =>
          if bool_decide (Behavior result = PermissionAllow)
          then allAllow rest ctx toolName input w' else None
      | ((_, Some _), _) => None
      end
  end.

(** *** The built-in policies *)

(** [m[key]] on a [map[string]bool]: [false] for a missing key. *)
Definition member (m : gmap string bool) (key : string) : bool :=
  default false (m !! key).

Definition ReadOnlyCallback : PermissionCallback :=
  λ ctx toolName input w,
    let readOnlyTools : gmap string bool :=
      list_to_map [("Read", true); ("Grep", true); ("Glob", true)] in
    if member readOnlyTools toolName then ((Allow, None), w)
    else ((Deny "Only read-only operations are allowed", None), w).

Definition defaultBlockedPatterns : list string :=
  ["rm -rf"; "rm -r"; "> /dev/"; "dd if="; "mkfs"; ":(){:|:&};:";
   "chmod -R 777"; "curl | sh"; "wget | sh"].

Definition SafeBashCallback (blockedPatterns : list string) : PermissionCallback :=
  let blockedPatterns :=
    if bool_decide (length blockedPatterns = 0) then defaultBlockedPatterns
    else blockedPatterns in
  λ ctx toolName input w,
    if negb (bool_decide (toolName = "Bash")) then ((Allow, None), w) else
    match list_find (λ pattern, Contains (ToolInput.Command input) pattern = true)
            blockedPatterns with
    | Some (_, pattern) =>
        ((Deny ("Blocked dangerous command pattern: " +:+ pattern), None), w)
    | None => ((Allow, None), w)
    end.

Definition FilePathCallback (allowedPaths deniedPaths : list string)
    : PermissionCallback :=
  λ ctx toolName input w,
    let fileTools : gmap string bool :=
      list_to_map [("Read", true); ("Write", true); ("Edit", true)] in
    if negb (member fileTools toolName) then ((Allow, None), w) else
    let filePath := ToolInput.FilePath input in
    if bool_decide (filePath = "") then ((Allow, None), w) else
    match list_find (λ denied, HasPrefix filePath denied = true) deniedPaths with
    | Some (_, denied) =>
        ((Deny ("Access to path " +:+ denied +:+ " is denied"), None), w)
    | None =>
        if bool_decide (0 < length allowedPaths) then
          let allowed :=
            match list_find (λ path, HasPrefix filePath path = true) allowedPaths with
            | Some _ => true
            | None => false
            end in
          if negb allowed then
            ((Deny ("File path " +:+ filePath +:+ " is not in allowed paths"),
              None), w)
          else ((Allow, None), w)
        else ((Allow, None), w)
    end.
End callbacks.

Record ToolPermission : Type := {
  Tool : string;
  Command : string;
  Pattern : string;
  Original : string
}.

(** [matches[i]]; the source guards every index by [len(matches)]. *)
Definition index (matches : list string) (i : nat) : string :=
  default "" (matches !! i).

Definition ParseToolPermission (permission : string) : result ToolPermission :=
  if bool_decide (permission = "") then Err (New "empty permission string") else
  if negb (Contains permission "(") then
    Ok {| Tool := TrimSpace permission; Command := ""; Pattern := "";
          Original := permission |}
  else
  let matches := regexp.FindStringSubmatch permission in
  if bool_decide (length matches < 3) then
    Err (New ("invalid tool permission format: " +:+ permission
              +:+ " (expected format: Tool(command) or Tool(command:pattern))"))
  else
  let tool := TrimSpace (index matches 1) in
  let command := TrimSpace (index matches 2) in
  let pattern :=
    if bool_decide (3 < length matches) && negb (bool_decide (index matches 3 = ""))
    then TrimSpace (index matches 3) else "" in
  if bool_decide (tool = "") then
    Err (New ("tool name cannot be empty in permission: " +:+ permission))
  else if bool_decide (command = "") then
    Err (New ("command cannot be empty in permission: " +:+ permission))
  else
    Ok {| Tool := tool; Command := command; Pattern := pattern;
          Original := permission |}.

Definition IsLegacyFormat (tp : ToolPermission) : bool :=
  bool_decide (Command tp = "") && bool_decide (Pattern tp = "").

Definition HasCommand (tp : ToolPermission) : bool :=
  negb (bool_decide (Command tp = "")).

Definition HasPattern (tp : ToolPermission) : bool :=
  negb (bool_decide (Pattern tp = "")).

Definition MatchesTool (tp : ToolPermission) (tool : string) : bool :=
  bool_decide (Tool tp = tool).

Definition MatchesCommand (tp : ToolPermission) (command : string) : bool :=
  if negb (HasCommand tp) then true
  else bool_decide (Command tp = command).

Definition MatchesPattern (tp : ToolPermission) (path : string) : bool :=
  if negb (HasPattern tp) then true
  else if bool_decide (Pattern tp = "*") then true
  else if bool_decide (Pattern tp = path) then true
  else if HasSuffix (Pattern tp) "**" then
    let prefix := TrimSuffix (Pattern tp) "**" in HasPrefix path prefix
  else if HasSuffix (Pattern tp) "*" then
    let prefix := TrimSuffix (Pattern tp) "*" in HasPrefix path prefix
  else if HasPrefix (Pattern tp) "*" then
    let suffix := TrimPrefix (Pattern tp) "*" in HasSuffix path suffix
  else false.

Definition Matches (tp : ToolPermission) (tool command path : string) : bool :=
  MatchesTool tp tool && MatchesCommand tp command && MatchesPattern tp path.

(** The loop of [ParseToolPermissions] from index [i] on, [parsed] being
    what the earlier iterations appended. *)
Fixpoint parseFrom (i : nat) (permissions : list string)
    (parsed : list ToolPermission) : result (list ToolPermission) :=
  match permissions with
  | [] => Ok parsed
  | perm :: rest =>
      match ParseToolPermission perm with
      | Err err =>
          Err (Wrap ("error parsing permission at index " +:+ pretty i +:+ ": ")
                 err)
      | Ok parsedPerm => parseFrom (S i) rest (parsed ++ [parsedPerm])
      end
  end.

Definition ParseToolPermissions (permissions : list string)
    : result (list ToolPermission) :=
  parseFrom 0 permissions [].

Definition ValidateToolPermissions (permissions : list string) : option error :=
  match ParseToolPermissions permissions with
  | Ok _ => None
  | Err err => Some err
  end.

Definition ToLegacyFormat (tp : ToolPermission) : string := Tool tp.

(** [ToolPermission.String], in a module of its own because [String] is
    also the constructor of strings. *)
Module Stringer.
Definition String (tp : ToolPermission) : string := Original tp.
End Stringer.

End permissions.


(** ** The budget tracker *)

Module budget.
Section budget.
Context `{Payloads}.

Definition ErrBudgetExceeded : error := New "budget limit exceeded".

(** A notification hook, [func(current, max float64)]; [None] is [nil]. *)
Definition Notify : Type := float → float → Eff unit.

Record BudgetConfig : Type := {
  MaxBudgetUSD : float;
  WarningThreshold : float;
  OnBudgetWarning : option Notify;
  OnBudgetExceeded : option Notify
}.

(** The tracker behind its mutex.  The configuration is held by value:
    no operation modelled here writes to it. *)
Record BudgetTracker : Type := {
  totalSpent : float;
  sessionSpent : gmap string float;
  config : BudgetConfig;
  warningEmitted : bool
}.

(** [NewBudgetTracker(config)]; a [nil] config is the zero config. *)
Definition NewBudgetTracker (config : option BudgetConfig) : BudgetTracker :=
  {| totalSpent := 0;
     sessionSpent := ∅;
     config := default {| MaxBudgetUSD := 0; WarningThreshold := 0;
                          OnBudgetWarning := None;
                          OnBudgetExceeded := None |} config;
     warningEmitted := false |}.

Definition TotalSpent (bt : BudgetTracker) : float := totalSpent bt.

(** Reading a missing key of a Go map gives the zero value. *)
Definition SessionSpent (bt : BudgetTracker) (sessionID : string) : float :=
  default 0%float (sessionSpent bt !! sessionID).

Definition RemainingBudget (bt : BudgetTracker) : float :=
  if PrimFloat.leb (MaxBudgetUSD (config bt)) 0 then (-1)%float else
  let remaining := (MaxBudgetUSD (config bt) - totalSpent bt)%float in
  if PrimFloat.ltb remaining 0 then 0%float else remaining.


(** [go hook(current, max)]: the goroutine to start, if the hook is set. *)
Definition spawn (hook : option Notify) (current max : float)
    : list (Eff unit) :=
  match hook with
  | Some f => [f current max]
  | None => []
  end.

(** [AddSpend]: the error returned, the tracker afterwards, and the
    goroutines started, in the order of their [go] statements. *)
Definition AddSpend (bt : BudgetTracker) (sessionID : string)
    (amount : float) : option error * BudgetTracker * list (Eff unit) :=
  let total := (totalSpent bt + amount)%float in
  let sessions :=
    <[sessionID := (SessionSpent bt sessionID + amount)%float]>
      (sessionSpent bt) in
  let cfg := config bt in
  let warn :=
    PrimFloat.ltb 0 (MaxBudgetUSD cfg)
    && PrimFloat.ltb 0 (WarningThreshold cfg)
    && negb (warningEmitted bt)
    && PrimFloat.leb (MaxBudgetUSD cfg * WarningThreshold cfg)%float total in
  let bt' :=
    {| totalSpent := total; sessionSpent := sessions; config := cfg;
       warningEmitted := if warn then true else warningEmitted bt |} in
  let warned :=
    if warn then spawn (OnBudgetWarning cfg) total (MaxBudgetUSD cfg)
    else [] in
  if PrimFloat.ltb 0 (MaxBudgetUSD cfg) && PrimFloat.ltb (MaxBudgetUSD cfg) total
  then (Some ErrBudgetExceeded, bt',
        warned ++ spawn (OnBudgetExceeded cfg) total (MaxBudgetUSD cfg))
  else (None, bt', warned).

Definition ResetSession (bt : BudgetTracker) (sessionID : string)
    : BudgetTracker :=
  match sessionSpent bt !! sessionID with
  | Some spent =>
      {| totalSpent := (totalSpent bt - spent)%float;
         sessionSpent := delete sessionID (sessionSpent bt);
         config := config bt;
         warningEmitted := warningEmitted bt |}
  | None => bt
  end.

Definition Reset (bt : BudgetTracker) : BudgetTracker :=
  {| totalSpent := 0; sessionSpent := ∅; config := config bt;
     warningEmitted := false |}.

(** *** Histories *)

(** What the callers of a tracker do to it while its configuration stays. *)
Inductive Op : Type :=
  | OAddSpend (sessionID : string) (amount : float)
  | OResetSession (sessionID : string)
  | OReset.

(** The tracker after [ops], and the goroutines started on the way, in
    the order of their [go] statements. *)
Fixpoint run (bt : BudgetTracker) (ops : list Op)
    : BudgetTracker * list (Eff unit) :=
  match ops with
  | [] => (bt, [])
  | OAddSpend sessionID amount :: ops =>
      let '(_, bt', started) := AddSpend bt sessionID amount in
      let '(bt'', later) := run bt' ops in
      (bt'', started ++ later)
  | OResetSession sessionID :: ops => run (ResetSession bt sessionID) ops
  | OReset :: ops => run (Reset bt) ops
  end.

(** How many times [ops] calls [Reset]. *)
Fixpoint resets (ops : list Op) : nat :=
  match ops with
  | [] => 0
  | OReset :: ops => S (resets ops)
  | _ :: ops => resets ops
  end.
End budget.
End budget.

(** ** The plugin manager *)

Module plugin.
Import permissions.

(** The [Plugin] interface: a name, a version and five hooks. *)
Module Plugin.
Record t `{Payloads} : Type := {
  Name : string;
  Version : string;
  Initialize : GoContext → Eff (option error);
  OnToolCall : GoContext → string → ToolInput.t → Eff (option error);
  OnMessage : GoContext → GoMessage → Eff (option error);
  OnComplete : GoContext → GoClaudeResult → Eff (option error);
  Shutdown : GoContext → Eff (option error)
}.
End Plugin.

Inductive Hook : Type :=
  | HInitialize | HOnToolCall | HOnMessage | HOnComplete | HShutdown.

Global Instance Hook_eq_dec : EqDecision Hook.
Proof. solve_decision. Defined.

Section state.
Context `{Payloads}.

Record PluginConfig : Type := {
  Enabled : bool;
  Priority : Z;
  Config : option RawMap
}.

(** A [*PluginConfig]: the address of a cell of the store below. *)
Definition ptr : Type := nat.

Record pluginEntry : Type := {
  plugin : Plugin.t;
  config : option ptr;
  priority : Z
}.

Record PluginManager : Type := {
  plugins : list pluginEntry;
  initialized : bool
}.

(** One hook invocation as an observer sees it: which plugin, which
    hook, and whether the plugin's entry was enabled at that moment. *)
Record Call : Type := {
  callee : string;
  hook : Hook;
  enabledAtCall : bool
}.

(** The manager, the [PluginConfig] cells that it and its caller share
    through pointers, the world of the plugins, and the hook invocations
    made so far. *)
Record State : Type := {
  pm : PluginManager;
  heap : list PluginConfig;
  world : World;
  calls : list Call
}.

Definition M (A : Type) : Type := State → A * State.

Definition ret {A} (a : A) : M A := λ s, (a, s).
Definition bind {A B} (m : M A) (k : A → M B) : M B :=
  λ s, let '(a, s') := m s in k a s'.

End state.

Notation "x ← m ; k" := (bind m (λ x, k))
  (at level 20, m at level 100, k at level 200, only parsing).
Notation "m ;; k" := (bind m (λ _, k))
  (at level 100, k at level 200, right associativity, only parsing).

Section manager.
Context `{Payloads}.

Definition gets {A} (f : State → A) : M A := λ s, (f s, s).
Definition setPlugins (ps : list pluginEntry) : M unit := λ s,
  (tt, {| pm := {| plugins := ps; initialized := initialized (pm s) |};
          heap := heap s; world := world s; calls := calls s |}).
Definition setInitialized (b : bool) : M unit := λ s,
  (tt, {| pm := {| plugins := plugins (pm s); initialized := b |};
          heap := heap s; world := world s; calls := calls s |}).
Definition setHeap (h : list PluginConfig) : M unit := λ s,
  (tt, {| pm := pm s; heap := h; world := world s; calls := calls s |}).

(** [&PluginConfig{...}]: a fresh cell. *)
Definition new (c : PluginConfig) : M ptr :=
  h ← gets heap; setHeap (h ++ [c]);; ret (length h).

(** [*p].  Every pointer of a Go program is the address of a cell; for
    an address outside the store the zero value is read. *)
Definition deref (h : list PluginConfig) (p : ptr) : PluginConfig :=
  default {| Enabled := false; Priority := 0; Config := None |} (h !! p).

(** [entry.config != nil && !entry.config.Enabled] *)
Definition disabled (h : list PluginConfig) (entry : pluginEntry) : bool :=
  match config entry with
  | Some p => negb (Enabled (deref h p))
  | None => false
  end.

(** [entry.plugin.<hook>(...)]: the invocation is recorded, then the
    hook runs on the world. *)
Definition invoke (h : Hook) (entry : pluginEntry)
    (run : Eff (option error)) : M (option error) := λ s,
  let '(err, w) := run (world s) in
  (err, {| pm := pm s; heap := heap s; world := w;
           calls := calls s ++ [{| callee := Plugin.Name (plugin entry);
                                   hook := h;
                                   enabledAtCall :=
                                     negb (disabled (heap s) entry) |}] |}).

Definition NewPluginManager : PluginManager :=
  {| plugins := []; initialized := false |}.

(** Where [Register] puts the new entry: before the first entry of a
    strictly greater priority, at the end if there is none. *)
Definition insertEntry (entry : pluginEntry) (entries : list pluginEntry)
    : list pluginEntry :=
  match list_find (λ existing, (priority entry < priority existing)%Z) entries with
  | Some (i, _) => take i entries ++ [entry] ++ drop i entries
  | None => entries ++ [entry]
  end.

Definition hasName (name : string) (entry : pluginEntry) : Prop :=
  Plugin.Name (plugin entry) = name.

Global Instance hasName_dec name entry : Decision (hasName name entry).
Proof. unfold hasName. apply _. Defined.

(** [Register(plugin, config)]; a [nil] plugin or config is [None]. *)
Definition Register (plugin : option Plugin.t) (config : option ptr)
    : M (option error) :=
  match plugin with
  | None => ret (Some (New "plugin cannot be nil"))
  | Some plugin =>
    if bool_decide (Plugin.Name plugin = "")
    then ret (Some (New "plugin name cannot be empty")) else
    entries ← gets (λ s, plugins (pm s));
    match list_find (hasName (Plugin.Name plugin)) entries with
    | Some _ =>
        ret (Some (New ("plugin with name '" +:+ Plugin.Name plugin
                        +:+ "' already registered")))
    | None =>
        config ← match config with
                 | None => new {| Enabled := true; Priority := 100;
                                  Config := None |}
                 | Some p => ret p
                 end;
        h ← gets heap;
        let priority := Priority (deref h config) in
        let priority := if bool_decide (priority = 0%Z) then 100%Z
                        else priority in
        let entry := {| plugin := plugin; config := Some config;
                        priority := priority |} in
        setPlugins (insertEntry entry entries);;
        ret None
    end
  end.

Definition Unregister (name : string) : M (option error) :=
  entries ← gets (λ s, plugins (pm s));
  match list_find (hasName name) entries with
  | Some (i, _) =>
      setPlugins (take i entries ++ drop (S i) entries);;
      ret None
  | None => ret (Some (New ("plugin '" +:+ name +:+ "' not found")))
  end.

(** The loop shared by [Initialize], [OnToolCall], [OnMessage] and
    [OnComplete]: over the entries in order, a disabled entry is
    skipped, the hook [call] of an enabled one is invoked, and its error
    ends the loop, wrapped by [fmt] applied to the plugin's name. *)
Fixpoint rangeEnabled (h : Hook) (call : Plugin.t → Eff (option error))
    (fmt : string → string) (entries : list pluginEntry)
    : M (option error) :=
  match entries with
  | [] => ret None
  | entry :: rest =>
      skip ← gets (λ s, disabled (heap s) entry);
      if (skip : bool) then rangeEnabled h call fmt rest else
      err ← invoke h entry (call (plugin entry));
      match err with
      | Some err => ret (Some (Wrap (fmt (Plugin.Name (plugin entry))) err))
      | None => rangeEnabled h call fmt rest
      end
  end.

Definition Initialize (ctx : GoContext) : M (option error) :=
  done ← gets (λ s, initialized (pm s));
  if (done : bool) then ret None else
  entries ← gets (λ s, plugins (pm s));
  err ← rangeEnabled HInitialize (λ p, Plugin.Initialize p ctx)
          (λ name, "failed to initialize plugin '" +:+ name +:+ "': ")
          entries;
  match err with
  | Some err => ret (Some err)
  | None => setInitialized true;; ret None
  end.

Definition OnToolCall (ctx : GoContext) (toolName : string)
    (input : ToolInput.t) : M (option error) :=
  entries ← gets (λ s, plugins (pm s));
  rangeEnabled HOnToolCall (λ p, Plugin.OnToolCall p ctx toolName input)
    (λ name, "plugin '" +:+ name +:+ "' rejected tool call: ") entries.

Definition OnMessage (ctx : GoContext) (msg : GoMessage) : M (option error) :=
  entries ← gets (λ s, plugins (pm s));
  rangeEnabled HOnMessage (λ p, Plugin.OnMessage p ctx msg)
    (λ name, "plugin '" +:+ name +:+ "' error on message: ") entries.

Definition OnComplete (ctx : GoContext) (result : GoClaudeResult)
    : M (option error) :=
  entries ← gets (λ s, plugins (pm s));
  rangeEnabled HOnComplete (λ p, Plugin.OnComplete p ctx result)
    (λ name, "plugin '" +:+ name +:+ "' error on complete: ") entries.

Definition shutdownError (entry : pluginEntry) (err : error) : error :=
  Wrap ("failed to shutdown plugin '" +:+ Plugin.Name (plugin entry) +:+ "': ")
       err.

(** The body of [Shutdown]'s loop over the entries it is given, which
    are the registry's from the last index down to 0. *)
Fixpoint shutdownLoop (ctx : GoContext) (entries : list pluginEntry)
    (lastErr : option error) : M (option error) :=
  match entries with
  | [] => ret lastErr
  | entry :: rest =>
      err ← invoke HShutdown entry (Plugin.Shutdown (plugin entry) ctx);
      shutdownLoop ctx rest
        (match err with
         | Some err => Some (shutdownError entry err)
         | None => lastErr
         end)
  end.

Definition Shutdown (ctx : GoContext) : M (option error) :=
  entries ← gets (λ s, plugins (pm s));
  lastErr ← shutdownLoop ctx (reverse entries) None;
  setInitialized false;;
  ret lastErr.

Definition List : M (list string) :=
  entries ← gets (λ s, plugins (pm s));
  ret ((λ entry, Plugin.Name (plugin entry)) <$> entries).

Definition Get (name : string) : M (option Plugin.t) :=
  entries ← gets (λ s, plugins (pm s));
  ret (match list_find (hasName name) entries with
       | Some (_, entry) => Some (plugin entry)
       | None => None
       end).

Definition Count : M nat :=
  entries ← gets (λ s, plugins (pm s)); ret (length entries).

Definition SetEnabled (name : string) (enabled : bool) : M (option error) :=
  entries ← gets (λ s, plugins (pm s));
  match list_find (hasName name) entries with
  | Some (i, entry) =>
      match config entry with
      | None =>
          p ← new {| Enabled := enabled; Priority := 100; Config := None |};
          setPlugins (<[i := {| plugin := plugin entry; config := Some p;
                                priority := priority entry |}]> entries);;
          ret None
      | Some p =>
          h ← gets heap;
          setHeap (<[p := {| Enabled := enabled;
                             Priority := Priority (deref h p);
                             Config := Config (deref h p) |}]> h);;
          ret None
      end
  | None => ret (Some (New ("plugin '" +:+ name +:+ "' not found")))
  end.

(** *** Histories *)

(** What can happen to a manager and the cells it shares: its caller
    makes a config cell or writes to one it holds, other code changes
    the world, or one of the manager's operations is called. *)
Inductive Op : Type :=
  | ONew (c : PluginConfig)
  | OStore (p : ptr) (c : PluginConfig)
  | OElsewhere (f : World → World)
  | ORegister (plugin : option Plugin.t) (config : option ptr)
  | OUnregister (name : string)
  | OInitialize (ctx : GoContext)
  | OOnToolCall (ctx : GoContext) (toolName : string) (input : ToolInput.t)
  | OOnMessage (ctx : GoContext) (msg : GoMessage)
  | OOnComplete (ctx : GoContext) (result : GoClaudeResult)
  | OShutdown (ctx : GoContext)
  | OList
  | OGet (name : string)
  | OCount
  | OSetEnabled (name : string) (enabled : bool).

Definition exec (o : Op) : M unit :=
  match o with
  | ONew c => new c;; ret tt
  | OStore p c => h ← gets heap; setHeap (<[p := c]> h)
  | OElsewhere f => λ s,
      (tt, {| pm := pm s; heap := heap s; world := f (world s);
              calls := calls s |})
  | ORegister plugin config => Register plugin config;; ret tt
  | OUnregister name => Unregister name;; ret tt
  | OInitialize ctx => Initialize ctx;; ret tt
  | OOnToolCall ctx toolName input => OnToolCall ctx toolName input;; ret tt
  | OOnMessage ctx msg => OnMessage ctx msg;; ret tt
  | OOnComplete ctx result => OnComplete ctx result;; ret tt
  | OShutdown ctx => Shutdown ctx;; ret tt
  | OList => List;; ret tt
  | OGet name => Get name;; ret tt
  | OCount => Count;; ret tt
  | OSetEnabled name enabled => SetEnabled name enabled;; ret tt
  end.

Fixpoint run (ops : list Op) : M unit :=
  match ops with
  | [] => ret tt
  | o :: ops => exec o;; run ops
  end.

(** [Register] called for each plugin of [regs] in order; [true] if every
    call returned [nil]. *)
Fixpoint registerAll (regs : list (Plugin.t * option ptr)) : M bool :=
  match regs with
  | [] => ret true
  | (plugin, config) :: regs =>
      err ← Register (Some plugin) config;
      ok ← registerAll regs;
      ret (match err with None => ok | Some _ => false end)
  end.

(** A fresh manager, no config cell yet, nothing invoked yet. *)
Definition start (w : World) : State :=
  {| pm := NewPluginManager; heap := []; world := w; calls := [] |}.
End manager.
End plugin.

(** ** The pre-built plugins *)

(** Each pre-built plugin keeps its state in its own struct, behind a
    pointer receiver; a method is modelled by the error it returns, if it
    returns one, and the struct afterwards. *)
Module prebuilt.
Import permissions.

Section prebuilt.
Context `{Payloads}.

Record BasePlugin : Type := {
  PluginName : string;
  PluginVersion : string
}.

(** A [*BasePlugin] as a [Plugin]: the two names, and hooks that do
    nothing and return [nil]. *)
Definition BasePlugin_plugin (bp : BasePlugin) : plugin.Plugin.t :=
  {| plugin.Plugin.Name := PluginName bp;
     plugin.Plugin.Version := PluginVersion bp;
     plugin.Plugin.Initialize := λ _ w, (None, w);
     plugin.Plugin.OnToolCall := λ _ _ _ w, (None, w);
     plugin.Plugin.OnMessage := λ _ _ w, (None, w);
     plugin.Plugin.OnComplete := λ _ _ w, (None, w);
     plugin.Plugin.Shutdown := λ _ w, (None, w) |}.

(** Go's [int] is 64 bits wide here: [x++] wraps around. *)
Definition wrap (z : Z) : Z := ((z + 2 ^ 63) `mod` 2 ^ 64 - 2 ^ 63)%Z.

(** *** ToolFilterPlugin *)

Record ToolFilterPlugin : Type := {
  tfBase : BasePlugin;
  BlockedTools : gmap string string
}.

(** [NewToolFilterPlugin(blockedTools)]; a [nil] map is [None]. *)
Definition NewToolFilterPlugin (blockedTools : option (gmap string string))
    : ToolFilterPlugin :=
  {| tfBase := {| PluginName := "tool-filter"; PluginVersion := "1.0.0" |};
     BlockedTools := default ∅ blockedTools |}.

Definition ToolFilterPlugin_OnToolCall (tfp : ToolFilterPlugin) (ctx : GoContext)
    (toolName : string) (input : ToolInput.t) : option error :=
  match BlockedTools tfp !! toolName with
  | Some reason =>
      let reason := if bool_decide (reason = "") then "tool is blocked"
                    else reason in
      Some (New (toolName +:+ ": " +:+ reason))
  | None => None
  end.

Definition BlockTool (tfp : ToolFilterPlugin) (name reason : string)
    : ToolFilterPlugin :=
  {| tfBase := tfBase tfp; BlockedTools := <[name := reason]> (BlockedTools tfp) |}.

Definition UnblockTool (tfp : ToolFilterPlugin) (name : string) : ToolFilterPlugin :=
  {| tfBase := tfBase tfp; BlockedTools := delete name (BlockedTools tfp) |}.

(** A [*ToolFilterPlugin] as a [Plugin], with the blocked tools it has at
    the time: [OnToolCall] is its own method, the others are promoted from
    the embedded [BasePlugin]. *)
Definition ToolFilterPlugin_plugin (tfp : ToolFilterPlugin) : plugin.Plugin.t :=
  let base := BasePlugin_plugin (tfBase tfp) in
  {| plugin.Plugin.Name := plugin.Plugin.Name base;
     plugin.Plugin.Version := plugin.Plugin.Version base;
     plugin.Plugin.Initialize := plugin.Plugin.Initialize base;
     plugin.Plugin.OnToolCall := λ ctx toolName input w,
       (ToolFilterPlugin_OnToolCall tfp ctx toolName input, w);
     plugin.Plugin.OnMessage := plugin.Plugin.OnMessage base;
     plugin.Plugin.OnComplete := plugin.Plugin.OnComplete base;
     plugin.Plugin.Shutdown := plugin.Plugin.Shutdown base |}.

(** *** AuditPlugin *)

Record AuditRecord : Type := {
  Timestamp : Z;
  ToolName : string;
  Input : RawMap;
  SessionID : string
}.

Record AuditPlugin : Type := {
  apBase : BasePlugin;
  Records : list AuditRecord;
  MaxSize : Z
}.

Definition NewAuditPlugin (maxSize : Z) : AuditPlugin :=
  {| apBase := {| PluginName := "audit"; PluginVersion := "1.0.0" |};
     Records := []; MaxSize := maxSize |}.

(** [AuditPlugin.OnToolCall]; [now] is what [getCurrentTimestamp()]
    returns during the call. *)
Definition AuditPlugin_OnToolCall (ap : AuditPlugin) (now : Z) (ctx : GoContext)
    (toolName : string) (input : ToolInput.t) : option error * AuditPlugin :=
  let record := {| Timestamp := now; ToolName := toolName;
                   Input := ToolInput.Raw input; SessionID := "" |} in
  let records := Records ap ++ [record] in
  let records :=
    if bool_decide (0 < MaxSize ap)%Z
       && bool_decide (MaxSize ap < Z.of_nat (length records))%Z
    then drop (Z.to_nat (Z.of_nat (length records) - MaxSize ap)) records
    else records in
  (None, {| apBase := apBase ap; Records := records; MaxSize := MaxSize ap |}).

Definition GetRecords (ap : AuditPlugin) : list AuditRecord := Records ap.

Definition Clear (ap : AuditPlugin) : AuditPlugin :=
  {| apBase := apBase ap; Records := []; MaxSize := MaxSize ap |}.

(** *** MetricsPlugin: construction, the tool-call and message hooks, reset *)

Record MetricsPlugin : Type := {
  mpBase : BasePlugin;
  ToolCallCount : gmap string Z;
  MessageCount : Z;
  TotalCost : float;
  ExecutionCount : Z
}.

Definition NewMetricsPlugin : MetricsPlugin :=
  {| mpBase := {| PluginName := "metrics"; PluginVersion := "1.0.0" |};
     ToolCallCount := ∅; MessageCount := 0; TotalCost := 0;
     ExecutionCount := 0 |}.

Definition MetricsPlugin_OnToolCall (mp : MetricsPlugin) (ctx : GoContext)
    (toolName : string) (input : ToolInput.t) : option error * MetricsPlugin :=
  (None,
   {| mpBase := mpBase mp;
      ToolCallCount :=
        <[toolName := wrap (default 0%Z (ToolCallCount mp !! toolName) + 1)]>
          (ToolCallCount mp);
      MessageCount := MessageCount mp; TotalCost := TotalCost mp;
      ExecutionCount := ExecutionCount mp |}).

Definition MetricsPlugin_OnMessage (mp : MetricsPlugin) (ctx : GoContext)
    (msg : GoMessage) : option error * MetricsPlugin :=
  (None,
   {| mpBase := mpBase mp; ToolCallCount := ToolCallCount mp;
      MessageCount := wrap (MessageCount mp + 1); TotalCost := TotalCost mp;
      ExecutionCount := ExecutionCount mp |}).

Definition MetricsPlugin_Reset (mp : MetricsPlugin) : MetricsPlugin :=
  {| mpBase := mpBase mp; ToolCallCount := ∅; MessageCount := 0;
     TotalCost := 0; ExecutionCount := 0 |}.
End prebuilt.
End prebuilt.

(** ** The specification's wording, for the refinement statements *)

Module spec.
Import permissions.

Definition bytes (s : string) : list ascii := String.list_ascii_of_string s.

(** "[s] starts with [p]", "[s] ends in [x]" *)
Definition startsWith (s p : string) : Prop := bytes p `prefix_of` bytes s.
Definition endsWith (s x : string) : Prop := bytes x `suffix_of` bytes s.

Global Instance startsWith_dec s p : Decision (startsWith s p).
Proof. unfold startsWith. apply _. Defined.
Global Instance endsWith_dec s x : Decision (endsWith s x).
Proof. unfold endsWith. apply _. Defined.

(** "[s] minus its trailing [n] bytes", "[s] minus its leading [n] bytes" *)
Definition minusTrailing (n : nat) (s : string) : string :=
  String.string_of_list_ascii (take (length (bytes s) - n) (bytes s)).
Definition minusLeading (n : nat) (s : string) : string :=
  String.string_of_list_ascii (drop n (bytes s)).

(** The decision sequence of [MatchesPattern] as the specification words
    it. *)
Definition MatchesPattern (tp : ToolPermission) (path : string) : bool :=
  if decide (Pattern tp = "") then true
  else if decide (Pattern tp = "*") then true
  else if decide (Pattern tp = path) then true
  else if decide (endsWith (Pattern tp) "**")
    then bool_decide (startsWith path (minusTrailing 2 (Pattern tp)))
  else if decide (endsWith (Pattern tp) "*")
    then bool_decide (startsWith path (minusTrailing 1 (Pattern tp)))
  else if decide (startsWith (Pattern tp) "*")
    then bool_decide (endsWith path (minusLeading 1 (Pattern tp)))
  else false.

Section registry.
Context `{Payloads}.
Import plugin.

(** "[effectivePriority]: equal to [priority], or 100 if [priority == 0]";
    "missing config defaults to [{enabled: true, priority: 100}]". *)
Definition effectivePriority (h : list PluginConfig) (config : option ptr) : Z :=
  match config with
  | None => 100
  | Some p => if decide (Priority (deref h p) = 0) then 100 else Priority (deref h p)
  end%Z.

(** What a [Register] call asks for: a name at an effective priority. *)
Definition registration (h : list PluginConfig) (r : Plugin.t * option ptr)
    : string * Z :=
  (Plugin.Name r.1, effectivePriority h r.2).

(** A registered name with its effective priority. *)
Definition key (entry : pluginEntry) : string * Z :=
  (Plugin.Name (plugin entry), priority entry).

(** "Priority order": non-decreasing effective priority. *)
Definition ascending (ks : list (string * Z)) : Prop :=
  StronglySorted (λ a b, (a.2 ≤ b.2)%Z) ks.

(** Non-increasing effective priority. *)
Definition descending (ks : list (string * Z)) : Prop :=
  StronglySorted (λ a b, (b.2 ≤ a.2)%Z) ks.

(** The entries of priority [q], in the order in which they stand. *)
Definition ofPriority (q : Z) (ks : list (string * Z)) : list (string * Z) :=
  filter (λ k, k.2 = q) ks.

(** The names of the entries, in registry order: what [List] returns. *)
Definition registered (entries : list pluginEntry) : list string :=
  (λ entry, Plugin.Name (plugin entry)) <$> entries.

(** The enabled entries, in registry order. *)
Definition enabledEntries (h : list PluginConfig) (entries : list pluginEntry)
    : list pluginEntry :=
  filter (λ entry, disabled h entry = false) entries.

(** The world after the hook [call] of each of [entries] has run in order
    from [w], when each of them returned [nil]. *)
Fixpoint allSucceed (call : Plugin.t → Eff (option error))
    (entries : list pluginEntry) (w : World) : option World :=
  match entries with
  | [] => Some w
  | entry :: rest =>
      match call (plugin entry) w with
      | (None, w') => allSucceed call rest w'
      | (Some _, _) => None
      end
  end.

(** The invocation of hook [h] on [entry], seen when the cells are [cells]. *)
Definition callOf (h : Hook) (cells : list PluginConfig) (entry : pluginEntry)
    : Call :=
  {| callee := Plugin.Name (plugin entry); hook := h;
     enabledAtCall := negb (disabled cells entry) |}.

(** The state [s] after hooks were invoked on [invoked] and left world [w]. *)
Definition after (s : State) (h : Hook) (invoked : list pluginEntry) (w : World)
    : State :=
  {| pm := pm s; heap := heap s; world := w;
     calls := calls s ++ (callOf h (heap s) <$> invoked) |}.

(** [entry] is enabled in state [s]. *)
Definition enabledIn (s : State) (entry : pluginEntry) : Prop :=
  disabled (heap s) entry = false.

(** No hook other than [Shutdown] is invoked on a disabled entry. *)
Definition hookPolicy (c : Call) : Prop :=
  hook c ≠ HShutdown → enabledAtCall c = true.

(** What every history preserves: the registry is in priority order and
    the invocations made so far respect [hookPolicy]. *)
Definition invariant (s : State) : Prop :=
  ascending (key <$> plugins (pm s)) ∧ Forall hookPolicy (calls s).

(** The state [s] with the manager's [initialized] flag set to [b]. *)
Definition withInitialized (b : bool) (s : State) : State :=
  {| pm := {| plugins := plugins (pm s); initialized := b |};
     heap := heap s; world := world s; calls := calls s |}.

(** The contract of a hook fan-out [op] for hook [h]: if the hook succeeds
    on every enabled entry, each of them is invoked once, in registry order,
    and [op] succeeds; if the hook first fails on [entry], the enabled
    entries before it and [entry] itself are invoked, in registry order, no
    entry after it is, and [op] returns the error wrapped with the name of
    [entry]. *)
Definition fansOut (op : M (option error)) (h : Hook)
    (call : Plugin.t → Eff (option error)) (fmt : string → string) : Prop :=
  (∀ s w',
     allSucceed call (enabledEntries (heap s) (plugins (pm s))) (world s) = Some w' →
     op s = (None, after s h (enabledEntries (heap s) (plugins (pm s))) w'))
  ∧ (∀ s before entry later w1 err w2,
       enabledEntries (heap s) (plugins (pm s)) = before ++ entry :: later →
       allSucceed call before (world s) = Some w1 →
       call (plugin entry) w1 = (Some err, w2) →
       op s = (Some (Wrap (fmt (Plugin.Name (plugin entry))) err),
               after s h (before ++ [entry]) w2)).

(** The [Shutdown] hook of each of [entries] run in order from [w]: what
    each returned, and the final world. *)
Fixpoint shutdownAll (ctx : GoContext) (entries : list pluginEntry) (w : World)
    : list (pluginEntry * option error) * World :=
  match entries with
  | [] => ([], w)
  | entry :: rest =>
      let '(err, w1) := Plugin.Shutdown (plugin entry) ctx w in
      let '(outs, w2) := shutdownAll ctx rest w1 in
      ((entry, err) :: outs, w2)
  end.

(** "The last encountered error", wrapped with its plugin's name. *)
Definition lastFailure (outs : list (pluginEntry * option error)) : option error :=
  last (omap (λ out, shutdownError out.1 <$> out.2) outs).
End registry.
End spec.

(** ** Concrete collaborators, for the examples *)

Module demo.
Import permissions plugin.

(** The world is one call counter; the payloads carry nothing. *)
#[local] Instance payloads : Payloads :=
  {| World := nat; GoContext := unit; GoMessage := unit;
     GoClaudeResult := unit; RawMap := unit |}.

Definition input : ToolInput.t :=
  {| ToolInput.Command := "ls"; ToolInput.FilePath := "";
     ToolInput.Pattern := ""; ToolInput.Content := "";
     ToolInput.OldString := ""; ToolInput.NewString := "";
     ToolInput.Raw := tt |}.

(** The input of a [Bash] call, and of a call on a file. *)
Definition bash (command : string) : ToolInput.t :=
  {| ToolInput.Command := command; ToolInput.FilePath := "";
     ToolInput.Pattern := ""; ToolInput.Content := "";
     ToolInput.OldString := ""; ToolInput.NewString := "";
     ToolInput.Raw := tt |}.

Definition file (path : string) : ToolInput.t :=
  {| ToolInput.Command := ""; ToolInput.FilePath := path;
     ToolInput.Pattern := ""; ToolInput.Content := "";
     ToolInput.OldString := ""; ToolInput.NewString := "";
     ToolInput.Raw := tt |}.

(** A callback that counts its calls and answers [result]. *)
Definition counting (result : PermissionResult) : PermissionCallback :=
  λ _ _ _ n, ((result, None), S n).

(** A callback that counts its calls and fails. *)
Definition failing (msg : string) : PermissionCallback :=
  λ _ _ _ n, ((Allow, Some (New msg)), S n).

(** A plugin whose hooks count their calls; the hooks listed in [fails]
    return an error. *)
Definition counter (name : string) (fails : list Hook) : Plugin.t :=
  let run (h : Hook) : Eff (option error) := λ n,
    (if bool_decide (h ∈ fails) then Some (New (name +:+ " failed")) else None,
     S n) in
  {| Plugin.Name := name; Plugin.Version := "1.0.0";
     Plugin.Initialize := λ _, run HInitialize;
     Plugin.OnToolCall := λ _ _ _, run HOnToolCall;
     Plugin.OnMessage := λ _ _, run HOnMessage;
     Plugin.OnComplete := λ _ _, run HOnComplete;
     Plugin.Shutdown := λ _, run HShutdown |}.

(** A budget hook that counts the notifications delivered. *)
Definition notified : budget.Notify := λ _ _ n, (tt, S n).

(** A plugin whose hooks count their calls and whose [Initialize] fails
    until the counter has reached [ready]. *)
Definition flaky (name : string) (ready : nat) : Plugin.t :=
  let run : Eff (option error) := λ n, (None, S n) in
  {| Plugin.Name := name; Plugin.Version := "1.0.0";
     Plugin.Initialize := λ _ n,
       (if bool_decide (n < ready) then Some (New (name +:+ " is not ready"))
        else None, S n);
     Plugin.OnToolCall := λ _ _ _, run;
     Plugin.OnMessage := λ _ _, run;
     Plugin.OnComplete := λ _ _, run;
     Plugin.Shutdown := λ _, run |}.

Definition cfg (enabled : bool) (priority : Z) : PluginConfig :=
  {| Enabled := enabled; Priority := priority; Config := None |}.

(** An enabled plugin A and a disabled plugin B. *)
Definition twoPlugins : State :=
  (run [ONew (cfg true 100); ORegister (Some (counter "A" [])) (Some 0);
        ONew (cfg false 50); ORegister (Some (counter "B" [])) (Some 1)]
       (start 0)).2.

(** A at 100; B at 50, disabled; C at 200, whose [OnToolCall] fails; D at
    300. *)
Definition fourPlugins : State :=
  (run [ONew (cfg true 100); ORegister (Some (counter "A" [])) (Some 0);
        ONew (cfg false 50); ORegister (Some (counter "B" [])) (Some 1);
        ONew (cfg true 200); ORegister (Some (counter "C" [HOnToolCall])) (Some 2);
        ONew (cfg true 300); ORegister (Some (counter "D" [])) (Some 3)]
       (start 0)).2.

(** A at 50 and B at 100, disabled, whose [Shutdown] fails; the manager
    has been initialized. *)
Definition initializedPair : State :=
  (run [ONew (cfg true 50); ORegister (Some (counter "A" [])) (Some 0);
        ONew (cfg false 100); ORegister (Some (counter "B" [HShutdown])) (Some 1);
        OInitialize tt]
       (start 0)).2.

(** A tool filter that blocks [Bash] without a stated reason. *)
Definition bashFilter : prebuilt.ToolFilterPlugin :=
  prebuilt.NewToolFilterPlugin (Some {["Bash" := EmptyString]}).

(** A at 50, the tool filter at 100, D at 300. *)
Definition filtered : State :=
  (run [ONew (cfg true 50); ORegister (Some (counter "A" [])) (Some 0);
        ONew (cfg true 100);
        ORegister (Some (prebuilt.ToolFilterPlugin_plugin bashFilter)) (Some 1);
        ONew (cfg true 300); ORegister (Some (counter "D" [])) (Some 2)]
       (start 0)).2.

(** A at 50 and F at 100, whose [Initialize] succeeds from the third call
    of a hook on. *)
Definition flakyPair : State :=
  (run [ONew (cfg true 50); ORegister (Some (counter "A" [])) (Some 0);
        ONew (cfg true 100); ORegister (Some (flaky "F" 2)) (Some 1)]
       (start 0)).2.
End demo.

(** * Proofs *)

(** ** Facts about the string functions *)

Module strings_facts.
Import strings spec.

Lemma bytes_inj s1 s2 : bytes s1 = bytes s2 → s1 = s2.
Proof.
  intros E. rewrite <- (String.string_of_list_ascii_of_string s1),
    <- (String.string_of_list_ascii_of_string s2).
  unfold bytes in E. by rewrite E.
Qed.

Lemma bytes_length s : length (bytes s) = String.length s.
Proof. induction s; simpl; auto. Qed.

Lemma bytes_app s1 s2 : bytes (s1 +:+ s2) = bytes s1 ++ bytes s2.
Proof. induction s1; simpl; [done|]. by f_equal. Qed.

Lemma bytes_substring s : ∀ i n,
  bytes (String.substring i n s) = take n (drop i (bytes s)).
Proof.
  induction s as [|c s IH]; intros [|i] [|n]; simpl; try done;
    try f_equal; apply IH.
Qed.

Lemma bytes_slice s i j : bytes (slice s i j) = take (j - i) (drop i (bytes s)).
Proof. apply bytes_substring. Qed.

Lemma prefix_take_iff {A} (p l : list A) :
  p `prefix_of` l ↔ length p ≤ length l ∧ take (length p) l = p.
Proof.
  split.
  - intros [k ->]. rewrite length_app, take_app_length. split; [lia|done].
  - intros [_ E]. rewrite <- E. apply prefix_take.
Qed.

Lemma suffix_drop_iff {A} (x l : list A) :
  x `suffix_of` l ↔ length x ≤ length l ∧ drop (length l - length x) l = x.
Proof.
  split.
  - intros [k ->]. rewrite length_app. split; [lia|].
    replace (length k + length x - length x) with (length k) by lia.
    by rewrite drop_app_length.
  - intros [_ E]. rewrite <- E at 1. apply suffix_drop.
Qed.

Lemma HasPrefix_startsWith s p : HasPrefix s p = bool_decide (startsWith s p).
Proof.
  unfold HasPrefix, startsWith. rewrite <- bool_decide_and.
  apply bool_decide_ext. rewrite prefix_take_iff, !bytes_length.
  split; intros [Hl E]; (split; [done|]).
  - rewrite <- E at 2. rewrite bytes_slice, drop_0. f_equal. lia.
  - apply bytes_inj. rewrite bytes_slice, drop_0, <- E at 1. f_equal. lia.
Qed.

Lemma HasSuffix_endsWith s x : HasSuffix s x = bool_decide (endsWith s x).
Proof.
  unfold HasSuffix, endsWith. rewrite <- bool_decide_and.
  apply bool_decide_ext. rewrite suffix_drop_iff, !bytes_length.
  assert (∀ l : list ascii,
    take (String.length s - (String.length s - String.length x))
         (drop (String.length s - String.length x) l)
    = drop (String.length s - String.length x) l
    ∨ length l ≠ String.length s) as T.
  { intros l. destruct (decide (length l = String.length s)); [left|by right].
    apply take_ge. rewrite length_drop. lia. }
  destruct (T (bytes s)) as [T'|T']; [|by rewrite bytes_length in T'].
  split; intros [Hl E]; (split; [done|]).
  - rewrite <- E at 2. by rewrite bytes_slice.
  - apply bytes_inj. by rewrite bytes_slice, T'.
Qed.

Lemma TrimSuffix_minusTrailing s x :
  HasSuffix s x = true → TrimSuffix s x = minusTrailing (String.length x) s.
Proof.
  intros E. unfold TrimSuffix, minusTrailing. rewrite E.
  apply bytes_inj. unfold bytes at 3.
  rewrite String.list_ascii_of_string_of_list_ascii, bytes_slice, drop_0.
  rewrite bytes_length. f_equal. lia.
Qed.

Lemma TrimPrefix_minusLeading s p :
  HasPrefix s p = true → TrimPrefix s p = minusLeading (String.length p) s.
Proof.
  intros E. unfold TrimPrefix, minusLeading. rewrite E.
  apply bytes_inj. unfold bytes at 3.
  rewrite String.list_ascii_of_string_of_list_ascii, bytes_slice.
  apply take_ge. rewrite length_drop, bytes_length. lia.
Qed.

(** [HasPrefix] and [HasSuffix] in terms of concatenation. *)
Lemma HasPrefix_app s p : HasPrefix s p = true ↔ ∃ r, s = p +:+ r.
Proof.
  rewrite HasPrefix_startsWith, bool_decide_eq_true. unfold startsWith.
  split.
  - intros [k E]. exists (String.string_of_list_ascii k). apply bytes_inj.
    rewrite bytes_app. unfold bytes at 3.
    by rewrite String.list_ascii_of_string_of_list_ascii.
  - intros [r ->]. exists (bytes r). apply bytes_app.
Qed.

Lemma HasSuffix_app s x : HasSuffix s x = true ↔ ∃ r, s = r +:+ x.
Proof.
  rewrite HasSuffix_endsWith, bool_decide_eq_true. unfold endsWith.
  split.
  - intros [k E]. exists (String.string_of_list_ascii k). apply bytes_inj.
    rewrite bytes_app. unfold bytes at 2.
    by rewrite String.list_ascii_of_string_of_list_ascii.
  - intros [r ->]. exists (bytes r). apply bytes_app.
Qed.
End strings_facts.

(** ** The regular expression of [ParseToolPermission] *)

Module regexp_facts.
Import regexp.

Definition stops (f : ascii → bool) (b : string) : Prop :=
  match b with String c _ => f c = false | EmptyString => True end.

Definition all (f : ascii → bool) (a : string) : Prop :=
  ∀ c, c ∈ String.list_ascii_of_string a → f c = true.

Lemma all_cons f c a : all f (String c a) ↔ f c = true ∧ all f a.
Proof.
  unfold all. simpl. split.
  - intros Hc. split; [apply Hc; left|intros c' ?; apply Hc; by right].
  - intros [Hc Ha] c' [->|?]%elem_of_cons; auto.
Qed.

Lemma span_sound f s :
  s = (span f s).1 +:+ (span f s).2 ∧ all f (span f s).1 ∧ stops f (span f s).2.
Proof.
  induction s as [|c s (E & Ha & Hb)]; simpl.
  - split_and!; [done| |done]. by intros c ?%elem_of_nil.
  - destruct (f c) eqn:Hc.
    + destruct (span f s) as [a b]. simpl in *.
      split_and!; [by rewrite E at 1| |done]. by apply all_cons.
    + simpl. split_and!; [done| |done]. by intros c' ?%elem_of_nil.
Qed.

Lemma span_complete f a b : all f a → stops f b → span f (a +:+ b) = (a, b).
Proof.
  intros Ha Hb. induction a as [|c a IH].
  - destruct b as [|c b]; [done|]. simpl in *. by rewrite Hb.
  - apply all_cons in Ha as [Hc Ha]. simpl. rewrite Hc.
    change (span f (a +:+ b)) with (span f (a +:+ b)). by rewrite (IH Ha).
Qed.

(** [span] splits its argument, keeps only bytes satisfying [f], and stops
    at the end or at a byte that fails [f]. *)
Lemma span_spec f s a b :
  span f s = (a, b) ↔ s = a +:+ b ∧ all f a ∧ stops f b.
Proof.
  split.
  - intros E. pose proof (span_sound f s) as Hs. by rewrite E in Hs.
  - intros (-> & Ha & Hb). by apply span_complete.
Qed.

Lemma expect_Some c s r : expect c s = Some r ↔ s = String c r.
Proof.
  destruct s as [|c' s]; simpl; [done|]. case_bool_decide; naive_solver.
Qed.

Lemma stops_paren : ∀ r, stops notParen (String "(" r).
Proof. done. Qed.

Lemma stops_close : ∀ r, stops notColonParen (String ")" r).
Proof. done. Qed.

Lemma stops_colon : ∀ r, stops notColonParen (String ":" r).
Proof. done. Qed.

Lemma all_notParen g :
  all notParen g ↔ ∀ c, c ∈ String.list_ascii_of_string g → c ≠ "("%char.
Proof.
  unfold all, notParen. by setoid_rewrite bool_decide_eq_true.
Qed.

Lemma all_notColonParen g :
  all notColonParen g
  ↔ ∀ c, c ∈ String.list_ascii_of_string g → c ≠ ":"%char ∧ c ≠ ")"%char.
Proof.
  unfold all, notColonParen. by setoid_rewrite bool_decide_eq_true.
Qed.

(** The matcher finds exactly the matches of the expression, and the
    groups of a match are unique. *)
Lemma groups_spec s g1 g2 g3 :
  groups s = Some (g1, g2, g3) ↔ matches s g1 g2 g3.
Proof.
  unfold groups, matches.
  rewrite <- all_notParen, <- !all_notColonParen. split.
  - destruct (span notParen s) as [a r1] eqn:E1.
    apply span_spec in E1 as (-> & A1 & S1).
    case_bool_decide as N1; [done|].
    destruct (expect "(" r1) as [r2|] eqn:X1; [|done]. simpl.
    apply expect_Some in X1 as ->.
    destruct (span notColonParen r2) as [b r3] eqn:E2.
    apply span_spec in E2 as (-> & A2 & S2).
    case_bool_decide as N2; [done|].
    destruct (expect ":" r3) as [r4|] eqn:X2.
    + apply expect_Some in X2 as ->.
      destruct (span notColonParen r4) as [c r5] eqn:E3.
      apply span_spec in E3 as (-> & A3 & S3).
      case_bool_decide as N3; [done|].
      case_bool_decide as C; [|done]. subst r5.
      intros [= <- <- <-]. rewrite bool_decide_false by done. done.
    + case_bool_decide as C; [|done]. subst r3.
      intros [= <- <- <-]. split_and!; try done.
      by intros c ?%elem_of_nil.
  - intros (N1 & N2 & A1 & A2 & A3 & ->).
    assert (∀ c a b, String c a +:+ b = String c (a +:+ b)) as Hcons by done.
    assert (∀ b, "" +:+ b = b) as Hnil by done.
    rewrite (span_complete notParen g1) by (done || apply stops_paren).
    rewrite bool_decide_false by done. simpl.
    case_bool_decide as N3.
    + subst g3. rewrite Hnil.
      rewrite (span_complete notColonParen g2) by (done || apply stops_close).
      rewrite bool_decide_false by done. done.
    + rewrite Hcons, Hnil.
      rewrite (span_complete notColonParen g2) by (done || apply stops_colon).
      rewrite bool_decide_false by done. simpl.
      rewrite (span_complete notColonParen g3) by (done || apply stops_close).
      rewrite bool_decide_false by done. done.
Qed.
End regexp_facts.

(** ** permissions.go: parsing and matching *)

Module permissions_proofs.
Import strings spec permissions strings_facts.

Lemma Contains_byte c s :
  Contains s (String c "") = true ↔ c ∈ bytes s.
Proof.
  induction s as [|a s IH].
  - change (Contains "" (String c "")) with (HasPrefix "" (String c "") || false).
    rewrite orb_false_r, HasPrefix_app. split; [by intros [r [=]]|].
    by intros ?%elem_of_nil.
  - change (Contains (String a s) (String c ""))
      with (HasPrefix (String a s) (String c "") || Contains s (String c "")).
    rewrite orb_true_iff, IH, HasPrefix_app. simpl. rewrite elem_of_cons. split.
    + intros [[r [= -> _]]|?]; auto.
    + intros [->|?]; [left; by exists s|by right].
Qed.

(** C3, at the input on which it fails: a string of white space is in
    legacy form and non-empty, so it is accepted, and trimming leaves an
    empty tool name. *)
Theorem ParseToolPermission_blank :
  ParseToolPermission " "
  = Ok {| Tool := ""; Command := ""; Pattern := ""; Original := " " |}.
Proof. reflexivity. Qed.

(** The enhanced form does check what the legacy form leaves out: a
    permission with a parenthesis that parses has a tool name. *)
Lemma ParseToolPermission_enhanced_Tool s tp :
  "("%char ∈ bytes s → ParseToolPermission s = Ok tp → Tool tp ≠ "".
Proof.
  intros Hp%Contains_byte. unfold ParseToolPermission. rewrite Hp. simpl.
  repeat case_bool_decide; try done; by intros [= <-].
Qed.

(** C4: the four examples of the specification, and the legacy form:
    every non-empty string without ['('] parses, to the trimmed string as
    tool name and no constraint. *)
Theorem ParseToolPermission_forms :
  ParseToolPermission "Bash(git log:*)"
  = Ok {| Tool := "Bash"; Command := "git log"; Pattern := "*";
          Original := "Bash(git log:*)" |}
  ∧ (∃ e, ParseToolPermission "Bash()" = Err e)
  ∧ (∃ e, ParseToolPermission "" = Err e)
  ∧ (∃ e, ParseToolPermission "Bash(a:b:c)" = Err e)
  ∧ (∀ s, s ≠ "" → "("%char ∉ bytes s →
       ParseToolPermission s
       = Ok {| Tool := TrimSpace s; Command := ""; Pattern := "";
               Original := s |}).
Proof.
  split_and!; [reflexivity|by eexists..|].
  intros s Hs Hp. unfold ParseToolPermission.
  rewrite bool_decide_false by done.
  destruct (Contains s "(") eqn:E; [|done].
  by apply Contains_byte in E.
Qed.

Lemma ParseToolPermission_forms_witness :
  ("mcp__server__tool" ≠ "") ∧ ("("%char ∉ bytes "mcp__server__tool")
  ∧ ParseToolPermission "mcp__server__tool"
    = Ok {| Tool := "mcp__server__tool"; Command := ""; Pattern := "";
            Original := "mcp__server__tool" |}.
Proof.
  assert ("mcp__server__tool" ≠ "") as H1 by done.
  assert ("("%char ∉ bytes "mcp__server__tool") as H2
    by (apply (bool_decide_eq_true_1 _); reflexivity).
  split_and!; [done..|].
  exact (proj2 (proj2 (proj2 (proj2 ParseToolPermission_forms))) _ H1 H2).
Defined.

(** C5: [MatchesPattern] takes the decisions of the specification in the
    specification's order, and the four examples. *)
Theorem MatchesPattern_decisions :
  (∀ tp path, permissions.MatchesPattern tp path = spec.MatchesPattern tp path)
  ∧ (∀ tool command original,
       let tp pattern := {| Tool := tool; Command := command;
                            Pattern := pattern; Original := original |} in
       permissions.MatchesPattern (tp "src/**") "src/file.go" = true
       ∧ permissions.MatchesPattern (tp "src/**") "test/file.go" = false
       ∧ permissions.MatchesPattern (tp "*.go") "main.go" = true
       ∧ permissions.MatchesPattern (tp "*.go") "main.js" = false).
Proof.
  split; [|done].
  intros tp path. unfold permissions.MatchesPattern, spec.MatchesPattern, HasPattern.
  destruct (decide (Pattern tp = "")) as [E|N];
    [by rewrite (bool_decide_true _ E)|rewrite (bool_decide_false _ N); simpl].
  destruct (decide (Pattern tp = "*")) as [E|N1];
    [by rewrite (bool_decide_true _ E)|rewrite (bool_decide_false _ N1)].
  destruct (decide (Pattern tp = path)) as [E|N2];
    [by rewrite (bool_decide_true _ E)|rewrite (bool_decide_false _ N2)].
  destruct (decide (endsWith (Pattern tp) "**")) as [E|N3].
  { assert (HasSuffix (Pattern tp) "**" = true) as E'
      by (by rewrite HasSuffix_endsWith, bool_decide_true).
    rewrite E', (TrimSuffix_minusTrailing _ _ E'). apply HasPrefix_startsWith. }
  rewrite HasSuffix_endsWith, (bool_decide_false _ N3).
  destruct (decide (endsWith (Pattern tp) "*")) as [E|N4].
  { assert (HasSuffix (Pattern tp) "*" = true) as E'
      by (by rewrite HasSuffix_endsWith, bool_decide_true).
    rewrite E', (TrimSuffix_minusTrailing _ _ E'). apply HasPrefix_startsWith. }
  rewrite HasSuffix_endsWith, (bool_decide_false _ N4).
  destruct (decide (startsWith (Pattern tp) "*")) as [E|N5].
  { assert (HasPrefix (Pattern tp) "*" = true) as E'
      by (by rewrite HasPrefix_startsWith, bool_decide_true).
    rewrite E', (TrimPrefix_minusLeading _ _ E'). apply HasSuffix_endsWith. }
  by rewrite HasPrefix_startsWith, (bool_decide_false _ N5).
Qed.

(** *** Callback composition *)

Section chain.
Context `{Payloads}.
Implicit Types (cbs pre post : list (option PermissionCallback)).

Lemma chain_app pre post ctx toolName input w w1 :
  allAllow pre ctx toolName input w = Some w1 →
  chain (pre ++ post) ctx toolName input w = chain post ctx toolName input w1.
Proof.
  revert w. induction pre as [|[cb|] pre IH]; intros w Hpre; simpl in *.
  - by injection Hpre as ->.
  - destruct (cb ctx toolName input w) as [[result [e|]] w']; [done|].
    case_bool_decide; [|done]. simpl. by apply IH.
  - by apply IH.
Qed.

Lemma chain_allow cbs ctx toolName input w r w' :
  chain cbs ctx toolName input w = ((r, None), w') →
  Behavior r = PermissionAllow →
  allAllow cbs ctx toolName input w = Some w' ∧ r = Allow.
Proof.
  revert w. induction cbs as [|[cb|] cbs IH]; intros w Hc Hr; simpl in *.
  - by injection Hc as <- <-.
  - destruct (cb ctx toolName input w) as [[result [e|]] w1]; [done|].
    case_bool_decide as Hb; simpl in *; [by apply IH|].
    injection Hc as <- <-. done.
  - by apply IH.
Qed.

(** C6: the chain runs its non-nil callbacks in order.  After a prefix
    whose callbacks all allowed, an error of the next callback is the
    chain's error, with the zero result; a result of it that is not
    [allow] is the chain's result; in both cases the outcome and the
    world are those left by that callback, whatever callbacks follow.
    If all callbacks allow, the chain allows, and the chain allows only
    then.  A denying callback followed by any other callback gives the
    denial and the world the denying callback left. *)
Theorem ChainCallbacks_first_dissent ctx toolName input :
  (∀ pre cb post w w1 result e w2,
     allAllow pre ctx toolName input w = Some w1 →
     cb ctx toolName input w1 = ((result, Some e), w2) →
     ChainCallbacks (pre ++ Some cb :: post) ctx toolName input w
     = (({| Behavior := ""; Message := "" |}, Some e), w2))
  ∧ (∀ pre cb post w w1 result w2,
       allAllow pre ctx toolName input w = Some w1 →
       cb ctx toolName input w1 = ((result, None), w2) →
       Behavior result ≠ PermissionAllow →
       ChainCallbacks (pre ++ Some cb :: post) ctx toolName input w
       = ((result, None), w2))
  ∧ (∀ cbs w w',
       allAllow cbs ctx toolName input w = Some w' →
       ChainCallbacks cbs ctx toolName input w = ((Allow, None), w'))
  ∧ (∀ cbs w result w',
       ChainCallbacks cbs ctx toolName input w = ((result, None), w') →
       Behavior result = PermissionAllow →
       allAllow cbs ctx toolName input w = Some w')
  ∧ (∀ denyFn allowFn message w w',
       denyFn ctx toolName input w = ((Deny message, None), w') →
       ChainCallbacks [Some denyFn; Some allowFn] ctx toolName input w
       = ((Deny message, None), w')).
Proof.
  unfold ChainCallbacks. split_and!.
  - intros pre cb post w w1 result e w2 Hpre Hcb.
    rewrite (chain_app _ _ _ _ _ _ _ Hpre). simpl. by rewrite Hcb.
  - intros pre cb post w w1 result w2 Hpre Hcb Hb.
    rewrite (chain_app _ _ _ _ _ _ _ Hpre). simpl. rewrite Hcb.
    by rewrite bool_decide_false.
  - intros cbs w w' Hall.
    rewrite <- (app_nil_r cbs). by rewrite (chain_app _ _ _ _ _ _ _ Hall).
  - intros cbs w result w' Hc Hr. by apply (chain_allow _ _ _ _ _ _ _ Hc).
  - intros denyFn allowFn message w w' Hd. simpl. by rewrite Hd.
Qed.
End chain.

(** A denial, then a callback that would count its call: the counter stays
    at 0.  Two allowing callbacks: both are counted.  A failing callback
    after an allowing one: the failure, and the third is not counted. *)
Lemma ChainCallbacks_first_dissent_witness :
  ChainCallbacks [Some (λ _ _ _ n, ((Deny "no", None), n));
                  Some (demo.counting Allow)] tt "Bash" demo.input 0
  = ((Deny "no", None), 0)
  ∧ ChainCallbacks [Some (demo.counting Allow); None; Some (demo.counting Allow)]
      tt "Bash" demo.input 0
    = ((Allow, None), 2)
  ∧ ChainCallbacks ([Some (demo.counting Allow)] ++ Some (demo.failing "boom")
                      :: [Some (demo.counting Allow)]) tt "Bash" demo.input 0
    = (({| Behavior := ""; Message := "" |}, Some (New "boom")), 2)
  ∧ ChainCallbacks ([Some (demo.counting Allow)] ++ Some (demo.counting (Ask "sure?"))
                      :: [Some (demo.counting Allow)]) tt "Bash" demo.input 0
    = ((Ask "sure?", None), 2)
  ∧ allAllow [Some (demo.counting Allow); None; Some (demo.counting Allow)]
      tt "Bash" demo.input 0 = Some 2.
Proof.
  pose proof (@ChainCallbacks_first_dissent demo.payloads tt "Bash" demo.input)
    as (Herr & Hdissent & Hallow & Honly & Hdeny).
  assert (allAllow [Some (demo.counting Allow); None; Some (demo.counting Allow)]
            tt "Bash" demo.input 0 = Some 2) as Hall by reflexivity.
  split_and!.
  - apply Hdeny. reflexivity.
  - apply Hallow. exact Hall.
  - apply (Herr _ _ _ 0 1 Allow); reflexivity.
  - apply (Hdissent _ _ _ 0 1); [reflexivity..|discriminate].
  - apply (Honly _ _ Allow); [apply Hallow; exact Hall|reflexivity].
Defined.
End permissions_proofs.

(** ** The budget tracker *)

Module budget_proofs.
Import budget.

Section tracker.
Context `{Payloads}.

Lemma AddSpend_tracker bt sessionID amount :
  totalSpent (AddSpend bt sessionID amount).1.2
  = (totalSpent bt + amount)%float
  ∧ sessionSpent (AddSpend bt sessionID amount).1.2
    = <[sessionID := (SessionSpent bt sessionID + amount)%float]>
        (sessionSpent bt).
Proof. unfold AddSpend. by case_match. Qed.

(** C7: [AddSpend] adds the amount to the global total and to the
    session's total, leaves the other sessions alone, and keeps both
    additions whatever it returns; it returns [ErrBudgetExceeded] exactly
    when the configured maximum is positive and the new global total is
    strictly greater, and no error otherwise.  With a maximum of 10,
    whatever the threshold and the hooks: spending 5 succeeds, spending
    6 more is refused with the total at 11 and nothing remaining, and
    resetting the session brings the totals back to 0. *)
Theorem AddSpend_records_and_reports :
  (∀ bt sessionID amount,
     let out := AddSpend bt sessionID amount in
     TotalSpent out.1.2 = (TotalSpent bt + amount)%float
     ∧ SessionSpent out.1.2 sessionID
       = (SessionSpent bt sessionID + amount)%float
     ∧ (∀ other, other ≠ sessionID →
          SessionSpent out.1.2 other = SessionSpent bt other)
     ∧ (out.1.1 = Some ErrBudgetExceeded ↔
          PrimFloat.ltb 0 (MaxBudgetUSD (config bt)) = true
          ∧ PrimFloat.ltb (MaxBudgetUSD (config bt)) (TotalSpent out.1.2) = true)
     ∧ (out.1.1 = None ∨ out.1.1 = Some ErrBudgetExceeded))
  ∧ (∀ threshold onWarning onExceeded,
       let bt0 := NewBudgetTracker
                    (Some {| MaxBudgetUSD := 10; WarningThreshold := threshold;
                             OnBudgetWarning := onWarning;
                             OnBudgetExceeded := onExceeded |}) in
       let out1 := AddSpend bt0 "s1" 5 in
       let out2 := AddSpend out1.1.2 "s1" 6 in
       let bt3 := ResetSession out2.1.2 "s1" in
       out1.1.1 = None
       ∧ out2.1.1 = Some ErrBudgetExceeded
       ∧ TotalSpent out2.1.2 = 11%float
       ∧ SessionSpent out2.1.2 "s1" = 11%float
       ∧ RemainingBudget out2.1.2 = 0%float
       ∧ TotalSpent bt3 = 0%float
       ∧ SessionSpent bt3 "s1" = 0%float).
Proof.
  split.
  - intros bt sessionID amount out.
    destruct (AddSpend_tracker bt sessionID amount) as [Ht Hs].
    fold out in Ht, Hs. unfold TotalSpent, SessionSpent at 1 3.
    rewrite Ht, Hs. split_and!.
    + done.
    + by rewrite lookup_insert_eq.
    + intros other Hne. by rewrite lookup_insert_ne.
    + subst out. unfold AddSpend.
      destruct (PrimFloat.ltb 0 (MaxBudgetUSD (config bt))); simpl;
        [|intuition discriminate].
      destruct (PrimFloat.ltb _ _); simpl; intuition discriminate.
    + subst out. unfold AddSpend. case_match; auto.
  - intros threshold onWarning onExceeded. cbv zeta.
    split_and!; reflexivity.
Qed.
End tracker.

(** A tracker with a maximum of 10 and no hooks: spending 5 on session
    [s1] leaves session [s2] alone, and spending 6 more is refused. *)
Lemma AddSpend_records_and_reports_witness :
  let bt0 := @NewBudgetTracker demo.payloads
               (Some {| MaxBudgetUSD := 10; WarningThreshold := 0;
                        OnBudgetWarning := None; OnBudgetExceeded := None |}) in
  let bt1 := (AddSpend bt0 "s1" 5).1.2 in
  "s2" ≠ "s1"
  ∧ SessionSpent bt1 "s2" = SessionSpent bt0 "s2"
  ∧ TotalSpent bt1 = 5%float
  ∧ (AddSpend bt1 "s1" 6).1.1 = Some ErrBudgetExceeded
  ∧ TotalSpent (ResetSession (AddSpend bt1 "s1" 6).1.2 "s1") = 0%float.
Proof.
  intros bt0 bt1.
  destruct (@AddSpend_records_and_reports demo.payloads) as [Hgen Hex].
  destruct (Hgen bt0 "s1" 5%float) as (Ht & _ & Hother & _ & _).
  destruct (Hex 0%float None None) as (_ & Herr & _ & _ & _ & Hreset & _).
  assert ("s2" ≠ "s1") as Hne by discriminate.
  split_and!; [exact Hne|exact (Hother "s2" Hne)|exact Ht|exact Herr|exact Hreset].
Defined.
End budget_proofs.

(** ** The plugin manager *)

Module plugin_proofs.
Import permissions plugin spec.

Section fanout.
Context `{Payloads}.
Implicit Types (s : State) (entries before later : list pluginEntry).
Implicit Types (call : Plugin.t → Eff (option error)).

Lemma after_nil s h : after s h [] (world s) = s.
Proof. destruct s. unfold after. simpl. by rewrite app_nil_r. Qed.

Lemma after_cons s h entry rest w1 w' :
  after (after s h [entry] w1) h rest w' = after s h (entry :: rest) w'.
Proof. unfold after. simpl. by rewrite <- app_assoc. Qed.

Lemma rangeEnabled_skip h call fmt entry rest s :
  disabled (heap s) entry = true →
  rangeEnabled h call fmt (entry :: rest) s = rangeEnabled h call fmt rest s.
Proof. intros D. simpl. unfold bind, gets. by rewrite D. Qed.

Lemma rangeEnabled_step h call fmt entry rest s :
  enabledIn s entry →
  rangeEnabled h call fmt (entry :: rest) s
  = match call (plugin entry) (world s) with
    | (Some err, w1) =>
        (Some (Wrap (fmt (Plugin.Name (plugin entry))) err), after s h [entry] w1)
    | (None, w1) => rangeEnabled h call fmt rest (after s h [entry] w1)
    end.
Proof.
  intros D. simpl. unfold bind, gets, invoke, after, callOf. simpl.
  rewrite !D. by destruct (call (plugin entry) (world s)) as [[err|] w1].
Qed.

(** The loop skips exactly the disabled entries. *)
Lemma rangeEnabled_filter h call fmt entries s :
  rangeEnabled h call fmt entries s
  = rangeEnabled h call fmt (enabledEntries (heap s) entries) s.
Proof.
  revert s. induction entries as [|entry rest IH]; intros s; [reflexivity|].
  unfold enabledEntries in *.
  destruct (disabled (heap s) entry) eqn:D.
  - rewrite filter_cons_False by (by rewrite D).
    rewrite rangeEnabled_skip by done. apply IH.
  - rewrite filter_cons_True by done. rewrite !rangeEnabled_step by done.
    destruct (call (plugin entry) (world s)) as [[err|] w1]; [done|].
    exact (IH (after s h [entry] w1)).
Qed.

Lemma rangeEnabled_ok h call fmt entries : ∀ s w',
  Forall (enabledIn s) entries →
  allSucceed call entries (world s) = Some w' →
  rangeEnabled h call fmt entries s = (None, after s h entries w').
Proof.
  induction entries as [|entry rest IH]; intros s w' Hen Hall.
  - injection Hall as <-. by rewrite after_nil.
  - apply Forall_cons in Hen as [D Hen]. rewrite rangeEnabled_step by done.
    simpl in Hall.
    destruct (call (plugin entry) (world s)) as [[err|] w1]; [done|].
    rewrite <- (after_cons s h entry rest w1 w'). by apply IH.
Qed.

Lemma rangeEnabled_fail h call fmt before : ∀ s entry later w1 err w2,
  Forall (enabledIn s) (before ++ entry :: later) →
  allSucceed call before (world s) = Some w1 →
  call (plugin entry) w1 = (Some err, w2) →
  rangeEnabled h call fmt (before ++ entry :: later) s
  = (Some (Wrap (fmt (Plugin.Name (plugin entry))) err),
     after s h (before ++ [entry]) w2).
Proof.
  induction before as [|e0 before IH]; intros s entry later w1 err w2 Hen Hall Hf;
    simpl in Hen, Hall; apply Forall_cons in Hen as [D Hen].
  - injection Hall as <-. change ([] ++ entry :: later) with (entry :: later).
    rewrite rangeEnabled_step by done. by rewrite Hf.
  - change ((e0 :: before) ++ entry :: later) with (e0 :: (before ++ entry :: later)).
    rewrite rangeEnabled_step by done.
    destruct (call (plugin e0) (world s)) as [[e|] w0]; [done|].
    change ((e0 :: before) ++ [entry]) with (e0 :: (before ++ [entry])).
    rewrite <- (after_cons s h e0 (before ++ [entry]) w0 w2). by apply (IH _ _ _ w1).
Qed.

(** Either every hook succeeds, or there is a first one that fails. *)
Lemma allSucceed_or_first_failure call entries : ∀ w,
  (∃ w', allSucceed call entries w = Some w')
  ∨ (∃ before entry later w1 err w2,
       entries = before ++ entry :: later
       ∧ allSucceed call before w = Some w1
       ∧ call (plugin entry) w1 = (Some err, w2)).
Proof.
  induction entries as [|e0 rest IH]; intros w; simpl.
  - left. by eexists.
  - destruct (call (plugin e0) w) as [[err|] w0] eqn:E.
    + right. by exists [], e0, rest, w, err, w0.
    + destruct (IH w0) as [[w' Hw']|(before & entry & later & w1 & err & w2 & -> & Hb & Hf)].
      * left. by exists w'.
      * right. exists (e0 :: before), entry, later, w1, err, w2.
        split_and!; [done| |done]. simpl. by rewrite E.
Qed.

Lemma Forall_enabledEntries s entries :
  Forall (enabledIn s) (enabledEntries (heap s) entries).
Proof. apply Forall_forall. by intros e [? _]%list_elem_of_filter. Qed.

(** Each of the four loops over the enabled entries meets the fan-out
    contract. *)
Lemma rangeEnabled_fansOut h call fmt :
  fansOut (bind (gets (λ s, plugins (pm s))) (rangeEnabled h call fmt)) h call fmt.
Proof.
  split.
  - intros s w' Hall. unfold bind, gets. rewrite rangeEnabled_filter.
    apply rangeEnabled_ok; [apply Forall_enabledEntries|done].
  - intros s before entry later w1 err w2 Hdec Hall Hf. unfold bind, gets.
    rewrite rangeEnabled_filter, Hdec. apply (rangeEnabled_fail _ _ _ _ _ _ _ w1); try done.
    rewrite <- Hdec. apply Forall_enabledEntries.
Qed.

(** A loop that returned [nil] invoked every enabled entry. *)
Lemma rangeEnabled_None h call fmt entries s s' :
  rangeEnabled h call fmt entries s = (None, s') →
  ∃ w', allSucceed call (enabledEntries (heap s) entries) (world s) = Some w'
        ∧ s' = after s h (enabledEntries (heap s) entries) w'.
Proof.
  rewrite rangeEnabled_filter. intros Hr.
  destruct (allSucceed_or_first_failure call (enabledEntries (heap s) entries) (world s))
    as [[w' Hw']|(before & entry & later & w1 & err & w2 & Hdec & Hb & Hf)].
  - rewrite (rangeEnabled_ok _ _ _ _ _ w') in Hr;
      [|apply Forall_enabledEntries|done].
    injection Hr as <-. by exists w'.
  - rewrite Hdec, (rangeEnabled_fail _ _ _ _ _ _ _ w1 err w2) in Hr; try done.
    rewrite <- Hdec. apply Forall_enabledEntries.
Qed.
End fanout.

(** *** The registry stays in priority order *)

Section order.
Context `{Payloads}.
Implicit Types (s : State) (entry : pluginEntry) (entries : list pluginEntry).

Lemma insertEntry_split entry entries :
  ∃ l1 l2, entries = l1 ++ l2
    ∧ insertEntry entry entries = l1 ++ entry :: l2
    ∧ (∀ x, x ∈ l1 → (priority x ≤ priority entry)%Z)
    ∧ (∀ x, head l2 = Some x → (priority entry < priority x)%Z).
Proof.
  unfold insertEntry.
  destruct (list_find _ entries) as [[i x]|] eqn:F.
  - apply list_find_Some in F as (Hi & Hlt & Hbefore).
    exists (take i entries), (drop i entries). split_and!.
    + by rewrite take_drop.
    + done.
    + intros y (j & Hj & Hji)%elem_of_take.
      specialize (Hbefore j y Hj Hji). lia.
    + intros y. rewrite head_lookup, lookup_drop, Nat.add_0_r, Hi. by intros [= <-].
  - apply list_find_None in F. exists entries, []. split_and!.
    + by rewrite app_nil_r.
    + done.
    + intros y Hy. rewrite Forall_forall in F. specialize (F y Hy). lia.
    + done.
Qed.

Lemma ascending_tail_above entry (l2 : list pluginEntry) :
  ascending (key <$> l2) →
  (∀ x, head l2 = Some x → (priority entry < priority x)%Z) →
  ∀ x, x ∈ l2 → (priority entry < priority x)%Z.
Proof.
  intros Hs Hh x Hx. destruct l2 as [|y l2]; [by apply elem_of_nil in Hx|].
  specialize (Hh y eq_refl).
  apply elem_of_cons in Hx as [->|Hx]; [done|].
  rewrite fmap_cons in Hs. apply StronglySorted_cons in Hs as [Hall _].
  rewrite Forall_forall in Hall.
  specialize (Hall (key x) (list_elem_of_fmap_2 key _ _ Hx)). simpl in Hall. lia.
Qed.

Lemma insertEntry_split_ascending entry entries :
  ascending (key <$> entries) →
  ∃ l1 l2, entries = l1 ++ l2
    ∧ insertEntry entry entries = l1 ++ entry :: l2
    ∧ (∀ x, x ∈ l1 → (priority x ≤ priority entry)%Z)
    ∧ (∀ x, x ∈ l2 → (priority entry < priority x)%Z).
Proof.
  intros Hs. destruct (insertEntry_split entry entries) as (l1 & l2 & -> & E & H1 & H2).
  exists l1, l2. split_and!; try done.
  apply ascending_tail_above; [|done].
  rewrite fmap_app in Hs. by apply StronglySorted_app_1_r in Hs.
Qed.

Lemma insertEntry_ascending entry entries :
  ascending (key <$> entries) → ascending (key <$> insertEntry entry entries).
Proof.
  intros Hs.
  destruct (insertEntry_split_ascending entry entries Hs) as (l1 & l2 & -> & -> & H1 & H2).
  unfold ascending in *. rewrite fmap_app in *. rewrite fmap_cons.
  apply StronglySorted_app in Hs as (H12 & S1 & S2).
  apply StronglySorted_app_2; [|done|].
  - intros x1 x2 (a & -> & Ha)%list_elem_of_fmap [->|Hx2]%elem_of_cons.
    + simpl. by apply H1.
    + apply H12; [|done]. by apply list_elem_of_fmap_2.
  - apply StronglySorted_cons. split; [|done].
    apply Forall_forall. intros x (a & -> & Ha)%list_elem_of_fmap.
    simpl. specialize (H2 a Ha). lia.
Qed.

Lemma filter_none {A} (P : A → Prop) `{∀ x, Decision (P x)} (l : list A) :
  (∀ x, x ∈ l → ¬ P x) → filter P l = [].
Proof.
  induction l as [|x l IH]; intros Hl; [done|].
  rewrite filter_cons_False by (apply Hl; left).
  apply IH. intros y Hy. apply Hl. by right.
Qed.

(** Insertion is stable: among the entries of its own priority the new
    entry comes last, and the entries of any other priority are as before. *)
Lemma insertEntry_ofPriority q entry entries :
  ascending (key <$> entries) →
  ofPriority q (key <$> insertEntry entry entries)
  = ofPriority q ((key <$> entries) ++ [key entry]).
Proof.
  intros Hs.
  destruct (insertEntry_split_ascending entry entries Hs) as (l1 & l2 & -> & -> & H1 & H2).
  unfold ofPriority. rewrite !fmap_app, fmap_cons, !filter_app, filter_cons.
  rewrite <- app_assoc. f_equal.
  destruct (decide ((key entry).2 = q)) as [E|N].
  - assert (filter (λ k, k.2 = q) (key <$> l2) = []) as ->.
    { apply filter_none. intros x (a & -> & Ha)%list_elem_of_fmap.
      simpl in *. specialize (H2 a Ha). lia. }
    by rewrite filter_cons_True.
  - by rewrite filter_cons_False, filter_nil, app_nil_r.
Qed.

Lemma insertEntry_Permutation entry entries :
  insertEntry entry entries ≡ₚ entries ++ [entry].
Proof.
  destruct (insertEntry_split entry entries) as (l1 & l2 & -> & -> & _).
  rewrite <- Permutation_middle, <- Permutation_cons_append. done.
Qed.

Lemma deref_new (h : list PluginConfig) c : deref (h ++ [c]) (length h) = c.
Proof. unfold deref. by rewrite list_lookup_middle. Qed.

Lemma deref_prefix (h h' : list PluginConfig) p :
  h `prefix_of` h' → p < length h → deref h' p = deref h p.
Proof.
  intros [k ->] Hp. unfold deref. by rewrite lookup_app_l.
Qed.

Lemma effectivePriority_prefix (h h' : list PluginConfig) config :
  h `prefix_of` h' → (∀ p, config = Some p → p < length h) →
  effectivePriority h' config = effectivePriority h config.
Proof.
  intros Hh Hp. destruct config as [p|]; [|done]. simpl.
  by rewrite (deref_prefix h h' p Hh (Hp p eq_refl)).
Qed.

(** A successful [Register] inserts one entry, at the effective priority of
    the config it was given, and only ever adds a config cell. *)
Lemma Register_success plugin config s s' :
  Register (Some plugin) config s = (None, s') →
  ∃ p,
    pm s' = {| plugins :=
                 insertEntry {| plugin := plugin; config := Some p;
                                priority := effectivePriority (heap s) config |}
                   (plugins (pm s));
               initialized := initialized (pm s) |}
    ∧ heap s `prefix_of` heap s'
    ∧ world s' = world s ∧ calls s' = calls s.
Proof.
  unfold Register. case_bool_decide; [done|]. unfold bind, gets.
  destruct (list_find _ _); [done|].
  destruct config as [l|]; simpl; unfold ret, setPlugins, setHeap; simpl.
  - intros [= <-]. exists l. simpl. split_and!; try done.
    do 2 f_equal. by case_bool_decide; case_decide.
  - intros [= <-]. exists (length (heap s)). simpl. split_and!; try done.
    + by rewrite deref_new.
    + by apply prefix_app_r.
Qed.

(** [Register] succeeds for a named plugin whose name is not taken. *)
Lemma Register_fresh plugin l s :
  Plugin.Name plugin ≠ "" →
  (∀ entry, entry ∈ plugins (pm s) → Plugin.Name (plugin.plugin entry) ≠ Plugin.Name plugin) →
  Register (Some plugin) (Some l) s
  = (None,
     {| pm := {| plugins :=
                   insertEntry {| plugin := plugin; config := Some l;
                                  priority := effectivePriority (heap s) (Some l) |}
                     (plugins (pm s));
                 initialized := initialized (pm s) |};
        heap := heap s; world := world s; calls := calls s |}).
Proof.
  intros Hname Hfresh. unfold Register. rewrite bool_decide_false by done.
  unfold bind, gets.
  destruct (list_find _ _) as [[i x]|] eqn:F.
  { apply list_find_Some in F as (Hi & Hx & _).
    by destruct (Hfresh x (list_elem_of_lookup_2 _ _ _ Hi)). }
  simpl. unfold ret, setPlugins. simpl. do 5 f_equal.
  by case_bool_decide; case_decide.
Qed.

Lemma ofPriority_app q (ks1 ks2 : list (string * Z)) :
  ofPriority q (ks1 ++ ks2) = ofPriority q ks1 ++ ofPriority q ks2.
Proof. apply filter_app. Qed.

Lemma registerAll_cons plugin config regs s :
  registerAll ((plugin, config) :: regs) s
  = let '(err, s1) := Register (Some plugin) config s in
    let '(ok, s2) := registerAll regs s1 in
    (match err with None => ok | Some _ => false end, s2).
Proof.
  simpl. unfold bind at 1. destruct (Register (Some plugin) config s) as [err s1].
  unfold bind. by destruct (registerAll regs s1).
Qed.

Lemma registerAll_order regs : ∀ s s',
  ascending (key <$> plugins (pm s)) →
  (∀ plugin p, (plugin, Some p) ∈ regs → p < length (heap s)) →
  registerAll regs s = (true, s') →
  let listed := key <$> plugins (pm s') in
  let asked := (key <$> plugins (pm s)) ++ (registration (heap s) <$> regs) in
  ascending listed ∧ listed ≡ₚ asked
  ∧ ∀ q, ofPriority q listed = ofPriority q asked.
Proof.
  induction regs as [|[plugin config] regs IH]; intros s s' Hs Hp.
  - intros [= <-]. simpl. rewrite app_nil_r. done.
  - rewrite registerAll_cons.
    destruct (Register (Some plugin) config s) as [err s1] eqn:R.
    destruct (registerAll regs s1) as [ok s2] eqn:RA.
    destruct err as [e|]; [done|]. intros [= -> <-].
    apply Register_success in R as (p & Hpm & Hheap & _ & _).
    assert (∀ plugin' p', (plugin', Some p') ∈ regs → p' < length (heap s)) as Hp'.
    { intros plugin' p' Hin. apply (Hp plugin'). by right. }
    assert (registration (heap s1) <$> regs = registration (heap s) <$> regs) as Hreg.
    { apply Forall_fmap_ext_1, Forall_forall. intros [plugin' config'] Hin.
      unfold registration. simpl. f_equal.
      apply effectivePriority_prefix; [done|]. intros p' ->. by apply (Hp' plugin'). }
    destruct (IH s1 s2) as (Hasc & Hperm & Hof); [| |done|].
    { rewrite Hpm. simpl. by apply insertEntry_ascending. }
    { intros plugin' p' Hin. apply Hp' in Hin.
      apply prefix_length in Hheap. lia. }
    rewrite Hreg, Hpm in *. simpl in *. split_and!; [done| |].
    + rewrite Hperm, insertEntry_Permutation, fmap_app, <- app_assoc. done.
    + intros q. rewrite Hof, cons_middle, !ofPriority_app.
      rewrite (insertEntry_ofPriority q _ _ Hs), ofPriority_app.
      by rewrite <- app_assoc.
Qed.

Lemma bind_run {A B} (m : M A) (k : A → M B) s a s1 :
  m s = (a, s1) → bind m k s = k a s1.
Proof. intros E. unfold bind. by rewrite E. Qed.

(** C1: after any sequence of successful [Register] calls on a fresh
    manager, with config pointers that point to cells, [List] returns the
    registered names; they stand in non-decreasing order of effective
    priority, and the names of one priority stand in the order of their
    registration.  Plugins A, B, C registered at 200, 50, 100 are listed as
    B, C, A. *)
Theorem Register_List_priority_order :
  (∀ regs s s',
     plugins (pm s) = [] →
     (∀ plugin p, (plugin, Some p) ∈ regs → p < length (heap s)) →
     registerAll regs s = (true, s') →
     let asked := registration (heap s) <$> regs in
     let listed := key <$> plugins (pm s') in
     (List s').1 = listed.*1
     ∧ listed ≡ₚ asked
     ∧ ascending listed
     ∧ ∀ q, ofPriority q listed = ofPriority q asked)
  ∧ (∀ A B C w,
       Plugin.Name A ≠ "" → Plugin.Name B ≠ "" → Plugin.Name C ≠ "" →
       Plugin.Name A ≠ Plugin.Name B → Plugin.Name A ≠ Plugin.Name C →
       Plugin.Name B ≠ Plugin.Name C →
       ((cA ← new {| Enabled := true; Priority := 200; Config := None |};
         Register (Some A) (Some cA);;
         cB ← new {| Enabled := true; Priority := 50; Config := None |};
         Register (Some B) (Some cB);;
         cC ← new {| Enabled := true; Priority := 100; Config := None |};
         Register (Some C) (Some cC);;
         List) (start w)).1
       = [Plugin.Name B; Plugin.Name C; Plugin.Name A]).
Proof.
  split.
  - intros regs s s' Hempty Hp Hall asked listed.
    destruct (registerAll_order regs s s') as (Hasc & Hperm & Hof); try done.
    { rewrite Hempty. constructor. }
    rewrite Hempty in Hperm, Hof. simpl in Hperm, Hof.
    split_and!; try done.
    unfold List, bind, gets, ret. simpl. subst listed.
    rewrite <- list_fmap_compose. done.
  - intros A B C w HA HB HC HAB HAC HBC.
    erewrite bind_run by reflexivity.
    erewrite bind_run.
    2:{ apply Register_fresh; [done|]. by intros e ?%elem_of_nil. }
    erewrite bind_run by reflexivity.
    erewrite bind_run.
    2:{ apply Register_fresh; [done|]. cbn.
        intros e [->|?%elem_of_nil]%elem_of_cons; [|done]. done. }
    erewrite bind_run by reflexivity.
    erewrite bind_run.
    2:{ apply Register_fresh; [done|]. cbn.
        intros e Hin. repeat (apply elem_of_cons in Hin as [->|Hin]); try done.
        by apply elem_of_nil in Hin. }
    reflexivity.
Qed.
End order.

(** *** What every history preserves *)

Section histories.
Context `{Payloads}.
Implicit Types (s : State) (entry : pluginEntry) (entries : list pluginEntry).

Lemma rangeEnabled_after h call fmt entries s :
  ∃ invoked w,
    (rangeEnabled h call fmt entries s).2 = after s h invoked w
    ∧ Forall (enabledIn s) invoked.
Proof.
  rewrite rangeEnabled_filter.
  pose proof (Forall_enabledEntries s entries) as Hen.
  destruct (allSucceed_or_first_failure call (enabledEntries (heap s) entries) (world s))
    as [[w' Hw']|(before & entry & later & w1 & err & w2 & Hdec & Hb & Hf)].
  - exists (enabledEntries (heap s) entries), w'.
    by rewrite (rangeEnabled_ok _ _ _ _ _ w').
  - rewrite Hdec in *. exists (before ++ [entry]), w2.
    rewrite (rangeEnabled_fail _ _ _ _ _ _ _ w1 err w2) by done.
    split; [done|]. rewrite cons_middle, app_assoc in Hen.
    by apply Forall_app in Hen as [Hen _].
Qed.

Lemma after_invariant s h invoked w :
  (h = HShutdown ∨ Forall (enabledIn s) invoked) →
  invariant s → invariant (after s h invoked w).
Proof.
  intros Hh [Hasc Hcalls]. split; [done|]. simpl.
  apply Forall_app. split; [done|].
  apply Forall_fmap, Forall_forall. intros entry Hin Hhook. simpl in *.
  destruct Hh as [->|Hen]; [done|].
  rewrite Forall_forall in Hen. by rewrite (Hen entry Hin).
Qed.

(** The [Shutdown] loop invokes every entry it is given and returns the
    last failure, or what it started with. *)
Lemma shutdownLoop_spec ctx entries : ∀ lastErr s,
  shutdownLoop ctx entries lastErr s
  = (match lastFailure (shutdownAll ctx entries (world s)).1 with
     | Some e => Some e
     | None => lastErr
     end,
     after s HShutdown entries (shutdownAll ctx entries (world s)).2).
Proof.
  induction entries as [|entry rest IH]; intros lastErr s.
  - simpl. by rewrite after_nil.
  - simpl. unfold bind, invoke.
    destruct (Plugin.Shutdown (plugin entry) ctx (world s)) as [err w1] eqn:E.
    rewrite IH. simpl.
    destruct (shutdownAll ctx rest w1) as [outs w2] eqn:E2. simpl.
    rewrite <- (after_cons s HShutdown entry rest w1 w2). f_equal.
    unfold lastFailure. simpl.
    destruct err as [e|]; simpl; [|done].
    rewrite last_cons. unfold omap. by destruct (last _).
Qed.

Lemma ascending_delete entries i :
  ascending (key <$> entries) →
  ascending (key <$> take i entries ++ drop (S i) entries).
Proof.
  intros Hs. destruct (entries !! i) as [x|] eqn:Hi.
  - rewrite <- (take_drop_middle entries i x Hi) in Hs.
    unfold ascending in *. rewrite fmap_app in *. rewrite fmap_cons in Hs.
    apply StronglySorted_app in Hs as (H12 & S1 & [_ S2]%StronglySorted_cons).
    apply StronglySorted_app_2; [|done..].
    intros x1 x2 H1 H2. apply H12; [done|]. by right.
  - apply lookup_ge_None in Hi.
    by rewrite take_ge, drop_ge, app_nil_r by lia.
Qed.

Lemma Register_effect plugin config s :
  calls (Register plugin config s).2 = calls s
  ∧ (plugins (pm (Register plugin config s).2) = plugins (pm s)
     ∨ ∃ entry, plugins (pm (Register plugin config s).2)
                = insertEntry entry (plugins (pm s))).
Proof.
  unfold Register. destruct plugin as [plugin|]; [|by split; [|left]].
  case_bool_decide; [by split; [|left]|]. unfold bind, gets.
  destruct (list_find _ _); [by split; [|left]|].
  destruct config as [l|]; simpl; (split; [done|right; by eexists]).
Qed.

Lemma exec_invariant o s : invariant s → invariant (exec o s).2.
Proof.
  intros Hinv.
  destruct o as [c|p c|f|plg cfg|name|ctx|ctx toolName input|ctx msg
                |ctx result|ctx| | | |name enabled]; simpl.
  - done.
  - done.
  - done.
  - unfold bind.
    destruct (Register plg cfg s) as [err s'] eqn:R.
    destruct (Register_effect plg cfg s) as [Hc Hp]. rewrite R in Hc, Hp.
    destruct Hinv as [Hasc Hcalls]. simpl in *. split; [|by rewrite Hc].
    destruct Hp as [->|[entry ->]]; [done|]. by apply insertEntry_ascending.
  - unfold Unregister, bind, gets, ret.
    destruct (list_find (hasName name) (plugins (pm s))) as [[i x]|]; simpl.
    2:{ done. }
    destruct Hinv as [Hasc Hcalls]. split; [|done]. simpl.
    by apply ascending_delete.
  - unfold Initialize, bind, gets.
    destruct (initialized (pm s)); [done|].
    destruct (rangeEnabled_after HInitialize (λ p, Plugin.Initialize p ctx)
                (λ name, "failed to initialize plugin '" +:+ name +:+ "': ")
                (plugins (pm s)) s) as (invoked & w & E & Hen).
    destruct (rangeEnabled _ _ _ _ s) as [[e|] s']; simpl in *; subst s';
      by apply after_invariant; [right|].
  - unfold OnToolCall, bind, gets.
    destruct (rangeEnabled_after HOnToolCall (λ p, Plugin.OnToolCall p ctx toolName input)
                (λ name, "plugin '" +:+ name +:+ "' rejected tool call: ")
                (plugins (pm s)) s) as (invoked & w & E & Hen).
    destruct (rangeEnabled _ _ _ _ s) as [e s']; simpl in *; subst s';
      by apply after_invariant; [right|].
  - unfold OnMessage, bind, gets.
    destruct (rangeEnabled_after HOnMessage (λ p, Plugin.OnMessage p ctx msg)
                (λ name, "plugin '" +:+ name +:+ "' error on message: ")
                (plugins (pm s)) s) as (invoked & w & E & Hen).
    destruct (rangeEnabled _ _ _ _ s) as [e s']; simpl in *; subst s';
      by apply after_invariant; [right|].
  - unfold OnComplete, bind, gets.
    destruct (rangeEnabled_after HOnComplete (λ p, Plugin.OnComplete p ctx result)
                (λ name, "plugin '" +:+ name +:+ "' error on complete: ")
                (plugins (pm s)) s) as (invoked & w & E & Hen).
    destruct (rangeEnabled _ _ _ _ s) as [e s']; simpl in *; subst s';
      by apply after_invariant; [right|].
  - unfold Shutdown, bind, gets. rewrite shutdownLoop_spec. simpl.
    destruct Hinv as [Hasc Hcalls]. split; [done|]. simpl.
    apply Forall_app. split; [done|].
    apply Forall_fmap, Forall_forall. by intros entry _ Hhook.
  - done.
  - done.
  - done.
  - unfold SetEnabled, bind, gets, ret.
    destruct (list_find (hasName name) (plugins (pm s))) as [[i x]|] eqn:F;
      simpl; [|done].
    destruct (config x); simpl; [done|].
    destruct Hinv as [Hasc Hcalls]. split; [|done]. simpl.
    apply list_find_Some in F as (Hi & _ & _).
    rewrite list_fmap_insert. rewrite list_insert_id; [done|].
    by rewrite list_lookup_fmap, Hi.
Qed.

Lemma run_invariant ops : ∀ s, invariant s → invariant (run ops s).2.
Proof.
  induction ops as [|o ops IH]; intros s Hinv; [done|].
  simpl. unfold bind. pose proof (exec_invariant o s Hinv) as Ho.
  destruct (exec o s) as [[] s1]. by apply IH.
Qed.

Lemma start_invariant w : invariant (start w).
Proof. split; constructor. Qed.

Lemma ascending_filter (P : pluginEntry → Prop) `{∀ x, Decision (P x)} entries :
  ascending (key <$> entries) → ascending (key <$> filter P entries).
Proof.
  unfold ascending. induction entries as [|x entries IH]; [done|].
  rewrite fmap_cons. intros [Hall Hs]%StronglySorted_cons.
  rewrite filter_cons. destruct (decide (P x)); [|by apply IH].
  rewrite fmap_cons. apply StronglySorted_cons. split; [|by apply IH].
  rewrite Forall_forall in Hall. apply Forall_forall.
  intros k (a & -> & [_ Ha]%list_elem_of_filter)%list_elem_of_fmap.
  apply Hall. by apply list_elem_of_fmap_2.
Qed.

Lemma descending_reverse entries :
  ascending (key <$> entries) → descending (key <$> reverse entries).
Proof.
  unfold ascending, descending.
  induction entries as [|x entries IH]; [intros _; constructor|].
  rewrite fmap_cons. intros [Hall Hs]%StronglySorted_cons.
  rewrite reverse_cons, fmap_app. apply StronglySorted_app_2.
  - intros k1 k2 Hk1 ->%list_elem_of_singleton.
    rewrite Forall_forall in Hall. apply Hall.
    apply list_elem_of_fmap in Hk1 as (a & -> & Ha).
    rewrite elem_of_reverse in Ha. by apply (list_elem_of_fmap_2 key).
  - by apply IH.
  - repeat constructor.
Qed.

Lemma Initialize_done ctx s :
  initialized (pm s) = true → Initialize ctx s = (None, s).
Proof. intros E. unfold Initialize, bind, gets. by rewrite E. Qed.

Lemma Initialize_runs ctx s :
  initialized (pm s) = false →
  Initialize ctx s
  = match rangeEnabled HInitialize (λ p, Plugin.Initialize p ctx)
            (λ name, "failed to initialize plugin '" +:+ name +:+ "': ")
            (plugins (pm s)) s with
    | (Some err, s') => (Some err, s')
    | (None, s') => (None, (setInitialized true s').2)
    end.
Proof.
  intros E. unfold Initialize, bind, gets. rewrite E.
  by destruct (rangeEnabled _ _ _ _ s) as [[err|] s'].
Qed.
End histories.

(** *** The lifecycle properties *)

Section lifecycle.
Context `{Payloads}.
Implicit Types (s : State) (entry : pluginEntry) (entries : list pluginEntry).

(** C2, as the code has it: in every history of a manager, each hook
    invocation other than [Shutdown] is on an entry that is enabled at that
    moment.  ([Shutdown] itself is invoked on every entry, enabled or
    not.) *)
Theorem disabled_receive_no_hooks_but_Shutdown ops w :
  Forall hookPolicy (calls (run ops (start w)).2).
Proof. apply run_invariant, start_invariant. Qed.

(** C8: after an [Initialize] that succeeded, [Initialize] returns [nil]
    and changes nothing, so no hook is invoked again; two calls in a row do
    what the first did; and on a manager not yet initialized that is one
    [Initialize] invocation for each enabled entry, in registry order. *)
Theorem Initialize_idempotent ctx s s1 :
  Initialize ctx s = (None, s1) →
  Initialize ctx s1 = (None, s1)
  ∧ (Initialize ctx;; Initialize ctx) s = (None, s1)
  ∧ (initialized (pm s) = false →
       calls s1
       = calls s ++ (callOf HInitialize (heap s)
                       <$> enabledEntries (heap s) (plugins (pm s)))
       ∧ Forall (λ c, enabledAtCall c = true) (drop (length (calls s)) (calls s1))).
Proof.
  intros Hinit. destruct (initialized (pm s)) eqn:E.
  - rewrite (Initialize_done ctx s E) in Hinit. injection Hinit as <-.
    split_and!; [by apply Initialize_done| |done].
    unfold bind. by rewrite !(Initialize_done ctx s E).
  - pose proof Hinit as Hinit'. rewrite (Initialize_runs ctx s E) in Hinit.
    destruct (rangeEnabled _ _ _ _ s) as [[err|] s'] eqn:R; [done|].
    injection Hinit as <-. apply rangeEnabled_None in R as (w' & Hall & ->).
    split_and!.
    + by apply Initialize_done.
    + unfold bind. rewrite Hinit'. by apply Initialize_done.
    + intros _. simpl. split; [done|].
      rewrite drop_app_length. apply Forall_fmap, Forall_forall.
      intros entry [Hen _]%list_elem_of_filter. simpl. by rewrite Hen.
Qed.

(** C9: [OnToolCall], [OnMessage] and [OnComplete] each meet the fan-out
    contract, with their own wrapping of the failing plugin's error; and in
    every history the enabled entries, taken in registry order, are in
    ascending priority order. *)
Theorem hooks_fan_out_fail_fast ctx toolName input msg result :
  fansOut (OnToolCall ctx toolName input) HOnToolCall
    (λ p, Plugin.OnToolCall p ctx toolName input)
    (λ name, "plugin '" +:+ name +:+ "' rejected tool call: ")
  ∧ fansOut (OnMessage ctx msg) HOnMessage
      (λ p, Plugin.OnMessage p ctx msg)
      (λ name, "plugin '" +:+ name +:+ "' error on message: ")
  ∧ fansOut (OnComplete ctx result) HOnComplete
      (λ p, Plugin.OnComplete p ctx result)
      (λ name, "plugin '" +:+ name +:+ "' error on complete: ")
  ∧ (∀ ops w,
       let s := (run ops (start w)).2 in
       ascending (key <$> enabledEntries (heap s) (plugins (pm s)))).
Proof.
  split_and!; try apply rangeEnabled_fansOut.
  intros ops w s. apply ascending_filter.
  by destruct (run_invariant ops (start w) (start_invariant w)).
Qed.

(** C10: [Shutdown] invokes the [Shutdown] hook of every entry, enabled or
    not, from the last entry of the registry to the first, whatever the
    hooks return; it returns the last failure met, wrapped, or [nil] if
    there was none, and leaves the manager not initialized.  In every
    history that order is descending priority order.  [Initialize] after a
    [Shutdown] runs the hooks again.  With A registered at 50 and B at 100,
    B is shut down before A. *)
Theorem Shutdown_reverse_best_effort :
  (∀ ctx s,
     let entries := reverse (plugins (pm s)) in
     let run := shutdownAll ctx entries (world s) in
     Shutdown ctx s
     = (lastFailure run.1,
        withInitialized false (after s HShutdown entries run.2)))
  ∧ (∀ ops w,
       descending (key <$> reverse (plugins (pm (run ops (start w)).2))))
  ∧ (∀ ctx ctx' s w',
       let s1 := (Shutdown ctx s).2 in
       let enabled := enabledEntries (heap s1) (plugins (pm s1)) in
       allSucceed (λ p, Plugin.Initialize p ctx') enabled (world s1) = Some w' →
       Initialize ctx' s1
       = (None, withInitialized true (after s1 HInitialize enabled w')))
  ∧ (∀ A B ctx w,
       Plugin.Name A ≠ "" → Plugin.Name B ≠ "" → Plugin.Name A ≠ Plugin.Name B →
       (callee <$> calls
          ((cA ← new {| Enabled := true; Priority := 50; Config := None |};
            Register (Some A) (Some cA);;
            cB ← new {| Enabled := true; Priority := 100; Config := None |};
            Register (Some B) (Some cB);;
            Shutdown ctx) (start w)).2)
       = [Plugin.Name B; Plugin.Name A]).
Proof.
  split_and!.
  - intros ctx s entries run. unfold Shutdown, bind, gets.
    rewrite shutdownLoop_spec. subst run entries. simpl. unfold ret.
    by destruct (lastFailure _).
  - intros ops w. apply descending_reverse.
    by destruct (run_invariant ops (start w) (start_invariant w)).
  - intros ctx ctx' s w' s1 enabled Hall.
    assert (initialized (pm s1) = false) as E.
    { subst s1. unfold Shutdown, bind, gets. by rewrite shutdownLoop_spec. }
    rewrite (Initialize_runs ctx' s1 E), rangeEnabled_filter.
    by rewrite (rangeEnabled_ok _ _ _ _ _ w' (Forall_enabledEntries _ _) Hall).
  - intros A B ctx w HA HB HAB.
    erewrite bind_run by reflexivity.
    erewrite bind_run.
    2:{ apply Register_fresh; [done|]. by intros e ?%elem_of_nil. }
    erewrite bind_run by reflexivity.
    erewrite bind_run.
    2:{ apply Register_fresh; [done|]. cbn.
        intros e [->|?%elem_of_nil]%elem_of_cons; [|done]. done. }
    unfold Shutdown, bind, gets. rewrite shutdownLoop_spec. reflexivity.
Qed.
End lifecycle.

(** *** The properties at work on counting plugins *)

Section examples.
#[local] Existing Instance demo.payloads.
Import demo.

(** Five registrations on a fresh manager, four through config cells (one
    of them with priority 0, one disabled) and one without a config. *)
Lemma Register_List_priority_order_witness :
  let s0 : State :=
    {| pm := NewPluginManager;
       heap := [cfg true 200; cfg true 50; cfg true 0; cfg false 50];
       world := 0; calls := [] |} in
  let regs := [(counter "A" [], Some 0); (counter "B" [], Some 1);
               (counter "C" [], Some 2); (counter "D" [], Some 3);
               (counter "E" [], None)] in
  plugins (pm s0) = []
  ∧ (∀ plugin p, (plugin, Some p) ∈ regs → p < length (heap s0))
  ∧ (registerAll regs s0).1 = true
  ∧ (List (registerAll regs s0).2).1 = ["B"; "D"; "C"; "E"; "A"]
  ∧ ascending (key <$> plugins (pm (registerAll regs s0).2))
  ∧ ((cA ← new (cfg true 200); Register (Some (counter "A" [])) (Some cA);;
      cB ← new (cfg true 50); Register (Some (counter "B" [])) (Some cB);;
      cC ← new (cfg true 100); Register (Some (counter "C" [])) (Some cC);;
      List) (start 0)).1
    = ["B"; "C"; "A"].
Proof.
  intros s0 regs.
  destruct (@Register_List_priority_order demo.payloads) as [Hgen Hex].
  assert (∀ plugin p, (plugin, Some p) ∈ regs → p < length (heap s0)) as Hp.
  { intros plugin p Hin. subst regs. simpl.
    repeat (apply elem_of_cons in Hin as [[= _ <-]|Hin]; [lia|]).
    apply elem_of_cons in Hin as [[=]|Hin]. by apply elem_of_nil in Hin. }
  destruct (Hgen regs s0 (registerAll regs s0).2 eq_refl Hp eq_refl)
    as (Hlist & _ & Hasc & _).
  split_and!; [reflexivity|exact Hp|reflexivity| |exact Hasc|].
  - rewrite Hlist. reflexivity.
  - apply Hex; discriminate.
Defined.

(** A history in which a disabled plugin is registered, then enabled. *)
Lemma disabled_receive_no_hooks_but_Shutdown_witness :
  let ops := [ONew (cfg false 100); ORegister (Some (counter "A" [])) (Some 0);
              OInitialize tt; OOnToolCall tt "Bash" input; OOnMessage tt tt;
              OOnComplete tt tt; OSetEnabled "A" true; OOnMessage tt tt;
              OShutdown tt] in
  Forall hookPolicy (calls (run ops (start 0)).2)
  ∧ calls (run ops (start 0)).2
    = [{| callee := "A"; hook := HOnMessage; enabledAtCall := true |};
       {| callee := "A"; hook := HShutdown; enabledAtCall := true |}].
Proof.
  intros ops.
  split; [apply (@disabled_receive_no_hooks_but_Shutdown demo.payloads)|reflexivity].
Defined.

(** C2 as stated fails: [Shutdown] invokes the hook of a plugin that was
    registered disabled and never enabled. *)
Lemma Shutdown_invokes_disabled :
  let ops := [ONew (cfg false 100); ORegister (Some (counter "A" [])) (Some 0);
              OShutdown tt] in
  calls (run ops (start 0)).2
  = [{| callee := "A"; hook := HShutdown; enabledAtCall := false |}]
  ∧ ¬ Forall (λ c, enabledAtCall c = true) (calls (run ops (start 0)).2).
Proof.
  intros ops. split; [reflexivity|].
  intros Hall. apply Forall_cons in Hall as [Hfalse _]. discriminate Hfalse.
Qed.

Lemma Initialize_idempotent_witness :
  let s1 := (Initialize tt twoPlugins).2 in
  Initialize tt twoPlugins = (None, s1)
  ∧ Initialize tt s1 = (None, s1)
  ∧ (Initialize tt;; Initialize tt) twoPlugins = (None, s1)
  ∧ calls s1 = [{| callee := "A"; hook := HInitialize; enabledAtCall := true |}]
  ∧ world s1 = 1.
Proof.
  intros s1.
  assert (Initialize tt twoPlugins = (None, s1)) as Hinit by reflexivity.
  destruct (@Initialize_idempotent demo.payloads tt twoPlugins s1 Hinit)
    as (Hagain & Htwice & Honce).
  destruct (Honce eq_refl) as [Hcalls _].
  split_and!; [exact Hinit|exact Hagain|exact Htwice| |reflexivity].
  rewrite Hcalls. reflexivity.
Defined.

(** A at 100; B at 50, disabled; C at 200, whose [OnToolCall] fails; D at
    300.  [OnToolCall] invokes A, then C, and stops; [OnMessage] invokes A,
    C and D. *)
Lemma hooks_fan_out_fail_fast_witness :
  OnToolCall tt "Bash" input fourPlugins
  = (Some (Wrap "plugin 'C' rejected tool call: " (New "C failed")),
     {| pm := pm fourPlugins; heap := heap fourPlugins; world := 2;
        calls := [{| callee := "A"; hook := HOnToolCall; enabledAtCall := true |};
                  {| callee := "C"; hook := HOnToolCall; enabledAtCall := true |}] |})
  ∧ OnMessage tt tt fourPlugins
    = (None,
       {| pm := pm fourPlugins; heap := heap fourPlugins; world := 3;
          calls := [{| callee := "A"; hook := HOnMessage; enabledAtCall := true |};
                    {| callee := "C"; hook := HOnMessage; enabledAtCall := true |};
                    {| callee := "D"; hook := HOnMessage; enabledAtCall := true |}] |})
  ∧ priority <$> enabledEntries (heap fourPlugins) (plugins (pm fourPlugins))
    = [100; 200; 300]%Z.
Proof.
  destruct (@hooks_fan_out_fail_fast demo.payloads tt "Bash" input tt tt)
    as ([_ Hfail] & [Hok _] & _ & _).
  split_and!; [| |reflexivity].
  - apply (Hfail fourPlugins
             [{| plugin := counter "A" []; config := Some 0; priority := 100 |}]
             {| plugin := counter "C" [HOnToolCall]; config := Some 2; priority := 200 |}
             [{| plugin := counter "D" []; config := Some 3; priority := 300 |}]
             1 (New "C failed") 2); reflexivity.
  - apply (Hok fourPlugins 3). reflexivity.
Defined.

(** A at 50 and B at 100, disabled, whose [Shutdown] fails; the manager
    has been initialized.  B is shut down first, A is still shut down, B's
    failure is returned, and a new [Initialize] invokes A again. *)
Lemma Shutdown_reverse_best_effort_witness :
  (Shutdown tt initializedPair).1
  = Some (Wrap "failed to shutdown plugin 'B': " (New "B failed"))
  ∧ calls (Shutdown tt initializedPair).2
    = [{| callee := "A"; hook := HInitialize; enabledAtCall := true |};
       {| callee := "B"; hook := HShutdown; enabledAtCall := false |};
       {| callee := "A"; hook := HShutdown; enabledAtCall := true |}]
  ∧ initialized (pm initializedPair) = true
  ∧ initialized (pm (Shutdown tt initializedPair).2) = false
  ∧ (callee <$> calls
       ((cA ← new {| Enabled := true; Priority := 50; Config := None |};
         Register (Some (counter "A" [])) (Some cA);;
         cB ← new {| Enabled := true; Priority := 100; Config := None |};
         Register (Some (counter "B" [HShutdown])) (Some cB);;
         Shutdown tt) (start 0)).2)
    = ["B"; "A"]
  ∧ (callee <$> calls (Initialize tt (Shutdown tt initializedPair).2).2)
    = ["A"; "B"; "A"; "A"].
Proof.
  destruct (@Shutdown_reverse_best_effort demo.payloads) as (Hshut & _ & Hagain & Hex).
  rewrite (Hshut tt initializedPair).
  split_and!; [reflexivity..| |].
  - apply Hex; discriminate.
  - rewrite <- (Hshut tt initializedPair).
    rewrite (Hagain tt tt initializedPair 4); reflexivity.
Defined.
End examples.
End plugin_proofs.

(** * Further properties *)

(** ** permissions.go: parsing *)

Module permissions_more.
Import strings spec permissions strings_facts regexp_facts permissions_proofs.

Lemma TrimSpace_empty : TrimSpace "" = "".
Proof. reflexivity. Qed.

Lemma matches_paren s g1 g2 g3 : regexp.matches s g1 g2 g3 → "("%char ∈ bytes s.
Proof.
  intros (_ & _ & _ & _ & _ & ->). rewrite bytes_app.
  apply elem_of_app. right. simpl. left.
Qed.

(** What [ParseToolPermission] does on a string with a parenthesis, in terms
    of the regular expression's groups. *)
Lemma ParseToolPermission_groups s :
  "("%char ∈ bytes s →
  ParseToolPermission s
  = match regexp.groups s with
    | None =>
        Err (New ("invalid tool permission format: " +:+ s
                  +:+ " (expected format: Tool(command) or Tool(command:pattern))"))
    | Some (g1, g2, g3) =>
        if bool_decide (TrimSpace g1 = "") then
          Err (New ("tool name cannot be empty in permission: " +:+ s))
        else if bool_decide (TrimSpace g2 = "") then
          Err (New ("command cannot be empty in permission: " +:+ s))
        else Ok {| Tool := TrimSpace g1; Command := TrimSpace g2;
                   Pattern := TrimSpace g3; Original := s |}
    end.
Proof.
  intros Hp. pose proof Hp as Hc%Contains_byte.
  assert (s ≠ "") as Hs by (intros ->; by apply elem_of_nil in Hp).
  unfold ParseToolPermission, regexp.FindStringSubmatch.
  rewrite bool_decide_false by done. rewrite Hc. simpl.
  destruct (regexp.groups s) as [[[g1 g2] g3]|]; [|done]. unfold index. simpl.
  repeat case_bool_decide; simplify_eq/=; try done; lia.
Qed.

(** X1: a permission that parses prints back as the string it was parsed
    from, and it is in legacy form exactly when that string has no ['(']:
    an enhanced permission always has a command. *)
Theorem ParseToolPermission_Original s tp :
  ParseToolPermission s = Ok tp →
  Stringer.String tp = s
  ∧ IsLegacyFormat tp = negb (Contains s "(")
  ∧ HasCommand tp = Contains s "(".
Proof.
  destruct (Contains s "(") eqn:Hc.
  - apply Contains_byte in Hc. rewrite (ParseToolPermission_groups s Hc).
    destruct (regexp.groups s) as [[[g1 g2] g3]|]; [|done].
    repeat case_bool_decide; try done. intros [= <-].
    unfold IsLegacyFormat, HasCommand. simpl.
    by rewrite bool_decide_false.
  - unfold ParseToolPermission. rewrite Hc. case_bool_decide; [done|].
    by intros [= <-].
Qed.

Lemma ParseToolPermission_Original_witness :
  ParseToolPermission "Edit( src/main.go )"
  = Ok {| Tool := "Edit"; Command := "src/main.go"; Pattern := "";
          Original := "Edit( src/main.go )" |}
  ∧ Stringer.String {| Tool := "Edit"; Command := "src/main.go"; Pattern := "";
                       Original := "Edit( src/main.go )" |}
    = "Edit( src/main.go )".
Proof.
  assert (ParseToolPermission "Edit( src/main.go )"
          = Ok {| Tool := "Edit"; Command := "src/main.go"; Pattern := "";
                  Original := "Edit( src/main.go )" |}) as Hparse by reflexivity.
  split; [exact Hparse|].
  exact (proj1 (ParseToolPermission_Original _ _ Hparse)).
Defined.

(** X2: the enhanced form, read through the regular expression.  If the
    string is [tool(command)] or [tool(command:pattern)], with no ['('] in
    the tool and no [':'] or [')'] in command and pattern, and tool and
    command are not blank, it parses to the three parts, each trimmed. *)
Theorem ParseToolPermission_enhanced s g1 g2 g3 :
  regexp.matches s g1 g2 g3 →
  TrimSpace g1 ≠ "" → TrimSpace g2 ≠ "" →
  ParseToolPermission s
  = Ok {| Tool := TrimSpace g1; Command := TrimSpace g2; Pattern := TrimSpace g3;
          Original := s |}.
Proof.
  intros Hm H1 H2. rewrite (ParseToolPermission_groups s (matches_paren _ _ _ _ Hm)).
  apply groups_spec in Hm. rewrite Hm. by rewrite !bool_decide_false.
Qed.

Lemma ParseToolPermission_enhanced_witness :
  regexp.matches "Write( src/** : *.go )" "Write" " src/** " " *.go "
  ∧ ParseToolPermission "Write( src/** : *.go )"
    = Ok {| Tool := "Write"; Command := "src/**"; Pattern := "*.go";
            Original := "Write( src/** : *.go )" |}.
Proof.
  assert (regexp.matches "Write( src/** : *.go )" "Write" " src/** " " *.go ") as Hm.
  { apply groups_spec. reflexivity. }
  split; [exact Hm|].
  apply (ParseToolPermission_enhanced _ _ _ _ Hm); discriminate.
Defined.

(** X3: exactly when parsing fails: on the empty string, and on a string
    with a ['('] that is not of the enhanced form with a non-blank tool and
    a non-blank command. *)
Theorem ParseToolPermission_fails_iff s :
  (∃ e, ParseToolPermission s = Err e)
  ↔ s = ""
    ∨ ("("%char ∈ bytes s
       ∧ ¬ ∃ g1 g2 g3, regexp.matches s g1 g2 g3
                       ∧ TrimSpace g1 ≠ "" ∧ TrimSpace g2 ≠ "").
Proof.
  split.
  - intros [e He]. destruct (decide (s = "")) as [|Hs]; [by left|right].
    destruct (Contains s "(") eqn:Hc.
    + apply Contains_byte in Hc. split; [done|].
      intros (g1 & g2 & g3 & Hm & H1 & H2).
      rewrite (ParseToolPermission_groups s Hc) in He.
      apply groups_spec in Hm. rewrite Hm in He.
      by rewrite !bool_decide_false in He.
    + unfold ParseToolPermission in He. rewrite Hc in He.
      by rewrite bool_decide_false in He.
  - intros [->|[Hp Hno]]; [by eexists|].
    rewrite (ParseToolPermission_groups s Hp).
    destruct (regexp.groups s) as [[[g1 g2] g3]|] eqn:Hg; [|by eexists].
    apply groups_spec in Hg.
    repeat case_bool_decide; try by eexists.
    destruct Hno. by exists g1, g2, g3.
Qed.

(** *** Parsing a list *)

Lemma parseFrom_ok permissions : ∀ i parsed tps,
  Forall2 (λ perm tp, ParseToolPermission perm = Ok tp) permissions tps →
  parseFrom i permissions parsed = Ok (parsed ++ tps).
Proof.
  induction permissions as [|perm rest IH]; intros i parsed tps Hall.
  - apply Forall2_nil_inv_l in Hall as ->. by rewrite app_nil_r.
  - apply Forall2_cons_inv_l in Hall as (tp & tps' & Hp & Hrest & ->).
    simpl. rewrite Hp, (IH _ _ tps' Hrest), <- app_assoc. done.
Qed.

Lemma parseFrom_inv permissions : ∀ i parsed out,
  parseFrom i permissions parsed = Ok out →
  ∃ tps, out = parsed ++ tps
         ∧ Forall2 (λ perm tp, ParseToolPermission perm = Ok tp) permissions tps.
Proof.
  induction permissions as [|perm rest IH]; intros i parsed out; simpl.
  - intros [= <-]. exists []. by rewrite app_nil_r.
  - destruct (ParseToolPermission perm) as [tp|e] eqn:Hp; [|done].
    intros (tps & -> & Hall)%IH. exists (tp :: tps).
    rewrite <- app_assoc. split; [done|]. by constructor.
Qed.

Lemma parseFrom_fail good : ∀ i parsed bad rest e,
  Forall (λ perm, ∃ tp, ParseToolPermission perm = Ok tp) good →
  ParseToolPermission bad = Err e →
  parseFrom i (good ++ bad :: rest) parsed
  = Err (Wrap ("error parsing permission at index " +:+ pretty (i + length good)
               +:+ ": ") e).
Proof.
  induction good as [|perm good IH]; intros i parsed bad rest e Hgood Hbad; simpl.
  - by rewrite Hbad, Nat.add_0_r.
  - apply Forall_cons in Hgood as [[tp Hp] Hgood]. rewrite Hp.
    rewrite (IH _ _ _ _ e Hgood Hbad).
    by replace (S i + length good) with (i + S (length good)) by lia.
Qed.

(** X4: [ParseToolPermissions] returns the parsed permissions, one for
    each string and in the same order, exactly when every string parses;
    otherwise it returns no permissions at all, but the error of the first
    string that does not parse, wrapped with that string's index.
    [ValidateToolPermissions] accepts exactly the lists it parses. *)
Theorem ParseToolPermissions_all_or_first_error :
  (∀ permissions tps,
     ParseToolPermissions permissions = Ok tps
     ↔ Forall2 (λ perm tp, ParseToolPermission perm = Ok tp) permissions tps)
  ∧ (∀ good bad rest e,
       Forall (λ perm, ∃ tp, ParseToolPermission perm = Ok tp) good →
       ParseToolPermission bad = Err e →
       ParseToolPermissions (good ++ bad :: rest)
       = Err (Wrap ("error parsing permission at index " +:+ pretty (length good)
                    +:+ ": ") e))
  ∧ (∀ permissions,
       ValidateToolPermissions permissions = None
       ↔ Forall (λ perm, ∃ tp, ParseToolPermission perm = Ok tp) permissions).
Proof.
  assert (∀ permissions tps,
     ParseToolPermissions permissions = Ok tps
     ↔ Forall2 (λ perm tp, ParseToolPermission perm = Ok tp) permissions tps) as Hok.
  { intros permissions tps. unfold ParseToolPermissions. split.
    - by intros (tps' & -> & Hall)%parseFrom_inv.
    - intros Hall. by rewrite (parseFrom_ok _ _ _ _ Hall). }
  split_and!; [done| |].
  - intros good bad rest e Hgood Hbad. unfold ParseToolPermissions.
    by rewrite (parseFrom_fail _ _ _ _ _ e Hgood Hbad).
  - intros permissions. unfold ValidateToolPermissions.
    destruct (ParseToolPermissions permissions) as [tps|e] eqn:Hp.
    + split; [intros _|done]. apply Hok in Hp.
      induction Hp; constructor; eauto.
    + split; [done|]. intros Hall. exfalso.
      assert (∃ tps, Forall2 (λ perm tp, ParseToolPermission perm = Ok tp)
                       permissions tps) as [tps Htps].
      { clear Hp. induction Hall as [|perm rest [tp Htp] _ [tps IH]].
        - by exists [].
        - exists (tp :: tps). by constructor. }
      apply Hok in Htps. congruence.
Qed.

Lemma ParseToolPermissions_all_or_first_error_witness :
  ParseToolPermissions ["Bash"; "Invalid()"; "Write"]
  = Err (Wrap "error parsing permission at index 1: "
           (New "invalid tool permission format: Invalid() (expected format: Tool(command) or Tool(command:pattern))"))
  ∧ ValidateToolPermissions ["Bash"; "Bash(git log)"] = None.
Proof.
  destruct ParseToolPermissions_all_or_first_error as (_ & Hfail & Hvalid).
  split.
  - apply (Hfail ["Bash"] "Invalid()" ["Write"]); [|reflexivity].
    repeat constructor. by eexists.
  - apply Hvalid. repeat constructor; by eexists.
Defined.

(** *** Matching *)

Lemma append_nil_r (s : string) : s +:+ "" = s.
Proof. apply bytes_inj. by rewrite bytes_app, app_nil_r. Qed.

Lemma append_assoc (a b c : string) : (a +:+ b) +:+ c = a +:+ b +:+ c.
Proof. apply bytes_inj. by rewrite !bytes_app, app_assoc. Qed.

Lemma HasSuffix_star_star pre : HasSuffix (pre +:+ "*") "**" = HasSuffix pre "*".
Proof.
  apply eq_true_iff_eq. rewrite !HasSuffix_app. split.
  - intros [r E]. exists r. apply bytes_inj.
    apply (f_equal bytes) in E. rewrite !bytes_app in E. simpl in E.
    rewrite bytes_app. simpl.
    change [ "*"%char; "*"%char ] with ([ "*"%char ] ++ [ "*"%char ]) in E.
    rewrite app_assoc in E. by apply (inj (λ l, l ++ [ "*"%char ])) in E.
  - intros [r ->]. exists r. by rewrite append_assoc.
Qed.

Lemma append_longer (a b c : string) :
  length (bytes c) < length (bytes b) → a +:+ b ≠ c.
Proof.
  intros Hl E. apply (f_equal bytes) in E. rewrite bytes_app in E.
  apply (f_equal length) in E. rewrite length_app in E. lia.
Qed.

Lemma TrimSuffix_app pre suffix : TrimSuffix (pre +:+ suffix) suffix = pre.
Proof.
  assert (HasSuffix (pre +:+ suffix) suffix = true) as Hs
    by (apply HasSuffix_app; by exists pre).
  rewrite (TrimSuffix_minusTrailing _ _ Hs). apply bytes_inj.
  unfold minusTrailing, bytes at 1.
  rewrite String.list_ascii_of_string_of_list_ascii, bytes_app, length_app.
  rewrite <- bytes_length.
  replace (length (bytes pre) + length (bytes suffix) - length (bytes suffix))
    with (length (bytes pre)) by lia.
  by rewrite take_app_length.
Qed.

Lemma TrimPrefix_app prefix rest : TrimPrefix (prefix +:+ rest) prefix = rest.
Proof.
  assert (HasPrefix (prefix +:+ rest) prefix = true) as Hs
    by (apply HasPrefix_app; by exists rest).
  rewrite (TrimPrefix_minusLeading _ _ Hs). apply bytes_inj.
  unfold minusLeading, bytes at 1.
  rewrite String.list_ascii_of_string_of_list_ascii, bytes_app.
  by rewrite <- bytes_length, drop_app_length.
Qed.

(** X5: a pattern made of a prefix and a final wildcard matches exactly the
    paths that start with the prefix, and one star does as much as two: it
    is not confined to one path segment. *)
Theorem MatchesPattern_prefix_wildcard tp pre path :
  (Pattern tp = pre +:+ "**" →
     MatchesPattern tp path = true ↔ ∃ rest, path = pre +:+ rest)
  ∧ (Pattern tp = pre +:+ "*" → HasSuffix pre "*" = false →
     MatchesPattern tp path = true ↔ ∃ rest, path = pre +:+ rest).
Proof.
  split.
  - intros E. unfold MatchesPattern, HasPattern. rewrite E.
    rewrite (bool_decide_false (pre +:+ "**" = ""))
      by (apply append_longer; unfold bytes; simpl; lia).
    rewrite (bool_decide_false (pre +:+ "**" = "*"))
      by (apply append_longer; unfold bytes; simpl; lia).
    assert (HasSuffix (pre +:+ "**") "**" = true) as ->
      by (apply HasSuffix_app; by exists pre).
    rewrite TrimSuffix_app, <- HasPrefix_app. simpl.
    case_bool_decide as Hp; [|done]. subst path.
    split; [intros _|done]. apply HasPrefix_app. by exists "**".
  - intros E Hpre. unfold MatchesPattern, HasPattern. rewrite E.
    rewrite (bool_decide_false (pre +:+ "*" = ""))
      by (apply append_longer; unfold bytes; simpl; lia).
    rewrite HasSuffix_star_star, Hpre.
    assert (HasSuffix (pre +:+ "*") "*" = true) as ->
      by (apply HasSuffix_app; by exists pre).
    rewrite TrimSuffix_app, <- HasPrefix_app. simpl.
    case_bool_decide as Hstar.
    { destruct pre as [|c pre].
      - split; [intros _|done]. apply HasPrefix_app. by exists path.
      - exfalso. apply (f_equal bytes) in Hstar. rewrite bytes_app in Hstar.
        apply (f_equal length) in Hstar. rewrite length_app in Hstar.
        simpl in Hstar. lia. }
    case_bool_decide as Hp; [|done]. subst path.
    split; [intros _|done]. apply HasPrefix_app. by exists "*".
Qed.

Lemma MatchesPattern_prefix_wildcard_witness :
  let tp pattern := {| Tool := "Write"; Command := "x"; Pattern := pattern;
                       Original := "" |} in
  MatchesPattern (tp "src/*") "src/pkg/deep/file.go" = true
  ∧ MatchesPattern (tp "src/**") "src/pkg/deep/file.go" = true
  ∧ MatchesPattern (tp "src/*") "lib/src/file.go" = false.
Proof.
  intros tp.
  destruct (MatchesPattern_prefix_wildcard (tp "src/*") "src/" "src/pkg/deep/file.go")
    as [_ Hone].
  destruct (MatchesPattern_prefix_wildcard (tp "src/**") "src/" "src/pkg/deep/file.go")
    as [Htwo _].
  split_and!.
  - apply (Hone eq_refl eq_refl). by exists "pkg/deep/file.go".
  - apply (Htwo eq_refl). by exists "pkg/deep/file.go".
  - reflexivity.
Defined.

(** X6: a pattern that neither starts nor ends with a star matches its own
    text and nothing else; a pattern that starts with a star and does not
    end with one matches exactly the paths that end with what follows the
    star. *)
Theorem MatchesPattern_exact_and_suffix tp path :
  Pattern tp ≠ "" → HasSuffix (Pattern tp) "*" = false →
  (HasPrefix (Pattern tp) "*" = false →
     MatchesPattern tp path = true ↔ path = Pattern tp)
  ∧ (∀ suffix, Pattern tp = "*" +:+ suffix →
       MatchesPattern tp path = true ↔ ∃ front, path = front +:+ suffix).
Proof.
  intros Hne Hs.
  assert (HasSuffix (Pattern tp) "**" = false) as Hss.
  { destruct (HasSuffix (Pattern tp) "**") eqn:E; [|done].
    apply HasSuffix_app in E as [r E]. rewrite <- Hs. symmetry.
    apply HasSuffix_app. exists (r +:+ "*"). by rewrite append_assoc. }
  assert (Pattern tp ≠ "*") as Hstar.
  { intros E. rewrite E in Hs. done. }
  unfold MatchesPattern, HasPattern.
  rewrite (bool_decide_false _ Hne), (bool_decide_false _ Hstar), Hss, Hs. simpl.
  split.
  - intros Hp. rewrite Hp. by case_bool_decide as Hq; split.
  - intros suffix E.
    assert (HasPrefix (Pattern tp) "*" = true) as ->
      by (apply HasPrefix_app; by exists suffix).
    rewrite E, TrimPrefix_app, <- HasSuffix_app.
    case_bool_decide as Hp; [|done]. subst path.
    split; [intros _|done]. apply HasSuffix_app. by exists "*".
Qed.

Lemma MatchesPattern_exact_and_suffix_witness :
  let tp pattern := {| Tool := "Write"; Command := "x"; Pattern := pattern;
                       Original := "" |} in
  MatchesPattern (tp "*.go") "cmd/main.go" = true
  ∧ (MatchesPattern (tp "go.mod") "go.mod" = true)
  ∧ (MatchesPattern (tp "a*b") "axb" = false).
Proof.
  intros tp.
  assert (Pattern (tp "*.go") ≠ "") as H1 by discriminate.
  assert (Pattern (tp "go.mod") ≠ "") as H2 by discriminate.
  destruct (MatchesPattern_exact_and_suffix (tp "*.go") "cmd/main.go" H1 eq_refl)
    as [_ Hsuffix].
  destruct (MatchesPattern_exact_and_suffix (tp "go.mod") "go.mod" H2 eq_refl)
    as [Hexact _].
  split_and!.
  - apply (Hsuffix ".go" eq_refl). by exists "cmd/main".
  - by apply (Hexact eq_refl).
  - reflexivity.
Defined.

(** *** The built-in policies and their composition *)

(** [Contains] in terms of concatenation. *)
Lemma Contains_app s substr :
  Contains s substr = true ↔ ∃ front back, s = front +:+ substr +:+ back.
Proof.
  induction s as [|c s IH].
  - change (Contains "" substr) with (HasPrefix "" substr || false).
    rewrite orb_false_r, HasPrefix_app. split.
    + intros [r E]. by exists "", r.
    + intros (front & back & E). destruct front; [|done]. by exists back.
  - change (Contains (String c s) substr)
      with (HasPrefix (String c s) substr || Contains s substr).
    rewrite orb_true_iff, IH, HasPrefix_app. split.
    + intros [[r E]|(front & back & E)].
      * by exists "", r.
      * exists (String c front), back. by rewrite E.
    + intros (front & back & E). destruct front as [|c' front].
      * left. by exists back.
      * right. injection E as -> E. by exists front, back.
Qed.

(** *** Matching a parsed permission *)

(** X25: what a parsed permission matches.  A permission parsed from a
    string without ['('] matches every command and every path of its tool,
    which is the string trimmed and also its legacy form; a permission
    parsed from the enhanced form matches a call only if the command is
    exactly the permission's command, the tool is its tool and the path
    matches its pattern. *)
Theorem Matches_parsed s tp tool command path :
  ParseToolPermission s = Ok tp →
  (Contains s "(" = false →
     Matches tp tool command path = bool_decide (TrimSpace s = tool)
     ∧ ToLegacyFormat tp = TrimSpace s)
  ∧ (Contains s "(" = true →
       Matches tp tool command path
       = bool_decide (Tool tp = tool) && bool_decide (Command tp = command)
         && MatchesPattern tp path).
Proof.
  intros Hparse. split; intros Hc.
  - unfold ParseToolPermission in Hparse. rewrite Hc in Hparse.
    case_bool_decide; [done|]. simpl in Hparse. injection Hparse as <-.
    unfold Matches, MatchesTool, MatchesCommand, MatchesPattern, HasCommand,
      HasPattern, ToLegacyFormat. simpl.
    by rewrite !andb_true_r.
  - apply Contains_byte in Hc. rewrite (ParseToolPermission_groups s Hc) in Hparse.
    destruct (regexp.groups s) as [[[g1 g2] g3]|]; [|done].
    destruct (bool_decide (TrimSpace g1 = "")); [done|].
    destruct (bool_decide (TrimSpace g2 = "")) eqn:E2; [done|].
    injection Hparse as <-.
    unfold Matches, MatchesTool, MatchesCommand, HasCommand. simpl.
    by rewrite E2.
Qed.

Lemma Matches_parsed_witness :
  let read := {| Tool := "Read"; Command := ""; Pattern := ""; Original := " Read " |} in
  let log := {| Tool := "Bash"; Command := "git log"; Pattern := "";
                Original := "Bash(git log)" |} in
  ParseToolPermission " Read " = Ok read
  ∧ Matches read "Read" "anything" "/any/path" = true
  ∧ Matches read "Write" "anything" "/any/path" = false
  ∧ ParseToolPermission "Bash(git log)" = Ok log
  ∧ Matches log "Bash" "git log" "/any/path" = true
  ∧ Matches log "Bash" "git log --oneline" "/any/path" = false.
Proof.
  intros read log.
  assert (ParseToolPermission " Read " = Ok read) as Hread by reflexivity.
  assert (ParseToolPermission "Bash(git log)" = Ok log) as Hlog by reflexivity.
  destruct (Matches_parsed _ _ "Read" "anything" "/any/path" Hread) as [H1 _].
  destruct (Matches_parsed _ _ "Write" "anything" "/any/path" Hread) as [H2 _].
  destruct (Matches_parsed _ _ "Bash" "git log" "/any/path" Hlog) as [_ H3].
  destruct (Matches_parsed _ _ "Bash" "git log --oneline" "/any/path" Hlog) as [_ H4].
  split_and!; [exact Hread| | |exact Hlog| |].
  - etrans; [exact (proj1 (H1 eq_refl))|reflexivity].
  - etrans; [exact (proj1 (H2 eq_refl))|reflexivity].
  - etrans; [exact (H3 eq_refl)|reflexivity].
  - etrans; [exact (H4 eq_refl)|reflexivity].
Defined.

Section policies.
Context `{Payloads}.
Implicit Types (cbs : list (option PermissionCallback)).

Lemma member_three (a b c key : string) :
  member (list_to_map [(a, true); (b, true); (c, true)]) key
  = bool_decide (key ∈ [a; b; c]).
Proof.
  unfold member. simpl.
  destruct (decide (key = a)) as [->|Na].
  { rewrite lookup_insert_eq. simpl. symmetry. apply bool_decide_eq_true. left. }
  rewrite lookup_insert_ne by done.
  destruct (decide (key = b)) as [->|Nb].
  { rewrite lookup_insert_eq. simpl. symmetry. apply bool_decide_eq_true.
    right. left. }
  rewrite lookup_insert_ne by done.
  destruct (decide (key = c)) as [->|Nc].
  { rewrite lookup_insert_eq. simpl. symmetry. apply bool_decide_eq_true.
    do 2 right. left. }
  rewrite lookup_insert_ne, lookup_empty by done. simpl. symmetry.
  apply bool_decide_eq_false. intros Hin.
  repeat (apply elem_of_cons in Hin as [?|Hin]; [done|]).
  by apply elem_of_nil in Hin.
Qed.

(** X7: [SafeBashCallback] decides without touching the world and without
    error.  It allows every tool but [Bash]; for [Bash] it denies exactly
    when a blocked pattern occurs in the command, naming the first such
    pattern of the list.  An empty list stands for the default patterns, so
    no list blocks nothing. *)
Theorem SafeBashCallback_decision blockedPatterns ctx toolName input w :
  let effective := if decide (blockedPatterns = []) then defaultBlockedPatterns
                   else blockedPatterns in
  let occurs pattern :=
    ∃ front back, ToolInput.Command input = front +:+ pattern +:+ back in
  let out := SafeBashCallback blockedPatterns ctx toolName input w in
  out.2 = w ∧ out.1.2 = None
  ∧ (toolName ≠ "Bash" → out.1.1 = Allow)
  ∧ (toolName = "Bash" →
       (∀ pattern, pattern ∈ effective → ¬ occurs pattern) → out.1.1 = Allow)
  ∧ (toolName = "Bash" →
       ∀ earlier pattern later,
         effective = earlier ++ pattern :: later →
         (∀ p, p ∈ earlier → ¬ occurs p) → occurs pattern →
         out.1.1 = Deny ("Blocked dangerous command pattern: " +:+ pattern)).
Proof.
  intros effective occurs out. subst out. unfold SafeBashCallback.
  assert ((if bool_decide (length blockedPatterns = 0) then defaultBlockedPatterns
           else blockedPatterns) = effective) as ->.
  { subst effective. destruct blockedPatterns; by case_decide. }
  destruct (decide (toolName = "Bash")) as [->|Hne].
  2:{ rewrite (bool_decide_false _ Hne). simpl. by split_and!. }
  simpl.
  destruct (list_find _ effective) as [[i pattern]|] eqn:F.
  - apply list_find_Some in F as (Hi & Hocc & Hfirst).
    apply Contains_app in Hocc. simpl.
    split_and!; try done.
    + intros _ Hnone. destruct (Hnone pattern); [|done].
      by apply list_elem_of_lookup_2 in Hi.
    + intros _ earlier pattern' later E Hearlier Hocc'.
      destruct (lt_eq_lt_dec i (length earlier)) as [[Hlt| ->]|Hgt].
      * destruct (Hearlier pattern); [|done].
        rewrite E, lookup_app_l in Hi by done.
        by apply list_elem_of_lookup_2 in Hi.
      * rewrite E, list_lookup_middle in Hi by done. by injection Hi as ->.
      * destruct (Hfirst (length earlier) pattern'); [|done|].
        { by rewrite E, list_lookup_middle. }
        by apply Contains_app.
  - apply list_find_None in F. rewrite Forall_forall in F. simpl.
    split_and!; try done.
    intros _ earlier pattern later E _ Hocc. destruct (F pattern).
    + rewrite E. apply elem_of_app. right. left.
    + by apply Contains_app.
Qed.

(** X8: [FilePathCallback] decides without touching the world and without
    error.  It allows every tool but [Read], [Write] and [Edit], and every
    call without a file path.  Otherwise a denied prefix of the path wins
    over everything, the first one of the list being named; without one,
    the path is allowed if no allowed paths are given or if one of them is a
    prefix of it, and denied if allowed paths are given and none is. *)
Theorem FilePathCallback_decision allowedPaths deniedPaths ctx toolName input w :
  let path := ToolInput.FilePath input in
  let under prefix := ∃ rest, path = prefix +:+ rest in
  let out := FilePathCallback allowedPaths deniedPaths ctx toolName input w in
  out.2 = w ∧ out.1.2 = None
  ∧ (toolName ∉ ["Read"; "Write"; "Edit"] ∨ path = "" → out.1.1 = Allow)
  ∧ (toolName ∈ ["Read"; "Write"; "Edit"] → path ≠ "" →
       (∀ earlier denied later,
          deniedPaths = earlier ++ denied :: later →
          (∀ d, d ∈ earlier → ¬ under d) → under denied →
          out.1.1 = Deny ("Access to path " +:+ denied +:+ " is denied"))
       ∧ ((∀ d, d ∈ deniedPaths → ¬ under d) →
            (allowedPaths = [] → out.1.1 = Allow)
            ∧ (∀ allowed, allowed ∈ allowedPaths → under allowed →
                 out.1.1 = Allow)
            ∧ (allowedPaths ≠ [] → (∀ a, a ∈ allowedPaths → ¬ under a) →
                 out.1.1
                 = Deny ("File path " +:+ path +:+ " is not in allowed paths")))).
Proof.
  intros path under out. subst out. unfold FilePathCallback.
  rewrite member_three. fold path.
  destruct (decide (toolName ∈ ["Read"; "Write"; "Edit"])) as [Hin|Hout].
  2:{ rewrite (bool_decide_false _ Hout). simpl. split_and!; try done. }
  rewrite (bool_decide_true _ Hin). simpl.
  destruct (decide (path = "")) as [Hp|Hp].
  { rewrite (bool_decide_true _ Hp). split_and!; try done. }
  rewrite (bool_decide_false _ Hp).
  destruct (list_find _ deniedPaths) as [[i denied]|] eqn:F.
  - apply list_find_Some in F as (Hi & Hocc & Hfirst).
    apply HasPrefix_app in Hocc. simpl.
    split_and!; try done; try (by intros [?|?]).
    intros _ _. split.
    + intros earlier denied' later E Hearlier Hocc'.
      destruct (lt_eq_lt_dec i (length earlier)) as [[Hlt| ->]|Hgt].
      * destruct (Hearlier denied); [|done].
        rewrite E, lookup_app_l in Hi by done.
        by apply list_elem_of_lookup_2 in Hi.
      * rewrite E, list_lookup_middle in Hi by done. by injection Hi as ->.
      * destruct (Hfirst (length earlier) denied'); [|done|].
        { by rewrite E, list_lookup_middle. }
        by apply HasPrefix_app.
    + intros Hnone. destruct (Hnone denied); [|done].
      by apply list_elem_of_lookup_2 in Hi.
  - apply list_find_None in F. rewrite Forall_forall in F.
    assert (∀ d, d ∈ deniedPaths → ¬ under d) as Hnone.
    { intros d Hd Hu. apply (F d Hd). by apply HasPrefix_app. }
    destruct (decide (allowedPaths = [])) as [->|Hne].
    { simpl. split_and!; try done; try (by intros [?|?]).
      intros _ _. split.
        + intros earlier denied later E _ Hu. destruct (Hnone denied); [|done].
          rewrite E. apply elem_of_app. right. left.
        + intros _. split_and!; try done; by intros a ?%elem_of_nil. }
    rewrite bool_decide_true by (destruct allowedPaths; [done|simpl; lia]).
    destruct (list_find _ allowedPaths) as [[j allowed]|] eqn:G.
    + apply list_find_Some in G as (Hj & Hal & _). apply HasPrefix_app in Hal.
      simpl. split_and!; try done; try (by intros [?|?]).
      intros _ _. split.
      * intros earlier denied later E _ Hu. destruct (Hnone denied); [|done].
        rewrite E. apply elem_of_app. right. left.
      * intros _. split_and!; try done.
        intros _ Hno. destruct (Hno allowed); [|done].
        by apply list_elem_of_lookup_2 in Hj.
    + apply list_find_None in G. rewrite Forall_forall in G. simpl.
      split_and!; try done; try (by intros [?|?]).
      intros _ _. split.
      * intros earlier denied later E _ Hu. destruct (Hnone denied); [|done].
        rewrite E. apply elem_of_app. right. left.
      * intros _. split_and!; try done.
        intros allowed Hal Hu. destruct (G allowed); [done|].
        by apply HasPrefix_app.
Qed.

Lemma chain_shape cbs ctx toolName input w :
  let out := chain cbs ctx toolName input w in
  (∃ e, out.1 = ({| Behavior := ""; Message := "" |}, Some e))
  ∨ (out.1 = (Allow, None))
  ∨ (∃ r, out.1 = (r, None) ∧ Behavior r ≠ PermissionAllow).
Proof.
  revert w. induction cbs as [|[cb|] cbs IH]; intros w; simpl.
  - right. by left.
  - destruct (cb ctx toolName input w) as [[result [e|]] w']; simpl.
    + left. by exists e.
    + case_bool_decide as Hb; simpl; [apply IH|].
      right. right. by exists result.
  - apply IH.
Qed.

(** X9: chains nest.  A chain used as a callback inside another chain
    decides as if its callbacks stood there themselves, and a chain of
    nothing allows. *)
Theorem ChainCallbacks_nest cbs1 cbs2 ctx toolName input w :
  ChainCallbacks [Some (ChainCallbacks cbs1); Some (ChainCallbacks cbs2)]
    ctx toolName input w
  = ChainCallbacks (cbs1 ++ cbs2) ctx toolName input w
  ∧ ChainCallbacks [] ctx toolName input w = ((Allow, None), w).
Proof.
  split; [|done]. unfold ChainCallbacks. revert w.
  assert (∀ w, chain [Some (ChainCallbacks cbs2)] ctx toolName input w
               = chain cbs2 ctx toolName input w) as Hlast.
  { intros w. simpl. unfold ChainCallbacks.
    pose proof (chain_shape cbs2 ctx toolName input w) as Hs. simpl in Hs.
    destruct (chain cbs2 ctx toolName input w) as [[r err] w'].
    destruct Hs as [[e [= -> ->]]|[[= -> ->]|(r' & [= -> ->] & Hr)]]; simpl.
    - done.
    - done.
    - by rewrite bool_decide_false. }
  induction cbs1 as [|[cb|] cbs1 IH]; intros w.
  - change ([] ++ cbs2) with cbs2. rewrite <- Hlast. done.
  - specialize (IH). simpl in *. unfold ChainCallbacks in *. simpl.
    destruct (cb ctx toolName input w) as [[result [e|]] w']; simpl; [done|].
    case_bool_decide as Hb; simpl.
    + apply IH.
    + by rewrite bool_decide_false.
  - simpl in *. apply IH.
Qed.

(** X10: [ReadOnlyCallback] in front of a chain gates it: for a tool other
    than [Read], [Grep] and [Glob] the chain denies and the world is left
    as it was, so no later callback has run; for these three tools the
    chain decides as the rest of it does. *)
Theorem ReadOnlyCallback_gate cbs ctx toolName input w :
  (toolName ∉ ["Read"; "Grep"; "Glob"] →
     ChainCallbacks (Some ReadOnlyCallback :: cbs) ctx toolName input w
     = ((Deny "Only read-only operations are allowed", None), w))
  ∧ (toolName ∈ ["Read"; "Grep"; "Glob"] →
       ChainCallbacks (Some ReadOnlyCallback :: cbs) ctx toolName input w
       = ChainCallbacks cbs ctx toolName input w).
Proof.
  unfold ChainCallbacks. simpl. unfold ReadOnlyCallback. rewrite member_three.
  split; intros Hin.
  - by rewrite (bool_decide_false _ Hin).
  - by rewrite (bool_decide_true _ Hin).
Qed.
End policies.

Section policies_examples.
#[local] Existing Instance demo.payloads.

Lemma SafeBashCallback_decision_witness :
  (SafeBashCallback [] tt "Bash" (demo.bash "sudo rm -rf /") 0).1.1
  = Deny "Blocked dangerous command pattern: rm -rf"
  ∧ (SafeBashCallback ["git push"] tt "Bash" (demo.bash "sudo rm -rf /") 0).1.1
    = Allow
  ∧ (SafeBashCallback [] tt "Write" (demo.bash "sudo rm -rf /") 0).1.1 = Allow.
Proof.
  destruct (@SafeBashCallback_decision demo.payloads [] tt "Bash"
              (demo.bash "sudo rm -rf /") 0) as (_ & _ & _ & _ & Hdeny).
  destruct (@SafeBashCallback_decision demo.payloads ["git push"] tt "Bash"
              (demo.bash "sudo rm -rf /") 0) as (_ & _ & _ & Hallow & _).
  destruct (@SafeBashCallback_decision demo.payloads [] tt "Write"
              (demo.bash "sudo rm -rf /") 0) as (_ & _ & Hother & _).
  split_and!.
  - apply (Hdeny eq_refl [] "rm -rf" (tail defaultBlockedPatterns) eq_refl).
    + by intros p ?%elem_of_nil.
    + by exists "sudo ", " /".
  - apply (Hallow eq_refl). intros pattern ->%list_elem_of_singleton Hocc.
    apply Contains_app in Hocc. discriminate Hocc.
  - apply Hother. discriminate.
Defined.

Lemma FilePathCallback_decision_witness :
  (FilePathCallback ["/home/user"] ["/home/user/.ssh"] tt "Write"
     (demo.file "/home/user/.ssh/id_rsa") 0).1.1
  = Deny "Access to path /home/user/.ssh is denied"
  ∧ (FilePathCallback ["/home/user"] ["/home/user/.ssh"] tt "Write"
       (demo.file "/home/username/notes") 0).1.1
    = Allow
  ∧ (FilePathCallback ["/home/user"] ["/home/user/.ssh"] tt "Edit"
       (demo.file "/etc/passwd") 0).1.1
    = Deny "File path /etc/passwd is not in allowed paths".
Proof.
  assert ("Write" ∈ ["Read"; "Write"; "Edit"]) as Hw by (right; left).
  assert ("Edit" ∈ ["Read"; "Write"; "Edit"]) as He by (do 2 right; left).
  destruct (@FilePathCallback_decision demo.payloads ["/home/user"]
              ["/home/user/.ssh"] tt "Write" (demo.file "/home/user/.ssh/id_rsa") 0)
    as (_ & _ & _ & H1).
  destruct (@FilePathCallback_decision demo.payloads ["/home/user"]
              ["/home/user/.ssh"] tt "Write" (demo.file "/home/username/notes") 0)
    as (_ & _ & _ & H2).
  destruct (@FilePathCallback_decision demo.payloads ["/home/user"]
              ["/home/user/.ssh"] tt "Edit" (demo.file "/etc/passwd") 0)
    as (_ & _ & _ & H3).
  split_and!.
  - destruct (H1 Hw) as [Hdenied _]; [discriminate|].
    apply (Hdenied [] "/home/user/.ssh" [] eq_refl).
    + by intros d ?%elem_of_nil.
    + by exists "/id_rsa".
  - destruct (H2 Hw) as [_ Hfree]; [discriminate|].
    destruct Hfree as (_ & Hallowed & _).
    + intros d ->%list_elem_of_singleton Hu%HasPrefix_app. discriminate Hu.
    + apply (Hallowed "/home/user"); [left|]. by exists "name/notes".
  - destruct (H3 He) as [_ Hfree]; [discriminate|].
    destruct Hfree as (_ & _ & Hnone).
    + intros d ->%list_elem_of_singleton Hu%HasPrefix_app. discriminate Hu.
    + apply Hnone; [discriminate|].
      intros a ->%list_elem_of_singleton Hu%HasPrefix_app. discriminate Hu.
Defined.

Lemma ReadOnlyCallback_gate_witness :
  ChainCallbacks [Some ReadOnlyCallback; Some (demo.counting Allow)]
    tt "Write" demo.input 0
  = ((Deny "Only read-only operations are allowed", None), 0)
  ∧ ChainCallbacks [Some ReadOnlyCallback; Some (demo.counting Allow)]
      tt "Grep" demo.input 0
    = ((Allow, None), 1).
Proof.
  destruct (@ReadOnlyCallback_gate demo.payloads [Some (demo.counting Allow)]
              tt "Write" demo.input 0) as [Hdeny _].
  destruct (@ReadOnlyCallback_gate demo.payloads [Some (demo.counting Allow)]
              tt "Grep" demo.input 0) as [_ Hpass].
  split.
  - apply Hdeny. intros Hin.
    repeat (apply elem_of_cons in Hin as [Heq|Hin]; [discriminate Heq|]).
    by apply elem_of_nil in Hin.
  - rewrite Hpass; [reflexivity|]. right. left.
Defined.
End policies_examples.
End permissions_more.

(** ** The budget tracker: limits, the warning latch, resets *)

Module budget_more.
Import budget budget_proofs.



Section tracker.
Context `{Payloads}.

(** X11: [RemainingBudget] is negative only as the sentinel of a tracker
    without a limit: it is -1 when the maximum is at most 0, and otherwise
    it is not below 0 however much was spent. *)
Theorem RemainingBudget_sign bt :
  (PrimFloat.leb (MaxBudgetUSD (config bt)) 0 = true →
     RemainingBudget bt = (-1)%float)
  ∧ (PrimFloat.ltb (RemainingBudget bt) 0 = true
     ↔ PrimFloat.leb (MaxBudgetUSD (config bt)) 0 = true).
Proof.
  unfold RemainingBudget.
  destruct (PrimFloat.leb (MaxBudgetUSD (config bt)) 0) eqn:E.
  - split; [done|]. split; [done|]. intros _. reflexivity.
  - split; [done|]. split; [|done].
    destruct (PrimFloat.ltb (MaxBudgetUSD (config bt) - totalSpent bt) 0) eqn:E';
      [|by rewrite E'].
    intros Hneg. exfalso. revert Hneg. vm_compute. discriminate.
Qed.


(** One [AddSpend] of a tracker without an exceeded hook starts at most the
    one warning that is still due. *)
Lemma AddSpend_warning bt sessionID amount :
  OnBudgetExceeded (config bt) = None →
  let out := AddSpend bt sessionID amount in
  config out.1.2 = config bt
  ∧ length out.2 + (if warningEmitted out.1.2 then 0 else 1)
    ≤ (if warningEmitted bt then 0 else 1).
Proof.
  intros Hex. unfold AddSpend. rewrite Hex. cbv zeta.
  destruct (warningEmitted bt); simpl.
  - rewrite !andb_false_r. simpl. by case_match.
  - rewrite andb_true_r.
    destruct (PrimFloat.ltb 0 (MaxBudgetUSD (config bt))
              && PrimFloat.ltb 0 (WarningThreshold (config bt))
              && PrimFloat.leb _ _); simpl.
    + destruct (OnBudgetWarning (config bt)); simpl; case_match; simpl;
        rewrite ?app_nil_r; simpl; split; try done; lia.
    + by case_match.
Qed.

(** X13: the budget warning is latched.  While the configuration stays, a
    tracker without an exceeded hook starts, over any sequence of
    [AddSpend], [ResetSession] and [Reset] calls, at most one notification
    for each time the latch was open: once at the start unless the warning
    was already emitted, and once more after each [Reset].  [ResetSession]
    does not re-arm it, even when spending falls below the threshold
    again. *)
Theorem warning_once_per_reset ops : ∀ bt,
  OnBudgetExceeded (config bt) = None →
  length (run bt ops).2 ≤ (if warningEmitted bt then 0 else 1) + resets ops.
Proof.
  induction ops as [|[sessionID amount|sessionID|] ops IH]; intros bt Hex; simpl.
  - lia.
  - destruct (AddSpend_warning bt sessionID amount Hex) as [Hcfg Hlen].
    destruct (AddSpend bt sessionID amount) as [[err bt'] started]. simpl in *.
    assert (OnBudgetExceeded (config bt') = None) as Hex' by (by rewrite Hcfg).
    specialize (IH bt' Hex').
    destruct (run bt' ops) as [bt'' later]. simpl in *.
    rewrite length_app. lia.
  - assert (OnBudgetExceeded (config (ResetSession bt sessionID)) = None
            ∧ warningEmitted (ResetSession bt sessionID) = warningEmitted bt)
      as [Hex' Hw].
    { unfold ResetSession. by destruct (sessionSpent bt !! sessionID). }
    specialize (IH _ Hex'). by rewrite Hw in IH.
  - specialize (IH (Reset bt) Hex). simpl in IH.
    destruct (warningEmitted bt); lia.
Qed.

End tracker.

Section tracker_examples.
#[local] Existing Instance demo.payloads.


(** A limit of 10 with the warning at 7.5: spending 9, resetting the
    session and spending 9 again starts the warning once. *)
Lemma warning_once_per_reset_witness :
  let bt := NewBudgetTracker
              (Some {| MaxBudgetUSD := 10; WarningThreshold := 0.75;
                       OnBudgetWarning := Some demo.notified;
                       OnBudgetExceeded := None |}) in
  let ops := [OAddSpend "s1" 9; OResetSession "s1"; OAddSpend "s1" 9] in
  OnBudgetExceeded (config bt) = None
  ∧ length (run bt ops).2 ≤ 1
  ∧ length (run bt ops).2 = 1.
Proof.
  intros bt ops. split; [reflexivity|]. split; [|reflexivity].
  exact (warning_once_per_reset ops bt eq_refl).
Defined.

End tracker_examples.
End budget_more.

(** ** The plugin registry: names, registration, removal, enabling *)

Module plugin_more.
Import permissions plugin spec plugin_proofs.

Section registry_more.
Context `{Payloads}.
Implicit Types (s : State) (entry : pluginEntry) (entries : list pluginEntry).

Lemma find_name_None name entries :
  list_find (hasName name) entries = None ↔ name ∉ registered entries.
Proof.
  rewrite list_find_None, Forall_forall. split.
  - intros Hno (entry & -> & Hin)%list_elem_of_fmap. by apply (Hno entry Hin).
  - intros Hno entry Hin Hname. apply Hno, list_elem_of_fmap. by exists entry.
Qed.

Lemma find_name_Some name entries i entry :
  list_find (hasName name) entries = Some (i, entry) →
  ∃ l1 l2, entries = l1 ++ entry :: l2 ∧ length l1 = i
           ∧ take i entries = l1 ∧ drop (S i) entries = l2
           ∧ Plugin.Name (plugin entry) = name ∧ name ∉ registered l1.
Proof.
  intros (Hi & Hname & Hbefore)%list_find_Some.
  exists (take i entries), (drop (S i) entries).
  pose proof (lookup_lt_Some _ _ _ Hi) as Hlt.
  split_and!; try done.
  - by rewrite take_drop_middle.
  - rewrite length_take. lia.
  - intros (x & Hx & Hin)%list_elem_of_fmap.
    apply list_elem_of_lookup in Hin as [j Hj].
    pose proof (lookup_lt_Some _ _ _ Hj) as Hjlt. rewrite length_take in Hjlt.
    rewrite lookup_take_lt in Hj by lia.
    apply (Hbefore j x Hj); [lia|]. by unfold hasName.
Qed.


(** The outcomes of [Register]. *)
Lemma Register_cases plugin config s :
  match Register plugin config s with
  | (Some e, s') =>
      s' = s
      ∧ (plugin = None ∧ e = New "plugin cannot be nil"
         ∨ ∃ p, plugin = Some p
             ∧ (Plugin.Name p = "" ∧ e = New "plugin name cannot be empty"
                ∨ (Plugin.Name p ≠ "" ∧ Plugin.Name p ∈ registered (plugins (pm s))
                   ∧ e = New ("plugin with name '" +:+ Plugin.Name p
                              +:+ "' already registered"))))
  | (None, s') =>
      ∃ p c, plugin = Some p ∧ Plugin.Name p ≠ ""
        ∧ (Plugin.Name p ∉ registered (plugins (pm s)))
        ∧ pm s' = {| plugins :=
                       insertEntry {| plugin.plugin := p; plugin.config := Some c;
                                      priority := effectivePriority (heap s) config |}
                         (plugins (pm s));
                     initialized := initialized (pm s) |}
        ∧ heap s `prefix_of` heap s'
        ∧ world s' = world s ∧ calls s' = calls s
  end.
Proof.
  destruct plugin as [p|]; [|simpl; split; [done|by left]].
  destruct (Register (Some p) config s) as [[e|] s'] eqn:R.
  - unfold Register in R. case_bool_decide as Hname.
    { injection R as <- <-. split; [done|]. right. exists p. split; [done|]. by left. }
    unfold bind, gets in R.
    destruct (list_find _ _) as [[i x]|] eqn:F.
    + injection R as <- <-. split; [done|]. right. exists p. split; [done|]. right.
      split_and!; [done| |done].
      apply find_name_Some in F as (l1 & l2 & -> & _ & _ & _ & Hx & _).
      unfold registered. rewrite fmap_app, fmap_cons, Hx. apply elem_of_app. right. left.
    + destruct config; simpl in R; unfold ret in R; simpl in R; discriminate.
  - pose proof R as (c & Hpm & Hheap & Hw & Hc)%Register_success.
    exists p, c. split_and!; try done.
    + unfold Register in R. by case_bool_decide.
    + unfold Register in R. case_bool_decide; [done|]. unfold bind, gets in R.
      destruct (list_find _ _) as [[i x]|] eqn:F; [done|].
      by apply find_name_None.
Qed.

(** The registry's well-formedness: no two entries share a name, no entry
    has the empty name, and every entry has a config cell. *)
Lemma wf_insertEntry entry entries :
  NoDup (registered entries) → Plugin.Name (plugin entry) ∉ registered entries →
  NoDup (registered (insertEntry entry entries)).
Proof.
  intros Hnd Hfresh.
  assert (registered (insertEntry entry entries)
          ≡ₚ Plugin.Name (plugin entry) :: registered entries) as ->.
  { unfold registered. rewrite insertEntry_Permutation, fmap_app. simpl.
    by rewrite <- Permutation_cons_append. }
  by apply NoDup_cons.
Qed.

Lemma elem_of_insertEntry x entry entries :
  x ∈ insertEntry entry entries ↔ x = entry ∨ x ∈ entries.
Proof.
  rewrite insertEntry_Permutation, elem_of_app, list_elem_of_singleton. tauto.
Qed.

Lemma registered_insert i x y entries :
  entries !! i = Some x → plugin y = plugin x →
  registered (<[i := y]> entries) = registered entries.
Proof.
  intros Hi Hy. unfold registered. rewrite list_fmap_insert, Hy.
  apply list_insert_id. by rewrite list_lookup_fmap, Hi.
Qed.

Lemma exec_registry o s :
  let good entries :=
    NoDup (registered entries) ∧ ("" ∉ registered entries)
    ∧ Forall (λ entry, config entry ≠ None) entries in
  good (plugins (pm s)) → good (plugins (pm (exec o s).2)).
Proof.
  intros good (Hnd & Hne & Hcfg).
  assert (∀ s', plugins (pm s') = plugins (pm s) → good (plugins (pm s'))) as Hsame.
  { intros s' ->. done. }
  destruct o as [c|p c|f|plg cfg|name|ctx|ctx toolName input|ctx msg
                |ctx result|ctx| | | |name enabled]; simpl.
  - by apply Hsame.
  - by apply Hsame.
  - by apply Hsame.
  - unfold bind. pose proof (Register_cases plg cfg s) as R.
    destruct (Register plg cfg s) as [[e|] s']; simpl.
    + destruct R as [-> _]. done.
    + destruct R as (p & c & -> & Hname & Hfresh & -> & _). simpl.
      split_and!.
      * by apply wf_insertEntry.
      * intros (x & Hx & [->|Hin]%elem_of_insertEntry)%list_elem_of_fmap; [done|].
        apply Hne, list_elem_of_fmap. by exists x.
      * apply Forall_forall. intros x [->|Hin]%elem_of_insertEntry; [done|].
        rewrite Forall_forall in Hcfg. by apply Hcfg.
  - unfold Unregister, bind, gets, ret.
    destruct (list_find (hasName name) (plugins (pm s))) as [[i x]|] eqn:F; simpl;
      [|done].
    apply find_name_Some in F as (l1 & l2 & E & _ & E1 & E2 & _ & _).
    rewrite E1, E2. clear E1 E2. subst good. cbv beta.
    rewrite E in Hnd, Hne, Hcfg. unfold registered in *.
    rewrite fmap_app, fmap_cons in Hnd, Hne. rewrite fmap_app.
    split_and!.
    + apply NoDup_app in Hnd as (N1 & N12 & [_ N2]%NoDup_cons).
      apply NoDup_app. split_and!; [done| |done].
      intros n Hn1 Hn2. apply (N12 n Hn1). by right.
    + intros [?|?]%elem_of_app; apply Hne, elem_of_app; [by left|right; by right].
    + apply Forall_app in Hcfg as [C1 [_ C2]%Forall_cons]. by apply Forall_app.
  - apply Hsame. unfold Initialize, bind, gets.
    destruct (initialized (pm s)); [done|].
    destruct (rangeEnabled_after HInitialize (λ p, Plugin.Initialize p ctx)
                (λ name, "failed to initialize plugin '" +:+ name +:+ "': ")
                (plugins (pm s)) s) as (invoked & w & E & _).
    destruct (rangeEnabled _ _ _ _ s) as [[e|] s']; simpl in *; by subst s'.
  - apply Hsame. unfold OnToolCall, bind, gets.
    destruct (rangeEnabled_after HOnToolCall (λ p, Plugin.OnToolCall p ctx toolName input)
                (λ name, "plugin '" +:+ name +:+ "' rejected tool call: ")
                (plugins (pm s)) s) as (invoked & w & E & _).
    destruct (rangeEnabled _ _ _ _ s) as [e s']; simpl in *; by subst s'.
  - apply Hsame. unfold OnMessage, bind, gets.
    destruct (rangeEnabled_after HOnMessage (λ p, Plugin.OnMessage p ctx msg)
                (λ name, "plugin '" +:+ name +:+ "' error on message: ")
                (plugins (pm s)) s) as (invoked & w & E & _).
    destruct (rangeEnabled _ _ _ _ s) as [e s']; simpl in *; by subst s'.
  - apply Hsame. unfold OnComplete, bind, gets.
    destruct (rangeEnabled_after HOnComplete (λ p, Plugin.OnComplete p ctx result)
                (λ name, "plugin '" +:+ name +:+ "' error on complete: ")
                (plugins (pm s)) s) as (invoked & w & E & _).
    destruct (rangeEnabled _ _ _ _ s) as [e s']; simpl in *; by subst s'.
  - apply Hsame. unfold Shutdown, bind, gets. by rewrite shutdownLoop_spec.
  - by apply Hsame.
  - by apply Hsame.
  - by apply Hsame.
  - unfold SetEnabled, bind, gets, ret.
    destruct (list_find (hasName name) (plugins (pm s))) as [[i x]|] eqn:F;
      simpl; [|done].
    destruct (config x) eqn:Cx; simpl; [done|].
    apply list_find_Some in F as (Hi & _ & _).
    subst good. cbv beta. rewrite (registered_insert i x) by done.
    split_and!; [done..|]. apply Forall_insert; done.
Qed.

Lemma run_registry ops : ∀ s,
  let good entries :=
    NoDup (registered entries) ∧ ("" ∉ registered entries)
    ∧ Forall (λ entry, config entry ≠ None) entries in
  good (plugins (pm s)) → good (plugins (pm (run ops s).2)).
Proof.
  induction ops as [|o ops IH]; intros s good Hgood; [done|].
  simpl. unfold bind. pose proof (exec_registry o s Hgood) as Ho.
  destruct (exec o s) as [[] s1]. by apply IH.
Qed.

(** X15: in every history of a manager, the registered names are pairwise
    distinct and none is empty, and every entry has a config: [Register]
    gives one to a plugin registered without, so the [nil] config that
    the hook loops and [SetEnabled] provide for never occurs. *)
Theorem registered_names_unique ops w :
  let s := (run ops (start w)).2 in
  NoDup (List s).1 ∧ ("" ∉ (List s).1)
  ∧ Forall (λ entry, config entry ≠ None) (plugins (pm s)).
Proof.
  apply (run_registry ops (start w)). simpl.
  split_and!; [constructor|by intros ?%elem_of_nil|constructor].
Qed.

(** X16: [Register] fails exactly for a [nil] plugin, a plugin without a
    name, and a name that is already registered, whatever the config; a
    [Register] that fails leaves the manager, the configs and the world as
    they were. *)
Theorem Register_rejects plugin config s :
  ((Register plugin config s).1 ≠ None
   ↔ plugin = None
     ∨ ∃ p, plugin = Some p ∧ (Plugin.Name p = "" ∨ Plugin.Name p ∈ (List s).1))
  ∧ ((Register plugin config s).1 ≠ None → (Register plugin config s).2 = s)
  ∧ (∀ p, plugin = Some p → Plugin.Name p ≠ "" → Plugin.Name p ∈ (List s).1 →
       (Register plugin config s).1
       = Some (New ("plugin with name '" +:+ Plugin.Name p
                    +:+ "' already registered"))).
Proof.
  pose proof (Register_cases plugin config s) as R.
  change (List s).1 with (registered (plugins (pm s))).
  destruct (Register plugin config s) as [[e|] s']; simpl.
  - destruct R as [-> R]. split_and!; [|done|].
    + split; [intros _|done].
      destruct R as [[-> _]|(p & -> & [[Hp _]|(_ & Hp & _)])];
        [by left|right; exists p; auto..].
    + intros p -> Hname Hin.
      destruct R as [[? _]|(p' & [= <-] & [[Hp _]|(_ & _ & ->)])]; done.
  - destruct R as (p & c & -> & Hname & Hfresh & _). split_and!; [|done|].
    + split; [done|]. intros [?|(p' & [= <-] & [?|?])]; done.
    + by intros p' [= <-] _ Hin.
Qed.


Lemma Get_find name s :
  (Get name s).1 = (plugin ∘ snd <$> list_find (hasName name) (plugins (pm s))).
Proof.
  unfold Get, bind, gets, ret. simpl. by destruct (list_find _ _) as [[]|].
Qed.


Lemma filter_all {A} (P : A → Prop) `{∀ x, Decision (P x)} (l : list A) :
  Forall P l → filter P l = l.
Proof.
  induction 1 as [|x l Hx Hl IH]; [done|].
  by rewrite filter_cons_True, IH.
Qed.

(** X18: in every history, [Unregister] of a name that is not registered
    fails and changes nothing; [Unregister] of a registered name removes
    that entry and keeps the others in their order, so that [Get] no longer
    finds the name and [Count] drops by one.  It invokes no hook: the
    plugin's [Shutdown] is not called, and the manager stays initialized if
    it was. *)
Theorem Unregister_removes ops w name :
  let s := (run ops (start w)).2 in
  let out := Unregister name s in
  (name ∉ (List s).1 → out = (Some (New ("plugin '" +:+ name +:+ "' not found")), s))
  ∧ (name ∈ (List s).1 →
       out.1 = None
       ∧ (List out.2).1 = filter (λ n, n ≠ name) (List s).1
       ∧ (Get name out.2).1 = None
       ∧ S (Count out.2).1 = (Count s).1
       ∧ calls out.2 = calls s ∧ world out.2 = world s ∧ heap out.2 = heap s
       ∧ initialized (pm out.2) = initialized (pm s)).
Proof.
  intros s out.
  assert (NoDup (registered (plugins (pm s)))) as Hnd.
  { apply (run_registry ops (start w)). simpl.
    split_and!; [constructor|by intros ?%elem_of_nil|constructor]. }
  change (List s).1 with (registered (plugins (pm s))).
  subst out. unfold Unregister, bind, gets, ret.
  destruct (list_find (hasName name) (plugins (pm s))) as [[i x]|] eqn:F.
  - pose proof F as (l1 & l2 & E & Hlen & E1 & E2 & Hx & Hl1)%find_name_Some.
    split.
    { intros Hno. apply find_name_None in Hno. by rewrite Hno in F. }
    intros _. simpl. rewrite E1, E2.
    rewrite E in Hnd. unfold registered in Hnd, Hl1 |- *.
    rewrite fmap_app, fmap_cons, Hx in Hnd.
    apply NoDup_app in Hnd as (N1 & N12 & [Hl2 N2]%NoDup_cons).
    split_and!; try done.
    + rewrite E, !fmap_app, fmap_cons, Hx, filter_app, filter_cons_False
        by (intros Hn; by apply Hn).
      rewrite !filter_all; [done|..]; apply Forall_forall; by intros n Hn ->.
    + assert (list_find (hasName name) (l1 ++ l2) = None) as ->; [|done].
      apply find_name_None. unfold registered. rewrite fmap_app.
      by intros [?|?]%elem_of_app.
    + unfold Count, bind, gets, ret. simpl. rewrite E, !length_app. simpl. lia.
  - split; [done|]. intros Hin. by apply find_name_None in F.
Qed.

Lemma find_name_NoDup name entries entry :
  NoDup (registered entries) → entry ∈ entries →
  Plugin.Name (plugin entry) = name →
  ∃ i, list_find (hasName name) entries = Some (i, entry).
Proof.
  intros Hnd Hin Hname.
  destruct (list_find (hasName name) entries) as [[i x]|] eqn:F.
  - exists i. do 2 f_equal.
    apply find_name_Some in F as (l1 & l2 & -> & _ & _ & _ & Hx & Hl1).
    unfold registered in Hnd, Hl1. rewrite fmap_app, fmap_cons, Hx in Hnd.
    apply NoDup_app in Hnd as (_ & _ & [Hl2 _]%NoDup_cons).
    apply elem_of_app in Hin as [Hin|[->|Hin]%elem_of_cons]; [|done|].
    + destruct Hl1. apply list_elem_of_fmap. by exists entry.
    + destruct Hl2. apply list_elem_of_fmap. by exists entry.
  - apply find_name_None in F. destruct F.
    apply list_elem_of_fmap. by exists entry.
Qed.

(** X19: [SetEnabled] of a name that is not registered fails and changes
    nothing.  For a registered plugin it writes the flag into the plugin's
    config cell, which the caller of [Register] still holds: the registry,
    the cell's priority and settings, the world and the record of
    invocations stay, an entry is disabled afterwards exactly if it uses
    that cell and the flag is off or it uses another cell and was disabled
    before. *)
Theorem SetEnabled_toggles name enabled s :
  (name ∉ (List s).1 →
     SetEnabled name enabled s
     = (Some (New ("plugin '" +:+ name +:+ "' not found")), s))
  ∧ (∀ entry p,
       NoDup (List s).1 → entry ∈ plugins (pm s) →
       Plugin.Name (plugin entry) = name →
       config entry = Some p → p < length (heap s) →
       let out := SetEnabled name enabled s in
       out.1 = None ∧ pm out.2 = pm s
       ∧ world out.2 = world s ∧ calls out.2 = calls s
       ∧ (∀ q, deref (heap out.2) q
               = if decide (q = p)
                 then {| Enabled := enabled; Priority := Priority (deref (heap s) p);
                         Config := Config (deref (heap s) p) |}
                 else deref (heap s) q)
       ∧ (∀ e, disabled (heap out.2) e
               = if decide (config e = Some p) then negb enabled
                 else disabled (heap s) e)).
Proof.
  change (List s).1 with (registered (plugins (pm s))). split.
  - intros Hno%find_name_None. unfold SetEnabled, bind, gets. by rewrite Hno.
  - intros entry p Hnd Hin Hname Hcfg Hp out.
    destruct (find_name_NoDup name _ entry Hnd Hin Hname) as [i F].
    subst out. unfold SetEnabled, bind, gets. rewrite F, Hcfg. simpl.
    assert (∀ q, deref (<[p := {| Enabled := enabled;
                                  Priority := Priority (deref (heap s) p);
                                  Config := Config (deref (heap s) p) |}]> (heap s)) q
                 = if decide (q = p)
                   then {| Enabled := enabled; Priority := Priority (deref (heap s) p);
                           Config := Config (deref (heap s) p) |}
                   else deref (heap s) q) as Hderef.
    { intros q. unfold deref at 1. case_decide as Hq.
      - subst q. by rewrite list_lookup_insert_eq.
      - by rewrite list_lookup_insert_ne. }
    split_and!; try done; try (by destruct (pm s)).
    intros e. unfold disabled. destruct (config e) as [q|] eqn:Ce.
    + rewrite Hderef. case_decide as Hq.
      * subst q. by rewrite decide_True.
      * rewrite decide_False; [done|]. by intros [= ->].
    + by rewrite decide_False.
Qed.

(** X20: a failed [Initialize] is not remembered.  On a manager that is
    not initialized, if the [Initialize] hook first fails on [entry], the
    enabled entries before it and [entry] have been invoked, the error comes
    back wrapped with the name of [entry], and the manager is still not
    initialized: the plugins already initialized are not shut down, and the
    next [Initialize] invokes the hook of every enabled entry, theirs
    included, once more. *)
Theorem Initialize_failure_not_latched ctx s before entry later w1 err w2 :
  initialized (pm s) = false →
  enabledEntries (heap s) (plugins (pm s)) = before ++ entry :: later →
  allSucceed (λ p, Plugin.Initialize p ctx) before (world s) = Some w1 →
  Plugin.Initialize (plugin entry) ctx w1 = (Some err, w2) →
  let s1 := after s HInitialize (before ++ [entry]) w2 in
  Initialize ctx s
  = (Some (Wrap ("failed to initialize plugin '" +:+ Plugin.Name (plugin entry)
                 +:+ "': ") err), s1)
  ∧ initialized (pm s1) = false
  ∧ (∀ w', allSucceed (λ p, Plugin.Initialize p ctx) (before ++ entry :: later) w2
           = Some w' →
           Initialize ctx s1
           = (None, withInitialized true
                      (after s1 HInitialize (before ++ entry :: later) w'))).
Proof.
  intros Hinit Hdec Hbefore Hfail s1.
  assert (Forall (enabledIn s) (before ++ entry :: later)) as Hen.
  { rewrite <- Hdec. apply Forall_enabledEntries. }
  split_and!.
  - rewrite (Initialize_runs ctx s Hinit), rangeEnabled_filter, Hdec.
    by rewrite (rangeEnabled_fail _ _ _ _ _ _ _ w1 err w2).
  - done.
  - intros w' Hall.
    rewrite (Initialize_runs ctx s1 Hinit), rangeEnabled_filter.
    change (heap s1) with (heap s). change (plugins (pm s1)) with (plugins (pm s)).
    rewrite Hdec. by rewrite (rangeEnabled_ok _ _ _ _ s1 w' Hen Hall).
Qed.

(** X26: the queries agree with one another and change nothing.  [List],
    [Get] and [Count] leave the manager as it is; [Count] is the number of
    names that [List] returns; [Get] finds a plugin exactly for the names
    that [List] returns, and the plugin it finds has that name. *)
Theorem queries_agree name s :
  (List s).2 = s ∧ (Get name s).2 = s ∧ (Count s).2 = s
  ∧ (Count s).1 = length (List s).1
  ∧ ((Get name s).1 = None ↔ name ∉ (List s).1)
  ∧ (∀ p, (Get name s).1 = Some p → Plugin.Name p = name ∧ name ∈ (List s).1).
Proof.
  change (List s).1 with (registered (plugins (pm s))). rewrite Get_find.
  split_and!; try done.
  - unfold Count, bind, gets, ret, registered. simpl. by rewrite length_fmap.
  - rewrite <- find_name_None. by destruct (list_find _ _) as [[]|].
  - intros p Hp. destruct (list_find _ _) as [[i x]|] eqn:F; [|done].
    injection Hp as <-.
    apply find_name_Some in F as (l1 & l2 & -> & _ & _ & _ & Hx & _).
    split; [done|]. unfold registered. rewrite fmap_app, fmap_cons, Hx.
    apply elem_of_app. right. left.
Qed.

(** The entries that a hook loop invokes are enabled entries of the list
    it is given. *)
Lemma rangeEnabled_invoked h call fmt entries s :
  ∃ invoked w,
    (rangeEnabled h call fmt entries s).2 = after s h invoked w
    ∧ ∀ e, e ∈ invoked → e ∈ entries ∧ disabled (heap s) e = false.
Proof.
  rewrite rangeEnabled_filter.
  pose proof (Forall_enabledEntries s entries) as Hen.
  destruct (allSucceed_or_first_failure call (enabledEntries (heap s) entries) (world s))
    as [[w' Hw']|(before & entry & later & w1 & err & w2 & Hdec & Hb & Hf)].
  - exists (enabledEntries (heap s) entries), w'.
    rewrite (rangeEnabled_ok _ _ _ _ _ w') by done. split; [done|].
    intros e [He Hin]%list_elem_of_filter. done.
  - exists (before ++ [entry]), w2. rewrite Hdec in Hen |- *.
    rewrite (rangeEnabled_fail _ _ _ _ _ _ _ w1 err w2) by done.
    split; [done|]. intros e Hin.
    assert (e ∈ enabledEntries (heap s) entries) as [He Hin']%list_elem_of_filter.
    { rewrite Hdec, cons_middle, app_assoc. apply elem_of_app. by left. }
    done.
Qed.

Lemma same_name_same_entry entries e1 e2 :
  NoDup (registered entries) → e1 ∈ entries → e2 ∈ entries →
  Plugin.Name (plugin e1) = Plugin.Name (plugin e2) → e1 = e2.
Proof.
  intros Hnd H1 H2 Hname.
  destruct (find_name_NoDup _ _ e1 Hnd H1 eq_refl) as [i F1].
  destruct (find_name_NoDup _ _ e2 Hnd H2 (eq_sym Hname)) as [j F2].
  rewrite F1 in F2. by injection F2.
Qed.

(** X27: disabling takes effect at once.  After [SetEnabled(name, false)]
    on a registered plugin, [Initialize], [OnToolCall], [OnMessage] and
    [OnComplete] invoke no hook of that plugin; after
    [SetEnabled(name, true)] the plugin is among the enabled entries that
    these operations go through. *)
Theorem SetEnabled_takes_effect name s entry p ctx toolName input msg result :
  NoDup (List s).1 → entry ∈ plugins (pm s) →
  Plugin.Name (plugin entry) = name →
  config entry = Some p → p < length (heap s) →
  let off := (SetEnabled name false s).2 in
  let on := (SetEnabled name true s).2 in
  let fresh (s' : State) := callee <$> drop (length (calls off)) (calls s') in
  (name ∉ fresh (Initialize ctx off).2)
  ∧ (name ∉ fresh (OnToolCall ctx toolName input off).2)
  ∧ (name ∉ fresh (OnMessage ctx msg off).2)
  ∧ (name ∉ fresh (OnComplete ctx result off).2)
  ∧ entry ∈ enabledEntries (heap on) (plugins (pm on)).
Proof.
  intros Hnd Hin Hname Hcfg Hp off on fresh.
  change (List s).1 with (registered (plugins (pm s))) in Hnd.
  destruct (find_name_NoDup name _ entry Hnd Hin Hname) as [i F].
  assert (∀ enabled,
            (SetEnabled name enabled s).2
            = {| pm := pm s;
                 heap := <[p := {| Enabled := enabled;
                                   Priority := Priority (deref (heap s) p);
                                   Config := Config (deref (heap s) p) |}]> (heap s);
                 world := world s; calls := calls s |}) as Hset.
  { intros enabled. unfold SetEnabled, bind, gets. rewrite F, Hcfg. simpl.
    by destruct (pm s). }
  assert (disabled (heap off) entry = true) as Hoff.
  { subst off. rewrite Hset. unfold disabled, deref. rewrite Hcfg. simpl.
    by rewrite list_lookup_insert_eq. }
  assert (plugins (pm off) = plugins (pm s)) as Hplugins.
  { subst off. by rewrite Hset. }
  assert (∀ h call fmt,
            name ∉ fresh (rangeEnabled h call fmt (plugins (pm off)) off).2) as Hloop.
  { intros h call fmt.
    destruct (rangeEnabled_invoked h call fmt (plugins (pm off)) off)
      as (invoked & w & -> & Hinv).
    subst fresh. simpl. rewrite drop_app_length, <- list_fmap_compose.
    intros (e & He & [Hin' Hen]%Hinv)%list_elem_of_fmap. simpl in He.
    rewrite Hplugins in Hin'.
    assert (e = entry) as ->.
    { apply (same_name_same_entry (plugins (pm s))); try done. by rewrite Hname. }
    by rewrite Hoff in Hen. }
  split_and!.
  - destruct (initialized (pm off)) eqn:E.
    + rewrite (Initialize_done ctx off E). subst fresh. simpl.
      rewrite drop_all. by intros ?%elem_of_nil.
    + rewrite (Initialize_runs ctx off E).
      specialize (Hloop HInitialize (λ p, Plugin.Initialize p ctx)
                    (λ name, "failed to initialize plugin '" +:+ name +:+ "': ")).
      by destruct (rangeEnabled _ _ _ _ off) as [[err|] s'].
  - apply Hloop.
  - apply Hloop.
  - apply Hloop.
  - subst on. rewrite Hset. simpl. apply list_elem_of_filter. split; [|done].
    unfold disabled, deref. rewrite Hcfg. simpl.
    by rewrite list_lookup_insert_eq.
Qed.
End registry_more.

Section registry_examples.
#[local] Existing Instance demo.payloads.
Import demo.

(** With A and B registered, a second plugin named A is refused and the
    manager is as before. *)
Lemma Register_rejects_witness :
  (Register (Some (counter "A" [HShutdown])) None twoPlugins).1
  = Some (New "plugin with name 'A' already registered")
  ∧ (Register (Some (counter "A" [HShutdown])) None twoPlugins).2 = twoPlugins.
Proof.
  destruct (Register_rejects (Some (counter "A" [HShutdown])) None twoPlugins)
    as (Hiff & Hsame & Hdup).
  assert ((Register (Some (counter "A" [HShutdown])) None twoPlugins).1
          = Some (New "plugin with name 'A' already registered")) as Herr.
  { apply (Hdup (counter "A" [HShutdown])); [reflexivity|discriminate|].
    right. left. }
  split; [exact Herr|]. apply Hsame. rewrite Herr. discriminate.
Defined.


(** Unregistering B from the four plugins leaves A, C and D in order and
    invokes nothing. *)
Lemma Unregister_removes_witness :
  "B" ∈ (List fourPlugins).1
  ∧ (List (Unregister "B" fourPlugins).2).1 = ["A"; "C"; "D"]
  ∧ calls (Unregister "B" fourPlugins).2 = calls fourPlugins
  ∧ (Unregister "Z" fourPlugins).2 = fourPlugins.
Proof.
  assert ("B" ∈ (List fourPlugins).1) as Hin by (left).
  assert ("Z" ∉ (List fourPlugins).1) as Hout.
  { apply (bool_decide_eq_true_1 _). reflexivity. }
  destruct (Unregister_removes
              [ONew (cfg true 100); ORegister (Some (counter "A" [])) (Some 0);
               ONew (cfg false 50); ORegister (Some (counter "B" [])) (Some 1);
               ONew (cfg true 200);
               ORegister (Some (counter "C" [HOnToolCall])) (Some 2);
               ONew (cfg true 300); ORegister (Some (counter "D" [])) (Some 3)]
              0 "B") as [_ Hrem].
  destruct (Unregister_removes
              [ONew (cfg true 100); ORegister (Some (counter "A" [])) (Some 0);
               ONew (cfg false 50); ORegister (Some (counter "B" [])) (Some 1);
               ONew (cfg true 200);
               ORegister (Some (counter "C" [HOnToolCall])) (Some 2);
               ONew (cfg true 300); ORegister (Some (counter "D" [])) (Some 3)]
              0 "Z") as [Hmiss _].
  destruct (Hrem Hin) as (_ & Hlist & _ & _ & Hcalls & _).
  split_and!; [exact Hin| |exact Hcalls|].
  - etrans; [exact Hlist|reflexivity].
  - change fourPlugins with
      (run [ONew (cfg true 100); ORegister (Some (counter "A" [])) (Some 0);
            ONew (cfg false 50); ORegister (Some (counter "B" [])) (Some 1);
            ONew (cfg true 200);
            ORegister (Some (counter "C" [HOnToolCall])) (Some 2);
            ONew (cfg true 300); ORegister (Some (counter "D" [])) (Some 3)]
           (start 0)).2.
    by rewrite (Hmiss Hout).
Defined.

(** Enabling the disabled B of the pair A, B through the manager makes its
    entry enabled, and leaves A's alone. *)
Lemma SetEnabled_toggles_witness :
  let B := {| plugin := counter "B" []; config := Some 1; priority := 50 |} in
  let A := {| plugin := counter "A" []; config := Some 0; priority := 100 |} in
  plugins (pm twoPlugins) = [B; A]
  ∧ disabled (heap twoPlugins) B = true
  ∧ (SetEnabled "B" true twoPlugins).1 = None
  ∧ disabled (heap (SetEnabled "B" true twoPlugins).2) B = false
  ∧ disabled (heap (SetEnabled "B" true twoPlugins).2) A
    = disabled (heap twoPlugins) A.
Proof.
  intros B A.
  assert (NoDup (List twoPlugins).1) as Hnd.
  { apply (bool_decide_eq_true_1 _). reflexivity. }
  assert (B ∈ plugins (pm twoPlugins)) as Hin by (left).
  assert (1 < length (heap twoPlugins)) as Hp by (simpl; lia).
  destruct (SetEnabled_toggles "B" true twoPlugins) as [_ Hset].
  destruct (Hset B 1 Hnd Hin eq_refl eq_refl Hp) as (Hok & _ & _ & _ & _ & Hdis).
  split_and!; [reflexivity|reflexivity|exact Hok|exact (Hdis B)|exact (Hdis A)].
Defined.

(** A at 50 and F at 100, where F is not ready at first: the first
    [Initialize] invokes A and F and fails, the second invokes both again
    and succeeds. *)
Lemma Initialize_failure_not_latched_witness :
  let s1 := (Initialize tt flakyPair).2 in
  (Initialize tt flakyPair).1
  = Some (Wrap "failed to initialize plugin 'F': " (New "F is not ready"))
  ∧ initialized (pm s1) = false
  ∧ (Initialize tt s1).1 = None
  ∧ callee <$> calls (Initialize tt s1).2 = ["A"; "F"; "A"; "F"].
Proof.
  intros s1.
  destruct (@Initialize_failure_not_latched demo.payloads tt flakyPair
              [{| plugin := counter "A" []; config := Some 0; priority := 50 |}]
              {| plugin := flaky "F" 2; config := Some 1; priority := 100 |}
              [] 1 (New "F is not ready") 2 eq_refl eq_refl eq_refl eq_refl)
    as (Hfail & Hflag & Hretry).
  specialize (Hretry 4 eq_refl).
  assert (s1 = after flakyPair HInitialize
                 ([{| plugin := counter "A" []; config := Some 0; priority := 50 |}]
                  ++ [{| plugin := flaky "F" 2; config := Some 1; priority := 100 |}])
                 2)
    as -> by (subst s1; by rewrite Hfail).
  split_and!.
  - by rewrite Hfail.
  - exact Hflag.
  - by rewrite Hretry.
  - by rewrite Hretry.
Defined.

(** Of the pair A, B the enabled A is switched off: a tool call reaches
    nobody; B is switched on: it is among the enabled entries. *)
Lemma SetEnabled_takes_effect_witness :
  let off := (SetEnabled "A" false twoPlugins).2 in
  let on := (SetEnabled "B" true twoPlugins).2 in
  ("A" ∉ callee <$> drop (length (calls off))
                      (calls (OnToolCall tt "Bash" input off).2))
  ∧ calls (OnToolCall tt "Bash" input off).2 = calls off
  ∧ {| plugin := counter "B" []; config := Some 1; priority := 50 |}
    ∈ enabledEntries (heap on) (plugins (pm on)).
Proof.
  intros off on.
  assert (NoDup (List twoPlugins).1) as Hnd.
  { apply (bool_decide_eq_true_1 _). reflexivity. }
  assert (length (heap twoPlugins) = 2) as Hheap by reflexivity.
  destruct (@SetEnabled_takes_effect demo.payloads "A" twoPlugins
              {| plugin := counter "A" []; config := Some 0; priority := 100 |}
              0 tt "Bash" input tt tt Hnd)
    as (_ & Hcall & _ & _ & _); [right; left|reflexivity|reflexivity|lia|].
  destruct (@SetEnabled_takes_effect demo.payloads "B" twoPlugins
              {| plugin := counter "B" []; config := Some 1; priority := 50 |}
              1 tt "Bash" input tt tt Hnd)
    as (_ & _ & _ & _ & Hon); [left|reflexivity|reflexivity|lia|].
  split_and!; [exact Hcall|reflexivity|exact Hon].
Defined.
End registry_examples.
End plugin_more.

(** ** The pre-built plugins *)

Module prebuilt_proofs.
Import permissions plugin prebuilt spec plugin_proofs.

Section prebuilt_proofs.
Context `{Payloads}.

(** X21: the tool filter refuses exactly the tools in its table.  A tool
    is refused from [BlockTool] on, with the reason given or, for an empty
    reason, ["tool is blocked"], and let through again from [UnblockTool]
    on; blocking or unblocking one tool changes the answer for no other;
    a filter made from a [nil] table blocks nothing. *)
Theorem ToolFilterPlugin_blocks tfp ctx toolName input :
  (ToolFilterPlugin_OnToolCall tfp ctx toolName input = None
   ↔ BlockedTools tfp !! toolName = None)
  ∧ (∀ reason,
       ToolFilterPlugin_OnToolCall (BlockTool tfp toolName reason) ctx toolName input
       = Some (New (toolName +:+ ": "
                    +:+ (if bool_decide (reason = "") then "tool is blocked"
                         else reason))))
  ∧ ToolFilterPlugin_OnToolCall (UnblockTool tfp toolName) ctx toolName input = None
  ∧ (∀ other reason, other ≠ toolName →
       ToolFilterPlugin_OnToolCall (BlockTool tfp other reason) ctx toolName input
       = ToolFilterPlugin_OnToolCall tfp ctx toolName input
       ∧ ToolFilterPlugin_OnToolCall (UnblockTool tfp other) ctx toolName input
         = ToolFilterPlugin_OnToolCall tfp ctx toolName input)
  ∧ ToolFilterPlugin_OnToolCall (NewToolFilterPlugin None) ctx toolName input = None.
Proof.
  unfold ToolFilterPlugin_OnToolCall, BlockTool, UnblockTool. simpl. split_and!.
  - by destruct (BlockedTools tfp !! toolName).
  - intros reason. by rewrite lookup_insert_eq.
  - by rewrite lookup_delete_eq.
  - intros other reason Hne.
    by rewrite lookup_insert_ne, lookup_delete_ne.
  - done.
Qed.

(** If every hook of [entries] returned [nil], each of them did so in
    some world. *)
Lemma allSucceed_each call (entries : list pluginEntry) : ∀ w w',
  allSucceed call entries w = Some w' →
  ∀ entry, entry ∈ entries → ∃ w0, (call (plugin entry) w0).1 = None.
Proof.
  induction entries as [|e0 rest IH]; intros w w' Hall entry Hin.
  - by apply elem_of_nil in Hin.
  - simpl in Hall. destruct (call (plugin e0) w) as [[err|] w0] eqn:E; [done|].
    apply elem_of_cons in Hin as [->|Hin].
    + exists w. by rewrite E.
    + by apply (IH w0 w').
Qed.

(** X22: a manager with an enabled tool filter never lets a blocked tool
    through.  [OnToolCall] for a tool in the filter's table returns an
    error; if the enabled plugins before the filter accept the call, it is
    the filter's refusal, wrapped with the filter's name, and no plugin
    after the filter sees the call. *)
Theorem ToolFilterPlugin_in_manager tfp ctx toolName input reason s entry :
  BlockedTools tfp !! toolName = Some reason →
  entry ∈ plugins (pm s) → disabled (heap s) entry = false →
  plugin entry = ToolFilterPlugin_plugin tfp →
  (OnToolCall ctx toolName input s).1 ≠ None
  ∧ (∀ before later w1,
       enabledEntries (heap s) (plugins (pm s)) = before ++ entry :: later →
       allSucceed (λ p, Plugin.OnToolCall p ctx toolName input) before (world s)
       = Some w1 →
       OnToolCall ctx toolName input s
       = (Some (Wrap ("plugin '" +:+ PluginName (tfBase tfp)
                      +:+ "' rejected tool call: ")
                  (New (toolName +:+ ": "
                        +:+ (if bool_decide (reason = "") then "tool is blocked"
                             else reason)))),
          after s HOnToolCall (before ++ [entry]) w1)).
Proof.
  intros Hblocked Hin Hen Hplugin.
  assert (∀ w, Plugin.OnToolCall (plugin entry) ctx toolName input w
               = (Some (New (toolName +:+ ": "
                             +:+ (if bool_decide (reason = "") then "tool is blocked"
                                  else reason))), w)) as Hcall.
  { intros w. rewrite Hplugin. simpl. unfold ToolFilterPlugin_OnToolCall.
    by rewrite Hblocked. }
  assert (fansOut (OnToolCall ctx toolName input) HOnToolCall
            (λ p, Plugin.OnToolCall p ctx toolName input)
            (λ name, "plugin '" +:+ name +:+ "' rejected tool call: "))
    as [Hok Hfail] by apply rangeEnabled_fansOut.
  split.
  - destruct (allSucceed_or_first_failure
                (λ p, Plugin.OnToolCall p ctx toolName input)
                (enabledEntries (heap s) (plugins (pm s))) (world s))
      as [[w' Hw']|(before & e & later & w1 & err & w2 & Hdec & Hb & Hf)].
    + destruct (allSucceed_each _ _ _ _ Hw' entry) as [w0 Hw0].
      { by apply list_elem_of_filter. }
      by rewrite Hcall in Hw0.
    + by rewrite (Hfail s before e later w1 err w2 Hdec Hb Hf).
  - intros before later w1 Hdec Hb.
    rewrite (Hfail s before entry later w1 _ w1 Hdec Hb (Hcall w1)).
    by rewrite Hplugin.
Qed.

Lemma wrap_small z : (- 2 ^ 63 ≤ z < 2 ^ 63)%Z → wrap z = z.
Proof. intros Hz. unfold wrap. rewrite Z.mod_small; lia. Qed.

(** Trimming to the last [m] after each append is trimming once. *)
Lemma drop_last_step {A} (l rest : list A) m :
  drop (length (drop (length l - m) l ++ rest) - m) (drop (length l - m) l ++ rest)
  = drop (length (l ++ rest) - m) (l ++ rest).
Proof.
  rewrite <- (drop_app_le l rest) by lia.
  rewrite drop_drop. f_equal. rewrite length_drop, !length_app. lia.
Qed.

(** X23: the audit plugin keeps the most recent records.  With a positive
    [MaxSize], after any sequence of tool calls it holds the last
    [MaxSize] records of all it was given, the oldest first, and never
    more; with a [MaxSize] of 0 or less it holds them all.  A record takes
    the time, the tool name and the raw input of its call, and no session
    id. *)
Theorem AuditPlugin_keeps_last ctx (calls : list (Z * string * ToolInput.t)) :
  ∀ ap,
  (0 < MaxSize ap → Z.of_nat (length (Records ap)) ≤ MaxSize ap)%Z →
  let record c := {| Timestamp := c.1.1; ToolName := c.1.2;
                     Input := ToolInput.Raw c.2; SessionID := "" |} in
  let ap' := foldl (λ ap c, (AuditPlugin_OnToolCall ap c.1.1 ctx c.1.2 c.2).2)
               ap calls in
  let all := Records ap ++ (record <$> calls) in
  GetRecords ap'
  = (if bool_decide (0 < MaxSize ap)%Z
     then drop (length all - Z.to_nat (MaxSize ap)) all else all)
  ∧ MaxSize ap' = MaxSize ap
  ∧ (0 < MaxSize ap → Z.of_nat (length (GetRecords ap')) ≤ MaxSize ap)%Z.
Proof.
  cbv zeta.
  set (record := λ c : Z * string * ToolInput.t,
         {| Timestamp := c.1.1; ToolName := c.1.2;
            Input := ToolInput.Raw c.2; SessionID := "" |}).
  induction calls as [|c calls IH]; intros ap Hsize.
  - simpl. rewrite app_nil_r. unfold GetRecords.
    split_and!; [|done|done].
    case_bool_decide as Hm; [|done].
    replace (length (Records ap) - Z.to_nat (MaxSize ap)) with 0 by lia. done.
  - cbn [foldl].
    set (ap1 := (AuditPlugin_OnToolCall ap c.1.1 ctx c.1.2 c.2).2).
    assert (MaxSize ap1 = MaxSize ap) as Hmax by done.
    assert (Records ap1
            = if bool_decide (0 < MaxSize ap)%Z
              then drop (length (Records ap ++ [record c]) - Z.to_nat (MaxSize ap))
                     (Records ap ++ [record c])
              else Records ap ++ [record c]) as Hrec.
    { subst ap1. unfold AuditPlugin_OnToolCall. simpl. fold (record c).
      case_bool_decide as Hm; simpl; [|done].
      case_bool_decide as Hlen; simpl.
      - f_equal. rewrite !length_app. simpl. lia.
      - rewrite length_app in Hlen |- *. simpl in Hlen |- *.
        replace (length (Records ap) + 1 - Z.to_nat (MaxSize ap)) with 0 by lia.
        done. }
    assert (0 < MaxSize ap1 → Z.of_nat (length (Records ap1)) ≤ MaxSize ap1)%Z
      as Hsize1.
    { rewrite Hmax, Hrec. intros Hm. rewrite bool_decide_true by done.
      rewrite length_drop, length_app. simpl. lia. }
    destruct (IH ap1 Hsize1) as (Hget & Hmax' & Hbound).
    rewrite Hmax in *. split_and!; [|done|done].
    rewrite Hget, Hrec, fmap_cons.
    replace (Records ap ++ record c :: (record <$> calls))
      with ((Records ap ++ [record c]) ++ (record <$> calls))
      by (by rewrite <- app_assoc).
    case_bool_decide as Hm; [|done].
    apply drop_last_step.
Qed.

Lemma omap_length_le {A B} (f : A → option B) (l : list A) :
  length (omap f l) ≤ length l.
Proof.
  induction l as [|a l IH]; [done|].
  change (omap f (a :: l))
    with (match f a with Some b => b :: omap f l | None => omap f l end).
  destruct (f a); simpl; lia.
Qed.

(** X24: the metrics plugin counts what it sees.  After fewer than 2^63
    events, each a tool call or a message, in any order, the counter of a
    tool is the number of calls of that tool, a tool that was never called
    has no counter, the message counter is the number of messages, and
    [Reset] gives back the metrics of a new plugin. *)
Theorem MetricsPlugin_counts ctx
    (events : list (string * ToolInput.t + GoMessage)) :
  (Z.of_nat (length events) < 2 ^ 63)%Z →
  let step mp e :=
    match e with
    | inl c => (MetricsPlugin_OnToolCall mp ctx c.1 c.2).2
    | inr msg => (MetricsPlugin_OnMessage mp ctx msg).2
    end in
  let mp := foldl step NewMetricsPlugin events in
  let tools := omap (λ e, match e with inl c => Some c.1 | inr _ => None end)
                 events in
  (∀ toolName,
     ToolCallCount mp !! toolName
     = if decide (toolName ∈ tools)
       then Some (Z.of_nat (length (filter (λ t, t = toolName) tools)))
       else None)
  ∧ MessageCount mp = Z.of_nat (length events - length tools)
  ∧ MetricsPlugin_Reset mp = NewMetricsPlugin.
Proof.
  intros Hlen step mp tools. subst mp tools.
  induction events as [|e events IH] using rev_ind.
  - simpl. split_and!; [|done|done]. intros toolName.
    apply lookup_empty.
  - rewrite length_app in Hlen. simpl in Hlen.
    destruct IH as (Htools & Hmsgs & Hreset); [lia|].
    rewrite foldl_snoc, omap_app.
    set (mp := foldl step NewMetricsPlugin events) in *.
    set (tools := omap _ events) in *.
    assert (length tools ≤ length events) as Hle.
    { apply omap_length_le. }
    destruct e as [c|msg]; simpl.
    + split_and!.
      * intros toolName. rewrite filter_app, length_app. simpl.
        destruct (decide (toolName = c.1)) as [->|Hne].
        -- rewrite lookup_insert_eq, Htools.
           rewrite (decide_True (P := c.1 ∈ tools ++ [c.1]))
             by (apply elem_of_app; right; left).
           rewrite filter_cons_True by done. rewrite filter_nil. simpl.
           pose proof (length_filter (λ t, t = c.1) tools) as Hf.
           f_equal. destruct (decide (c.1 ∈ tools)) as [Hin|Hin]; simpl.
           ++ rewrite wrap_small by lia. lia.
           ++ assert (filter (λ t, t = c.1) tools = []) as ->.
              { apply filter_none. intros t Ht Heq. apply Hin. by rewrite <- Heq. }
              simpl.
              by rewrite wrap_small by lia.
        -- rewrite lookup_insert_ne by done. rewrite Htools.
           rewrite filter_cons_False by (intros Heq; by apply Hne). rewrite filter_nil.
           rewrite Nat.add_0_r.
           destruct (decide (toolName ∈ tools)) as [Hin|Hin].
           ++ by rewrite decide_True by (apply elem_of_app; by left).
           ++ rewrite decide_False; [done|].
              intros [?|[?|?%elem_of_nil]%elem_of_cons]%elem_of_app; done.
      * rewrite !length_app. simpl. lia.
      * done.
    + rewrite app_nil_r. split_and!; [done| |done].
      rewrite Hmsgs, wrap_small by lia. rewrite length_app. simpl. lia.
Qed.
End prebuilt_proofs.

Section prebuilt_examples.
#[local] Existing Instance demo.payloads.
Import demo.

(** With A before the filter and D after it, a [Bash] call reaches A and
    the filter, is refused by the filter, and does not reach D. *)
Lemma ToolFilterPlugin_in_manager_witness :
  (OnToolCall tt "Bash" input filtered).1
  = Some (Wrap "plugin 'tool-filter' rejected tool call: "
            (New "Bash: tool is blocked"))
  ∧ callee <$> calls (OnToolCall tt "Bash" input filtered).2 = ["A"; "tool-filter"].
Proof.
  assert (BlockedTools bashFilter !! "Bash" = Some EmptyString) as Hblocked
    by apply lookup_singleton_eq.
  destruct (@ToolFilterPlugin_in_manager demo.payloads bashFilter tt "Bash" input
              EmptyString filtered
              {| plugin := ToolFilterPlugin_plugin bashFilter; config := Some 1;
                 priority := 100 |} Hblocked)
    as [_ Hexact]; [right; left|reflexivity|reflexivity|].
  specialize (Hexact
    [{| plugin := counter "A" []; config := Some 0; priority := 50 |}]
    [{| plugin := counter "D" []; config := Some 2; priority := 300 |}]
    1 eq_refl eq_refl).
  rewrite Hexact. split; reflexivity.
Defined.

(** An audit plugin of size 2 that saw [Read], [Bash] and [Write] holds
    [Bash] and [Write]. *)
Lemma AuditPlugin_keeps_last_witness :
  let ap' := foldl (λ ap c, (AuditPlugin_OnToolCall ap c.1.1 tt c.1.2 c.2).2)
               (NewAuditPlugin 2)
               [(1%Z, "Read", input); (2%Z, "Bash", input); (3%Z, "Write", input)] in
  (0 < 2 → Z.of_nat 0 ≤ 2)%Z
  ∧ ToolName <$> GetRecords ap' = ["Bash"; "Write"]
  ∧ Timestamp <$> GetRecords ap' = [2%Z; 3%Z].
Proof.
  intros ap'.
  assert (0 < MaxSize (NewAuditPlugin 2)
          → Z.of_nat (length (Records (NewAuditPlugin 2))) ≤ MaxSize (NewAuditPlugin 2))%Z
    as Hsize by (intros _; simpl; lia).
  destruct (@AuditPlugin_keeps_last demo.payloads tt
              [(1%Z, "Read", input); (2%Z, "Bash", input); (3%Z, "Write", input)]
              (NewAuditPlugin 2) Hsize) as (Hrecords & _ & _).
  split; [exact Hsize|]. subst ap'. rewrite Hrecords. split; reflexivity.
Defined.

(** [Bash], a message, [Read], [Bash]: two calls of [Bash], one of [Read],
    none of [Write], one message. *)
Lemma MetricsPlugin_counts_witness :
  let mp := (MetricsPlugin_OnToolCall
               (MetricsPlugin_OnToolCall
                  (MetricsPlugin_OnMessage
                     (MetricsPlugin_OnToolCall NewMetricsPlugin tt "Bash" input).2
                     tt tt).2
                  tt "Read" input).2
               tt "Bash" input).2 in
  (Z.of_nat 4 < 2 ^ 63)%Z
  ∧ ToolCallCount mp !! "Bash" = Some 2%Z
  ∧ ToolCallCount mp !! "Read" = Some 1%Z
  ∧ ToolCallCount mp !! "Write" = None
  ∧ MessageCount mp = 1%Z.
Proof.
  intros mp.
  assert (Z.of_nat (length [inl ("Bash", input); inr tt; inl ("Read", input);
                            inl ("Bash", input)]) < 2 ^ 63)%Z as Hlen
    by reflexivity.
  destruct (@MetricsPlugin_counts demo.payloads tt
              [inl ("Bash", input); inr tt; inl ("Read", input); inl ("Bash", input)]
              Hlen) as (Htools & Hmsgs & _).
  split_and!; [exact Hlen|exact (Htools "Bash")|exact (Htools "Read")
              |exact (Htools "Write")|exact Hmsgs].
Defined.
End prebuilt_examples.
End prebuilt_proofs.
